(** * dupe_checker.py: reconciliation of an iTunes library export with a
      directory tree

    A shallow embedding of [src/dupe_checker.py] (Python 3) and the
    properties of its store, scanner, catalogue merge and report generator.

    Conventions of the embedding
    - Python objects of class [FileAttributes] live in a heap ([list], the
      index is the object's identity); the two module-level dictionaries
      hold references ([loc]) into it, so that [is] / [is not] and aliasing
      between [file_path_dict] and [checksums_dict] are those of the script.
    - A Python [dict] is an association list in insertion order with unique
      keys ([dict_set] keeps the position of an existing key).
    - Statements run in a state-and-exception monad [M]; a raised exception
      keeps the state reached so far.  Standard output, [mkdir], and the
      writes through file handles are recorded, in order, in [trace].
    - Library and operating-system calls whose result the script cannot
      control ([subprocess.check_output], [os.walk], [ET.parse],
      [argparse], [pickle.load], the thread scheduler, ...) are fields of an
      environment record [Env].  The object [check_output] returns is left
      to the environment: [split(' ')] cuts a [str] at the first blank and
      raises [TypeError] on a [bytes] object.
    - The thread pool is a set of tasks that advance by atomic actions
      (hand-over by the walking thread, start, completion); the statements
      of [process_file] under [file_path_dict_lock] are one action.  Which
      enabled action runs next is the scheduler's choice, so a statement
      about [calculate_all_checksums] for every [Env] is a statement about
      every interleaving.  [pool.close(); pool.join()] returns when no
      action is enabled. *)

From Stdlib Require Import String Ascii List ZArith Lia Bool.
From stdpp Require Import base list strings.

Open Scope string_scope.
Open Scope list_scope.

(** ** Python strings *)

Module PyStr.

(** [s.startswith(p)] *)
Definition startswith (s p : string) : bool := String.prefix p s.

(** [s.replace(old, new)] for a non-empty [old]: leftmost, non-overlapping
    occurrences.  [skip] counts the characters of a matched occurrence
    that are still to be dropped. *)
Fixpoint replace_from (skip : nat) (old new s : string) : string :=
  match s with
  | EmptyString => EmptyString
  | String c r =>
      match skip with
      | S k => replace_from k old new r
      | O =>
          if String.prefix old s
          then new +:+ replace_from (String.length old - 1) old new r
          else String c (replace_from 0 old new r)
      end
  end.

Definition replace (s old new : string) : string := replace_from 0 old new s.

(** [s.split(' ')[0]]: the text before the first blank (the whole string
    when there is none; [split] with a separator never returns []). *)
Fixpoint split_blank_head (s : string) : string :=
  match s with
  | EmptyString => EmptyString
  | String c r =>
      if Ascii.eqb c " "%char then EmptyString
      else String c (split_blank_head r)
  end.

(** [posixpath.basename]: what follows the last slash. *)
Fixpoint basename_from (cur s : string) : string :=
  match s with
  | EmptyString => cur
  | String c r =>
      if Ascii.eqb c "/"%char then basename_from EmptyString r
      else basename_from (cur +:+ String c EmptyString) r
  end.

Definition basename (s : string) : string := basename_from EmptyString s.

End PyStr.

(** ** Exceptions and dynamically typed values *)

Inductive exn_class :=
| TypeError | AttributeError | KeyError | UnboundLocalError | NameError
| OSError | CalledProcessError | ParseError | PickleError | SystemExit.

Record exn := Exn { exn_cls : exn_class; exn_msg : string }.

(** [except Exception] catches everything but the [BaseException]-only
    classes; of those the script can only meet [SystemExit]. *)
Definition is_Exception (e : exn) : bool :=
  match exn_cls e with SystemExit => false | _ => true end.

Inductive pyval :=
| PInt (z : Z)
| PStr (s : string)
| PBytes (b : string)
| PNone.

(** [str(v)] as [print] shows it. *)
Definition pyval_str (v : option string) : string :=
  match v with Some s => s | None => "None" end.

(** ** Data model *)

(** [class FileAttributes] *)
Record FileAttributes := mkFileAttributes {
  file_path : option string;
  file_name : option string;
  checksum : option string;
  itunes_key : pyval;
  itunes_file_path : option string }.

(** [FileAttributes.__init__] *)
Definition FileAttributes_init : FileAttributes :=
  {| file_path := None; file_name := None; checksum := None;
     itunes_key := PInt (-1); itunes_file_path := None |}.

Definition loc := nat.

(** *** Insertion-ordered dictionaries *)

Section Dict.
Context {K V : Type} `{EqDecision K}.

Fixpoint dict_get (k : K) (d : list (K * V)) : option V :=
  match d with
  | [] => None
  | (k', v) :: d' => if decide (k = k') then Some v else dict_get k d'
  end.

(** [k in d] *)
Definition dict_mem (k : K) (d : list (K * V)) : bool :=
  match dict_get k d with Some _ => true | None => false end.

(** [d[k] = v] *)
Fixpoint dict_set (k : K) (v : V) (d : list (K * V)) : list (K * V) :=
  match d with
  | [] => [(k, v)]
  | (k', v') :: d' =>
      if decide (k = k') then (k, v) :: d' else (k', v') :: dict_set k v d'
  end.
End Dict.

(** ** Observable effects and program state *)

Inductive event :=
| Print (line : string)                  (* a line on standard output *)
| Mkdir (path : string)
| Write (fd : nat) (data : string)       (* [fh.write(data)] on handle [fd] *)
| Dump (fd : nat) (snapshot : list (string * FileAttributes))
| Close (fd : nat).

Record State := mkState {
  heap : list FileAttributes;               (* the FileAttributes objects *)
  file_path_dict : list (string * loc);     (* global [file_path_dict] *)
  checksums_dict : list (string * list loc);(* global [checksums_dict] *)
  fs : list string;                         (* paths that exist on disk *)
  opened : list (string * string);          (* handle table: (path, mode) *)
  trace : list event }.

Definition initial_state : State :=
  {| heap := []; file_path_dict := []; checksums_dict := [];
     fs := []; opened := []; trace := [] |}.

Inductive outcome (A : Type) :=
| Ret (a : A)
| Raise (e : exn).
Arguments Ret {A} a.
Arguments Raise {A} e.

Definition M (A : Type) : Type := State -> outcome A * State.

Definition ret {A} (a : A) : M A := fun s => (Ret a, s).
Definition raise {A} (e : exn) : M A := fun s => (Raise e, s).
Definition bind {A B} (m : M A) (f : A -> M B) : M B :=
  fun s => match m s with
           | (Ret a, s') => f a s'
           | (Raise e, s') => (Raise e, s')
           end.

Declare Scope M_scope.
Delimit Scope M_scope with M.
Bind Scope M_scope with M.
Notation "x <- y ;; z" := (bind y (fun x => z))
  (at level 20, y at level 99, z at level 200, only parsing) : M_scope.
Notation "y ;; z" := (bind y (fun _ => z))
  (at level 100, z at level 200, only parsing, right associativity) : M_scope.
Open Scope M_scope.

(** [try: body  except Exception as e: handler e] *)
Definition try_except {A} (body : M A) (handler : exn -> M A) : M A :=
  fun s => match body s with
           | (Raise e, s') =>
               if is_Exception e then handler e s' else (Raise e, s')
           | r => r
           end.

(** [try: body  except: handler] (a bare [except] catches everything) *)
Definition try_except_all {A} (body : M A) (handler : M A) : M A :=
  fun s => match body s with
           | (Raise e, s') => handler s'
           | r => r
           end.

Definition get_state : M State := fun s => (Ret s, s).
Definition emit (e : event) : M unit :=
  fun s => (Ret tt, {| heap := heap s; file_path_dict := file_path_dict s;
                       checksums_dict := checksums_dict s; fs := fs s;
                       opened := opened s; trace := trace s ++ [e] |}).
Definition print (line : string) : M unit := emit (Print line).

Definition set_heap (h : list FileAttributes) : M unit :=
  fun s => (Ret tt, {| heap := h; file_path_dict := file_path_dict s;
                       checksums_dict := checksums_dict s; fs := fs s;
                       opened := opened s; trace := trace s |}).
Definition set_file_path_dict (d : list (string * loc)) : M unit :=
  fun s => (Ret tt, {| heap := heap s; file_path_dict := d;
                       checksums_dict := checksums_dict s; fs := fs s;
                       opened := opened s; trace := trace s |}).
Definition set_checksums_dict (d : list (string * list loc)) : M unit :=
  fun s => (Ret tt, {| heap := heap s; file_path_dict := file_path_dict s;
                       checksums_dict := d; fs := fs s;
                       opened := opened s; trace := trace s |}).

(** Object creation: a new object gets a fresh identity. *)
Definition new_object (o : FileAttributes) : M loc :=
  fun s => (Ret (length (heap s)),
            {| heap := heap s ++ [o]; file_path_dict := file_path_dict s;
               checksums_dict := checksums_dict s; fs := fs s;
               opened := opened s; trace := trace s |}).

(** Attribute reads go through the heap; every reference the script holds
    was obtained from the heap, a dangling one is a [NameError] of the
    model, never met by the program. *)
Definition deref (l : loc) : M FileAttributes :=
  fun s => match heap s !! l with
           | Some o => (Ret o, s)
           | None => (Raise (Exn NameError "dangling reference"), s)
           end.

(** [a + b] on strings where an operand may be [None]. *)
Definition must_str (v : option string) : M string :=
  match v with
  | Some s => ret s
  | None =>
      raise (Exn TypeError "can only concatenate str (not NoneType) to str")
  end.

Definition fs_add (p : string) (paths : list string) : list string :=
  if bool_decide (p ∈ paths) then paths else paths ++ [p].
Definition add_fs (p : string) : M unit :=
  fun s => (Ret tt, {| heap := heap s; file_path_dict := file_path_dict s;
                       checksums_dict := checksums_dict s;
                       fs := fs_add p (fs s);
                       opened := opened s; trace := trace s |}).
Definition add_opened (path mode : string) : M nat :=
  fun s => (Ret (length (opened s)),
            {| heap := heap s; file_path_dict := file_path_dict s;
               checksums_dict := checksums_dict s; fs := fs s;
               opened := opened s ++ [(path, mode)]; trace := trace s |}).

Definition lift {A} (r : outcome A) : M A := fun s => (r, s).
Definition gets {A} (f : State -> A) : M A := fun s => (Ret (f s), s).

(** [for x in xs: body x] *)
Fixpoint for_each {A} (xs : list A) (body : A -> M unit) : M unit :=
  match xs with
  | [] => ret tt
  | x :: xs' => body x ;; for_each xs' body
  end.

(** ** The environment *)

(** [xml.etree.ElementTree.Element]: tag, text and child elements. *)
#[local] Unset Elimination Schemes.
Inductive Element :=
| Elem (tag : string) (text : option string) (children : list Element).
#[local] Set Elimination Schemes.

Definition tag (e : Element) : string := let 'Elem t _ _ := e in t.
Definition text (e : Element) : option string := let 'Elem _ x _ := e in x.
Definition children (e : Element) : list Element := let 'Elem _ _ c := e in c.

(** [Element.iter()]: the element itself, then its descendants, in
    document order. *)
Fixpoint iter (e : Element) : list Element :=
  match e with
  | Elem _ _ cs =>
      e :: (fix iter_all (l : list Element) : list Element :=
              match l with
              | [] => []
              | c :: l' => iter c ++ iter_all l'
              end) cs
  end.

Definition children_tagged (t : string) (e : Element) : list Element :=
  filter (fun c => bool_decide (tag c = t)) (children e).

(** [root.findall("./dict/dict/dict")] *)
Definition findall_dict3 (root : Element) : list Element :=
  flat_map (children_tagged "dict")
    (flat_map (children_tagged "dict") (children_tagged "dict" root)).

(** [argparse.Namespace] of the three options of the script. *)
Record Args := mkArgs {
  itunes_dir : string;
  xml_file : string;
  cache_file : string }.

Record Env := mkEnv {
  (** [subprocess.check_output(argv)]: the object returned, or the
      exception ([CalledProcessError], [FileNotFoundError], ...) *)
  check_output : list string -> outcome pyval;
  (** [ntpath.split] *)
  ntpath_split : string -> string * string;
  (** [os.walk(top)]: the [(root, files)] pairs in the order produced *)
  os_walk : string -> list (string * list string);
  (** [os.path.join] *)
  os_path_join : string -> string -> string;
  (** [ET.parse(f).getroot()] *)
  ET_parse : string -> outcome Element;
  (** [urllib.request.unquote] on a [str] *)
  unquote : string -> string;
  (** [parser.parse_args]; a usage error is [SystemExit] *)
  parse_args : list string -> outcome Args;
  (** whether the file system lets this path be created or opened for
      writing *)
  can_write : string -> bool;
  (** whether [pickle.dump] and [close] on this path succeed *)
  can_dump : string -> bool;
  (** [pickle.load(open(f, 'rb'))] *)
  pickle_load : string -> outcome (list (string * FileAttributes));
  (** the thread scheduler: which of the enabled pool actions runs at the
      n-th step *)
  scheduler : nat -> nat }.

(** [pool_size] *)
Definition pool_size : nat := 5.

(** States of a task handed to [pool.apply_async]. *)
Inductive task_status :=
| Queued
| Running                        (* announced, checksum in flight *)
| Finished (r : outcome unit).   (* the value held by its AsyncResult *)

Record Pool := mkPool {
  todo : list string;                     (* files [os.walk] has still to yield *)
  tasks : list (string * task_status) }.  (* in [apply_async] order *)

Inductive action :=
| Enqueue            (* main thread: the next [pool.apply_async] *)
| Start (i : nat)    (* a worker takes task i and prints its banner *)
| Finish (i : nat).  (* the worker of task i completes [process_file] *)

Section Program.
Context (E : Env).

(** *** [path_leaf] *)
Definition ntpath_basename (p : string) : string := snd (ntpath_split E p).

Definition path_leaf (path : string) : string :=
  let '(head, tail) := ntpath_split E path in
  match tail with
  | EmptyString => ntpath_basename head
  | _ => tail
  end.

(** *** [checksum_file] *)

(** [result.split(' ')[0]] dispatches on the class of [result]. *)
Definition split_blank_first (result : pyval) : M string :=
  match result with
  | PStr s => ret (PyStr.split_blank_head s)
  | PBytes _ =>
      raise (Exn TypeError "a bytes-like object is required, not 'str'")
  | PInt _ => raise (Exn AttributeError "'int' object has no attribute 'split'")
  | PNone =>
      raise (Exn AttributeError "'NoneType' object has no attribute 'split'")
  end.

Definition checksum_file (filename : string) : M string :=
  result <- lift (check_output E ["cksum"; filename]) ;;
  checksum <- split_blank_first result ;;
  ret checksum.

(** *** [process_file] *)

Definition process_file_banner (file_name : string) : M unit :=
  print ("<<<" +:+ file_name +:+ ">>>").

Definition process_file_work (file_name : string) : M unit :=
  file_cksum <- checksum_file file_name ;;
  new_file <- new_object
    {| file_path := Some file_name;
       file_name := Some (path_leaf file_name);
       checksum := Some file_cksum;
       itunes_key := PInt (-1);
       itunes_file_path := None |} ;;
  d <- gets file_path_dict ;;
  set_file_path_dict (dict_set file_name new_file d).

Definition process_file (file_name : string) : M unit :=
  process_file_banner file_name ;;
  process_file_work file_name.

(** *** The thread pool and [calculate_all_checksums] *)

Definition is_running (t : string * task_status) : bool :=
  match snd t with Running => true | _ => false end.
Definition is_queued (t : string * task_status) : bool :=
  match snd t with Queued => true | _ => false end.

(** Index of the first task satisfying [p], counted from [i]. *)
Fixpoint find_index (p : string * task_status -> bool) (i : nat)
         (ts : list (string * task_status)) : option nat :=
  match ts with
  | [] => None
  | t :: ts' => if p t then Some i else find_index p (S i) ts'
  end.

(** Indices of all tasks satisfying [p], counted from [i]. *)
Fixpoint indices (p : string * task_status -> bool) (i : nat)
         (ts : list (string * task_status)) : list nat :=
  match ts with
  | [] => []
  | t :: ts' => (if p t then [i] else []) ++ indices p (S i) ts'
  end.

(** The actions that can happen next: the enumerating thread hands over
    the next file; a free worker (fewer than [pool_size] busy) takes the
    oldest queued task; a busy worker completes its task. *)
Definition enabled (p : Pool) : list action :=
  (match todo p with [] => [] | _ :: _ => [Enqueue] end)
  ++ (if Nat.ltb (length (filter is_running (tasks p))) pool_size
      then match find_index is_queued 0 (tasks p) with
           | Some i => [Start i]
           | None => []
           end
      else [])
  ++ map Finish (indices is_running 0 (tasks p)).

Definition set_status (i : nat) (st : task_status) (p : Pool) : Pool :=
  {| todo := todo p;
     tasks := match tasks p !! i with
              | Some (f, _) => <[i := (f, st)]> (tasks p)
              | None => tasks p
              end |}.

(** One action.  A task's exception stays in its [AsyncResult], which the
    script drops: it never reaches the main thread nor standard output. *)
Definition perform (a : action) (ps : Pool * State) : Pool * State :=
  let '(p, s) := ps in
  match a with
  | Enqueue =>
      match todo p with
      | f :: rest => ({| todo := rest; tasks := tasks p ++ [(f, Queued)] |}, s)
      | [] => (p, s)
      end
  | Start i =>
      match tasks p !! i with
      | Some (f, _) =>
          let '(_, s') := process_file_banner f s in (set_status i Running p, s')
      | None => (p, s)
      end
  | Finish i =>
      match tasks p !! i with
      | Some (f, _) =>
          let '(r, s') := process_file_work f s in
          (set_status i (Finished r) p, s')
      | None => (p, s)
      end
  end.

(** The [k]-th scheduling decision. *)
Definition pool_step (k : nat) (ps : Pool * State) : Pool * State :=
  match enabled (fst ps) with
  | [] => ps
  | a :: acts =>
      perform (nth (scheduler E k mod length (a :: acts)) (a :: acts) a) ps
  end.

(** [n] scheduling decisions, numbered from [k]. *)
Fixpoint pool_run (n k : nat) (ps : Pool * State) : Pool * State :=
  match n with
  | O => ps
  | S n' => pool_run n' (S k) (pool_step k ps)
  end.

(** The files the walk passes to [apply_async], in order. *)
Definition walk_files (walk_dir : string) : list string :=
  flat_map (fun '(root, files) => map (os_path_join E root) files)
           (os_walk E walk_dir).

Definition nl : string := String (ascii_of_nat 10) EmptyString.

(** [calculate_all_checksums]: every file costs three actions (hand-over,
    start, completion); [pool.close(); pool.join()] returns when none is
    left, see [pool_run_joined]. *)
Definition scan (walk_dir : string) (s : State) : Pool * State :=
  let files := walk_files walk_dir in
  pool_run (3 * length files) 0 ({| todo := files; tasks := [] |}, s).

Definition scan_header : string :=
  "--" +:+ nl
  +:+ "--Calculating File Checksums (This will take a LOOOOONG time)"
  +:+ nl +:+ "--".

Definition calculate_all_checksums (walk_dir : string) : M unit :=
  print scan_header ;;
  (fun s => (Ret tt, snd (scan walk_dir s))).

(** *** [read_itunes_library] *)

(** The inner loop over [data.iter()] that fills [this_dict]; keys and
    values are element texts, which may be [None]. *)
Definition fill_this_dict (data : Element)
  : list (option string * option string) :=
  snd (fold_left
         (fun '(sub_key, this_dict) attribute =>
            if bool_decide (tag attribute = "key")
            then (text attribute, this_dict)
            else (sub_key, dict_set sub_key (text attribute) this_dict))
         (iter data) (Some EmptyString, [])).

(** [this_dict[k]] *)
Definition this_dict_item (k : string)
           (this_dict : list (option string * option string))
  : M (option string) :=
  match dict_get (Some k) this_dict with
  | Some v => ret v
  | None => raise (Exn KeyError ("'" +:+ k +:+ "'"))
  end.

(** [urllib.request.unquote(v)] *)
Definition unquote_value (v : option string) : M string :=
  match v with
  | Some s => ret (unquote E s)
  | None => raise (Exn TypeError "argument of type 'NoneType' is not iterable")
  end.

(** [file_path_dict[key].attr = v], as an update [upd] of the object *)
Definition setattr_at (key : string)
           (upd : FileAttributes -> FileAttributes) : M unit :=
  d <- gets file_path_dict ;;
  match dict_get key d with
  | None => raise (Exn KeyError key)
  | Some l =>
      o <- deref l ;;
      h <- gets heap ;;
      set_heap (<[l := upd o]> h)
  end.

Definition set_itunes_file_path (v : option string) (o : FileAttributes) :=
  {| file_path := file_path o; file_name := file_name o;
     checksum := checksum o; itunes_key := itunes_key o;
     itunes_file_path := v |}.
Definition set_itunes_key (v : pyval) (o : FileAttributes) :=
  {| file_path := file_path o; file_name := file_name o;
     checksum := checksum o; itunes_key := v;
     itunes_file_path := itunes_file_path o |}.

(** The statements under [file_path_dict_lock] (lines 104-108). *)
Definition merge_entry (unquoted_path : string) (cur_key : pyval) : M unit :=
  d <- gets file_path_dict ;;
  (if dict_mem unquoted_path d then ret tt
   else
     print ("WARNING: " +:+ unquoted_path
            +:+ " was in iTunes Library, but not in file system") ;;
     o <- new_object FileAttributes_init ;;
     d <- gets file_path_dict ;;
     set_file_path_dict (dict_set unquoted_path o d)) ;;
  setattr_at unquoted_path (set_itunes_file_path (Some unquoted_path)) ;;
  setattr_at unquoted_path (set_itunes_key cur_key).

Definition print_exception (detail : exn) : M unit :=
  print ("Exception: " +:+ exn_msg detail).

(** One [<dict>] element met by [this_node.iter()] (lines 91-114). *)
Definition catalog_entry (cur_key : pyval) (data : Element) : M unit :=
  let this_dict := fill_this_dict data in
  try_except
    (location <- this_dict_item "Location" this_dict ;;
     unquoted <- unquote_value location ;;
     let unquoted_path := PyStr.replace unquoted "file://" EmptyString in
     name <- this_dict_item "Name" this_dict ;;
     location <- this_dict_item "Location" this_dict ;;
     print (pyval_str name +:+ " " +:+ pyval_str location +:+ " "
            +:+ unquoted_path) ;;
     try_except (merge_entry unquoted_path cur_key) print_exception)
    print_exception.

Definition text_value (v : option string) : pyval :=
  match v with Some s => PStr s | None => PNone end.

(** The two nested [for] loops, threading [cur_key]. *)
Fixpoint catalog_nodes (cur_key : pyval) (datas : list Element) : M unit :=
  match datas with
  | [] => ret tt
  | data :: rest =>
      if bool_decide (tag data = "key")
      then catalog_nodes (text_value (text data)) rest
      else if bool_decide (tag data = "dict")
           then catalog_entry cur_key data ;; catalog_nodes cur_key rest
           else catalog_nodes cur_key rest
  end.

Definition read_itunes_library (xml_file : string) : M unit :=
  try_except
    (xml_root <- lift (ET_parse E xml_file) ;;
     catalog_nodes (PInt (-1)) (flat_map iter (findall_dict3 xml_root)))
    print_exception.

(** *** File-system primitives *)

Definition os_path_exists (p : string) : M bool :=
  gets (fun s => bool_decide (p ∈ fs s)).

Definition os_mkdir (p : string) : M unit :=
  ex <- os_path_exists p ;;
  if (ex : bool) then raise (Exn OSError ("File exists: " +:+ p))
  else if can_write E p then emit (Mkdir p) ;; add_fs p
       else raise (Exn OSError ("cannot create " +:+ p)).

(** [open(path, mode)] for a writing [mode]; the result is the handle. *)
Definition open_for_writing (path mode : string) : M nat :=
  if can_write E path then add_fs path ;; add_opened path mode
  else raise (Exn OSError ("cannot open " +:+ path)).

Definition write (fh : nat) (data : string) : M unit := emit (Write fh data).

(** [details.message]: exceptions have no such attribute in Python 3. *)
Definition exn_message (details : exn) : M string :=
  raise (Exn AttributeError "exception object has no attribute 'message'").

(** Reading a local variable that was never bound. *)
Definition unbound_local {A} (name : string) : M A :=
  raise (Exn UnboundLocalError
             ("local variable '" +:+ name +:+ "' referenced before assignment")).

(** [file_data_array.len()]: lists have no method [len]. *)
Definition list_len_method (file_data_array : list loc) : M nat :=
  raise (Exn AttributeError "'list' object has no attribute 'len'").

(** *** [create_dupes_map] *)

Definition create_dupes_entry (file_data : loc) : M unit :=
  o <- deref file_data ;;
  match checksum o with
  | None => ret tt
  | Some c =>
      cd <- gets checksums_dict ;;
      (if dict_mem c cd then ret tt
       else set_checksums_dict (dict_set c [] cd)) ;;
      cd <- gets checksums_dict ;;
      match dict_get c cd with
      | Some arr => set_checksums_dict (dict_set c (arr ++ [file_data]) cd)
      | None => raise (Exn KeyError c)
      end
  end.

Definition create_dupes_map : M unit :=
  try_except
    (d <- gets file_path_dict ;;
     for_each d (fun '(_, file_data) => create_dupes_entry file_data))
    (fun details =>
       m <- exn_message details ;; print ("Exception: " +:+ m)).

(** *** [generate_reports] *)

Definition dq : string := String (ascii_of_nat 34) EmptyString.

(** ['"' + name + '","' + path + '"' + eol] *)
Definition row (name path eol : string) : string :=
  dq +:+ name +:+ dq +:+ "," +:+ dq +:+ path +:+ dq +:+ eol.

(** Body of the first loop (lines 134-140). *)
Definition classify (fh_not_in_itunes_db fh_missing_file
                     fh_file_in_itunes_db : nat) (file_data : loc) : M unit :=
  o <- deref file_data ;;
  match itunes_file_path o with
  | None =>
      n <- must_str (file_name o) ;;
      p <- must_str (file_path o) ;;
      write fh_not_in_itunes_db (row n p nl)
  | Some ip =>
      match file_path o with
      | None => write fh_missing_file (row (path_leaf ip) ip nl)
      | Some p =>
          n <- must_str (file_name o) ;;
          write fh_file_in_itunes_db (row n p nl)
      end
  end.

(** First inner loop (lines 155-159): the last catalogue-linked member
    wins, each later one is announced together with its predecessor. *)
Fixpoint find_file_in_itunes (file_in_itunes : option loc)
         (file_data_array : list loc) : M (option loc) :=
  match file_data_array with
  | [] => ret file_in_itunes
  | cur_file :: rest =>
      o <- deref cur_file ;;
      match itunes_file_path o with
      | None => find_file_in_itunes file_in_itunes rest
      | Some ip =>
          match file_in_itunes with
          | None => ret tt
          | Some prev =>
              po <- deref prev ;;
              n <- must_str (file_name po) ;;
              print ("Duplicate files found in the iTunes library: "
                     +:+ n +:+ " and " +:+ ip)
          end ;;
          find_file_in_itunes (Some cur_file) rest
      end
  end.

(** Body of the second inner loop (lines 161-164). *)
Definition report_member (fh_dupe_file_orig_in_itunes : nat)
           (file_in_itunes : option loc) (cur_file : loc) : M unit :=
  match file_in_itunes with
  | None =>
      o <- deref cur_file ;;
      p <- must_str (file_path o) ;;
      print (p +:+ " is a duplicate, but does not have a copy in iTunes DB")
  | Some orig =>
      if decide (orig = cur_file) then ret tt
      else
        o <- deref cur_file ;;
        n <- must_str (file_name o) ;;
        p <- must_str (file_path o) ;;
        write fh_dupe_file_orig_in_itunes (row n p EmptyString)
  end.

(** Lines 153-164, what is done for one list of more than one record. *)
Definition dupe_group (fh_dupe_file_orig_in_itunes : nat)
           (file_data_array : list loc) : M unit :=
  file_in_itunes <- find_file_in_itunes None file_data_array ;;
  for_each file_data_array
           (report_member fh_dupe_file_orig_in_itunes file_in_itunes).

(** Lines 149-164. *)
Definition dupes_pass (fh_dupe_file_orig_in_itunes : nat) : M unit :=
  cd <- gets checksums_dict ;;
  for_each cd (fun '(_, file_data_array) =>
    n <- list_len_method file_data_array ;;
    if Nat.ltb 1 n
    then dupe_group fh_dupe_file_orig_in_itunes file_data_array
    else ret tt).

Definition generate_reports (report_path : string) : M unit :=
  ex <- os_path_exists report_path ;;
  (if (ex : bool) then ret tt else os_mkdir report_path) ;;
  create_dupes_map ;;
  fh_not_in_itunes_db <-
    open_for_writing (report_path +:+ "not_in_itunes.csv") "w" ;;
  fh_missing_file <-
    open_for_writing (report_path +:+ "not_in_itunes.csv") "w" ;;
  fh_file_in_itunes_db <-
    open_for_writing (report_path +:+ "file_in_itunes.csv") "w" ;;
  fh_dupe_file_orig_in_itunes <-
    open_for_writing (report_path +:+ "dupe_file_orig_in_itunes.csv") "w" ;;
  try_except
    (d <- gets file_path_dict ;;
     for_each d (fun '(_, file_data) =>
       classify fh_not_in_itunes_db fh_missing_file fh_file_in_itunes_db
                file_data))
    (fun details =>
       m <- exn_message details ;; print ("Exception: " +:+ m)) ;;
  try_except_all
    (dupes_pass fh_dupe_file_orig_in_itunes)
    (m <- unbound_local "details" ;;
     print ("Exception while looking for duplicate files: " +:+ m)).

End Program.

(** ** The script body ([if __name__ == "__main__"]) *)

Section Main.
Context (E : Env).

(** The test of line 195, negated: the argument is commented out. *)
Definition commented_out (arg : string) : bool :=
  PyStr.startswith arg "#" || PyStr.startswith arg "--#"
  || PyStr.startswith arg "-#".

(** Lines 193-196, over [sys.argv[1:]]. *)
Fixpoint good_args (args : list string) : list string :=
  match args with
  | [] => []
  | arg :: rest =>
      if negb (PyStr.startswith arg "#") && negb (PyStr.startswith arg "--#")
         && negb (PyStr.startswith arg "-#")
      then arg :: good_args rest
      else good_args rest
  end.

(** Lines 191-204: the namespace, or [None] when an [Exception] was
    caught and the three variables stay unbound. *)
Definition read_args (argv : list string) : M (option Args) :=
  try_except
    (args <- lift (parse_args E (good_args (tail argv))) ;;
     ret (Some args))
    (fun detail =>
       print_exception detail ;;
       print "usage: dupe_checker.py [-h] [--xml XML_FILE] [--dir ITUNES_DIR] [--cache CACHE_FILE]" ;;
       ret None).

Definition default_walk_dir : string :=
  "/Volumes/Raid/iTunes/iTunes Music/Music/Wynonna Judd/Wynonna/".
Definition default_xml_file : string := "/Volumes/Raid/Library copy.xml".

(** Lines 199-211: what the run works on. *)
Definition selection (args : Args) : string * string * string :=
  let walk_dir := if decide (itunes_dir args = EmptyString)
                  then default_walk_dir else itunes_dir args in
  let xml := if decide (xml_file args = EmptyString)
             then default_xml_file else xml_file args in
  (walk_dir, xml, cache_file args).

(** Line 219. *)
Definition snapshot_path (xml : string) : string :=
  PyStr.replace (PyStr.replace xml ".xml" ".pkl") " " "_".

(** What [pickle.dump(file_path_dict, fh)] serialises: every key with
    the object it refers to. *)
Definition store_snapshot (s : State) : list (string * FileAttributes) :=
  omap (fun '(k, l) => match heap s !! l with
                       | Some o => Some (k, o)
                       | None => None
                       end) (file_path_dict s).

(** Lines 218-225. *)
Definition save_snapshot (xml : string) : M unit :=
  try_except
    (let cache := snapshot_path xml in
     print ("Saving cached data to " +:+ cache) ;;
     fh <- open_for_writing E cache "wb" ;;
     snap <- gets store_snapshot ;;
     (if can_dump E cache then emit (Dump fh snap)
      else raise (Exn OSError ("cannot write " +:+ cache))) ;;
     emit (Close fh))
    print_exception.

(** [file_path_dict = pickle.load(cache_fh)]: the name is bound to a new
    dictionary of new objects. *)
Definition bind_loaded (loaded : list (string * FileAttributes)) : M unit :=
  set_file_path_dict [] ;;
  for_each loaded (fun '(k, o) =>
    l <- new_object o ;;
    d <- gets file_path_dict ;;
    set_file_path_dict (dict_set k l d)).

(** Lines 227-234. *)
Definition load_snapshot (cache : string) : M unit :=
  try_except
    (print ("Loading cached data from: " +:+ cache) ;;
     loaded <- lift (pickle_load E cache) ;;
     bind_loaded loaded)
    (fun detail =>
       print ("Exception while loading cached data from " +:+ cache
              +:+ " " +:+ exn_msg detail) ;;
       raise (Exn SystemExit "-1")).

(** Line 236. *)
Definition report_directory (xml : string) : string :=
  "./output_"
  +:+ PyStr.replace (PyStr.replace (PyStr.basename xml) "." "_") " " "_"
  +:+ "/".

Definition main (argv : list string) : M unit :=
  parsed <- read_args argv ;;
  match parsed with
  | None => raise (Exn NameError "name 'walk_dir' is not defined")
  | Some args =>
      let '(walk_dir, xml, cache) := selection args in
      print ("iTunes Library root directory: " +:+ walk_dir) ;;
      print ("XML Library file: " +:+ xml) ;;
      (if decide (cache = EmptyString)
       then
         calculate_all_checksums E walk_dir ;;
         read_itunes_library E xml ;;
         save_snapshot xml
       else load_snapshot cache) ;;
      generate_reports E (report_directory xml)
  end.

End Main.

(** ** A concrete environment, used to run the model *)

Module Demo.

Definition track (name location : string) : Element :=
  Elem "dict" None
       [Elem "key" (Some "Name") []; Elem "string" (Some name) [];
        Elem "key" (Some "Location") []; Elem "string" (Some location) []].

(** A [plist] with two tracks. *)
Definition library : Element :=
  Elem "plist" None
    [Elem "dict" None
       [Elem "key" (Some "Tracks") [];
        Elem "dict" None
          [Elem "key" (Some "101") [];
           track "One" "file:///m/a.mp3";
           Elem "key" (Some "102") [];
           track "Gone" "file:///m/gone.mp3"]]].

(** [cksum] gives text for [/m/a.mp3] and [/m/b.mp3] (same content), a
    [bytes] object for [/m/raw.mp3], and fails on every other path, among
    them [/m/locked.mp3]. *)
Definition env : Env :=
  {| check_output := fun argv =>
       match argv with
       | [_; "/m/a.mp3"] => Ret (PStr "4038471504 75 /m/a.mp3")
       | [_; "/m/b.mp3"] => Ret (PStr "4038471504 75 /m/b.mp3")
       | [_; "/m/raw.mp3"] => Ret (PBytes "17 3 /m/raw.mp3")
       | _ => Raise (Exn CalledProcessError
                          "Command returned non-zero exit status 1.")
       end;
     ntpath_split := fun p =>
       ("/m", PyStr.basename p);
     os_walk := fun _ => [("/m", ["a.mp3"; "locked.mp3"; "b.mp3"])];
     os_path_join := fun root file => root +:+ "/" +:+ file;
     ET_parse := fun f =>
       if decide (f = "/lib/Library copy.xml") then Ret library
       else Raise (Exn ParseError "no element found");
     unquote := fun s => s;
     parse_args := fun args =>
       match args with
       | [] => Ret (mkArgs EmptyString EmptyString EmptyString)
       | ["--xml"; x] => Ret (mkArgs EmptyString x EmptyString)
       | ["--xml"; x; "--dir"; d] => Ret (mkArgs d x EmptyString)
       | ["--cache"; c] => Ret (mkArgs EmptyString EmptyString c)
       | _ => Raise (Exn SystemExit "2")
       end;
     can_write := fun p => negb (PyStr.startswith p "/lib/");
     can_dump := fun _ => true;
     pickle_load := fun _ => Raise (Exn OSError "No such file or directory");
     scheduler := fun n => n |}.

Definition rec_a : FileAttributes :=
  {| file_path := Some "/m/a.mp3"; file_name := Some "a.mp3";
     checksum := Some "4038471504"; itunes_key := PStr "101";
     itunes_file_path := Some "/m/a.mp3" |}.
Definition rec_b : FileAttributes :=
  {| file_path := Some "/m/b.mp3"; file_name := Some "b.mp3";
     checksum := Some "4038471504"; itunes_key := PInt (-1);
     itunes_file_path := None |}.
Definition rec_b_linked : FileAttributes :=
  {| file_path := Some "/m/b.mp3"; file_name := Some "b.mp3";
     checksum := Some "4038471504"; itunes_key := PStr "102";
     itunes_file_path := Some "/m/b.mp3" |}.
Definition rec_gone : FileAttributes :=
  {| file_path := None; file_name := None; checksum := None;
     itunes_key := PStr "103"; itunes_file_path := Some "/m/gone.mp3" |}.

Definition store_of (objs : list (string * FileAttributes)) : State :=
  {| heap := map snd objs;
     file_path_dict := imap (fun i kv => (fst kv, i)) objs;
     checksums_dict := []; fs := []; opened := []; trace := [] |}.

(** [a.mp3] is in the catalogue, [b.mp3] has the same content and is
    not, [gone.mp3] is only in the catalogue. *)
Definition store_dup : State :=
  store_of [("/m/a.mp3", rec_a); ("/m/b.mp3", rec_b);
            ("/m/gone.mp3", rec_gone)].

(** Both copies are in the catalogue. *)
Definition store_two_linked : State :=
  store_of [("/m/a.mp3", rec_a); ("/m/b.mp3", rec_b_linked)].

(** A single file with a checksum, not in the catalogue. *)
Definition store_single : State := store_of [("/m/b.mp3", rec_b)].

Definition report_dir : string := "./output_Library_xml/".

End Demo.



(** ** Vocabulary of the statements *)

(** The rows written through handle [fd], in order. *)
Definition rows_on (fd : nat) (tr : list event) : list string :=
  omap (fun e => match e with
                 | Write fd' data => if decide (fd' = fd) then Some data else None
                 | _ => None
                 end) tr.

(** The lines printed on standard output, in order. *)
Definition printed (tr : list event) : list string :=
  omap (fun e => match e with Print line => Some line | _ => None end) tr.

(** Every entry of the store refers to a live object that satisfies [P]. *)
Definition store_all (P : FileAttributes -> Prop)
           (h : list FileAttributes) (d : list (string * loc)) : Prop :=
  Forall (fun kl => exists o, h !! snd kl = Some o /\ P o) d.

(** The invariant of the data model: the record was seen on disk or in the
    catalogue. *)
Definition has_path (o : FileAttributes) : Prop :=
  file_path o <> None \/ itunes_file_path o <> None.

(** What the two sources leave behind: a record without a catalogue path
    has a name and a path on disk, and a path on disk comes with a name. *)
Definition record_wf (o : FileAttributes) : Prop :=
  (itunes_file_path o = None -> is_Some (file_path o))
  /\ (is_Some (file_path o) -> is_Some (file_name o)).

(** [file_path_dict[key]], dereferenced. *)
Definition record_at (s : State) (key : string) : option FileAttributes :=
  dict_get key (file_path_dict s) ≫= fun l => heap s !! l.

(** The record [process_file] builds for a file and its checksum. *)
Definition scanner_record (E : Env) (file_name checksum : string)
  : FileAttributes :=
  {| file_path := Some file_name;
     file_name := Some (path_leaf E file_name);
     checksum := Some checksum;
     itunes_key := PInt (-1);
     itunes_file_path := None |}.

(** Outcome of [checksum_file], which does not depend on the state. *)
Definition checksum_result (E : Env) (filename : string) : outcome string :=
  fst (checksum_file E filename initial_state).

(** *** [create_dupes_map] as a fold *)

Definition add_member (c : string) (l : loc)
           (cd : list (string * list loc)) : list (string * list loc) :=
  let cd1 := if dict_mem c cd then cd else dict_set c [] cd in
  match dict_get c cd1 with
  | Some arr => dict_set c (arr ++ [l]) cd1
  | None => cd1
  end.

Definition dupes_map (h : list FileAttributes) (d : list (string * loc))
           (cd : list (string * list loc)) : list (string * list loc) :=
  fold_left (fun cd kl =>
               match h !! snd kl with
               | Some o => match checksum o with
                           | Some c => add_member c (snd kl) cd
                           | None => cd
                           end
               | None => cd
               end) d cd.

(** The records of the store with checksum [c], in store order. *)
Definition members (h : list FileAttributes) (d : list (string * loc))
           (c : string) : list loc :=
  filter (fun l => h !! l ≫= checksum = Some c) (map snd d).

(** The test of line 152 as it was meant ([len(file_data_array) > 1]):
    [l] is in a list of more than one record. *)
Definition dupe_member (cd : list (string * list loc)) (l : loc) : Prop :=
  Exists (fun ca => l ∈ snd ca /\ 1 < length (snd ca)) cd.

(** *** The first loop of [generate_reports] as a list of events *)

Definition classify_event (E : Env) (h : list FileAttributes)
           (fh1 fh2 fh3 : nat) (l : loc) : list event :=
  match h !! l with
  | None => []
  | Some o =>
      match itunes_file_path o, file_path o, file_name o with
      | None, Some p, Some n => [Write fh1 (row n p nl)]
      | Some ip, None, _ => [Write fh2 (row (path_leaf E ip) ip nl)]
      | Some ip, Some p, Some n => [Write fh3 (row n p nl)]
      | _, _, _ => []
      end
  end.

(** *** Duplicate groups *)

Definition linked (h : list FileAttributes) (l : loc) : Prop :=
  is_Some (h !! l ≫= itunes_file_path).

Definition name_of (h : list FileAttributes) (l : loc) : string :=
  default EmptyString (h !! l ≫= file_name).
Definition path_of (h : list FileAttributes) (l : loc) : string :=
  default EmptyString (h !! l ≫= file_path).
Definition catalog_path_of (h : list FileAttributes) (l : loc) : string :=
  default EmptyString (h !! l ≫= itunes_file_path).

(** The warning of line 158 for two catalogue-linked members that follow
    one another. *)
Definition pair_warning (h : list FileAttributes) (pc : loc * loc) : event :=
  Print ("Duplicate files found in the iTunes library: "
         +:+ name_of h (fst pc) +:+ " and " +:+ catalog_path_of h (snd pc)).

Definition no_copy_line (h : list FileAttributes) (l : loc) : event :=
  Print (path_of h l +:+ " is a duplicate, but does not have a copy in iTunes DB").

Definition dupe_row (h : list FileAttributes) (fh : nat) (l : loc) : event :=
  Write fh (row (name_of h l) (path_of h l) EmptyString).

(** The members of a list have what lines 158-164 concatenate: a name and
    a path on disk (records with a checksum come from the scanner). *)
Definition members_ok (h : list FileAttributes) (arr : list loc) : Prop :=
  Forall (fun l => exists ob, h !! l = Some ob /\ is_Some (file_name ob)
                              /\ is_Some (file_path ob)) arr.

(** What lines 153-164 print and write for one list: a warning for every
    two catalogue-linked members that follow one another; then, with no
    catalogue-linked member, a line per member, and otherwise a row for
    every member that is not the last catalogue-linked one. *)
Definition group_warnings (h : list FileAttributes) (arr : list loc)
  : list event :=
  let in_catalog := filter (linked h) arr in
  map (pair_warning h) (zip in_catalog (tail in_catalog)).

Definition group_reports (h : list FileAttributes) (fh : nat)
           (arr : list loc) : list event :=
  match last (filter (linked h) arr) with
  | None => map (no_copy_line h) arr
  | Some orig => map (dupe_row h fh) (filter (fun l => orig <> l) arr)
  end.

(** The four [open] calls of [generate_reports], in order. *)
Definition report_files (report_path : string) : list (string * string) :=
  [(report_path +:+ "not_in_itunes.csv", "w");
   (report_path +:+ "not_in_itunes.csv", "w");
   (report_path +:+ "file_in_itunes.csv", "w");
   (report_path +:+ "dupe_file_orig_in_itunes.csv", "w")].

(** The paths that exist once [generate_reports] has made its directory
    and opened its files. *)
Definition reports_fs (report_path : string) (paths : list string)
  : list string :=
  fs_add (report_path +:+ "dupe_file_orig_in_itunes.csv")
    (fs_add (report_path +:+ "file_in_itunes.csv")
       (fs_add (report_path +:+ "not_in_itunes.csv")
          (fs_add (report_path +:+ "not_in_itunes.csv")
             (if bool_decide (report_path ∈ paths) then paths
              else fs_add report_path paths)))).

(** What the first loop writes for the whole store, handles numbered from
    [n]. *)
Definition classification (E : Env) (h : list FileAttributes)
           (d : list (string * loc)) (n : nat) : list event :=
  flat_map (fun kl => classify_event E h n (S n) (S (S n)) (snd kl)) d.

(** How the second loop ends: untouched when there is no checksum at all,
    otherwise in the handler of line 166. *)
Definition dupes_outcome (cd : list (string * list loc)) : outcome unit :=
  match cd with
  | [] => Ret tt
  | _ :: _ =>
      Raise (Exn UnboundLocalError
                 "local variable 'details' referenced before assignment")
  end.

(** The file system lets [generate_reports] create its directory and its
    files. *)
Definition reports_writable (E : Env) (report_path : string)
           (paths : list string) : Prop :=
  (report_path ∈ paths \/ can_write E report_path = true)
  /\ Forall (fun pm => can_write E (fst pm) = true) (report_files report_path).

(** *** The pool *)

(** Actions a task is still to go through. *)
Definition task_weight (t : string * task_status) : nat :=
  match snd t with
  | Queued => 2
  | Running => 1
  | Finished _ => 0
  end.

Definition pool_weight (p : Pool) : nat :=
  3 * length (todo p) + sum_list_with task_weight (tasks p).

(** What the [AsyncResult] of [process_file(f)] holds in the end. *)
Definition work_outcome (E : Env) (f : string) : outcome unit :=
  match checksum_result E f with
  | Ret _ => Ret tt
  | Raise e => Raise e
  end.

(** The store has the scanner's record of [f], with checksum [c]. *)
Definition stored (E : Env) (f c : string) (s : State) : Prop :=
  record_at s f = Some (scanner_record E f c).

Definition valid_action (p : Pool) (a : action) : Prop :=
  match a with
  | Enqueue => todo p <> []
  | Start i => exists f, tasks p !! i = Some (f, Queued)
  | Finish i => exists f, tasks p !! i = Some (f, Running)
  end.

(** The banner [process_file] prints for [f]. *)
Definition banner (f : string) : event := Print ("<<<" +:+ f +:+ ">>>").

(** What holds of the pool and the state at every moment of a scan of
    [files] started in state [s0]. *)
Definition scan_inv (E : Env) (files : list string) (s0 : State)
           (ps : Pool * State) : Prop :=
  let p := fst ps in
  let s := snd ps in
  map fst (tasks p) ++ todo p = files
  /\ (forall i f r,
         tasks p !! i = Some (f, Finished r) ->
         r = work_outcome E f
         /\ forall c, checksum_result E f = Ret c -> stored E f c s)
  /\ (forall k,
         (forall c, checksum_result E k <> Ret c) ->
         dict_get k (file_path_dict s) = dict_get k (file_path_dict s0))
  /\ (exists tr,
         trace s = trace s0 ++ tr
         /\ Forall (fun ev => exists g, g ∈ files /\ ev = banner g) tr)
  /\ checksums_dict s = checksums_dict s0
  /\ fs s = fs s0
  /\ opened s = opened s0.

(** Every record of the store of [s] satisfies [P]. *)
Definition store_inv (P : FileAttributes -> Prop) (s : State) : Prop :=
  store_all P (heap s) (file_path_dict s).

(** [m] keeps [store_inv P], however it ends. *)
Definition preserves {A} (P : FileAttributes -> Prop) (m : M A) : Prop :=
  forall s, store_inv P s -> store_inv P (snd (m s)).



(** Two calls in one process. *)
Definition twice {A} (m : M A) : State -> (outcome A * State) * (outcome A * State) :=
  fun s => let r1 := m s in (r1, m (snd r1)).

(** ** Further vocabulary *)

(** [m] leaves the objects and [file_path_dict] as they are, however it
    ends. *)
Definition keeps_store {A} (m : M A) : Prop :=
  forall s, heap (snd (m s)) = heap s
            /\ file_path_dict (snd (m s)) = file_path_dict s.

(** The record has a checksum. *)
Definition has_checksum (h : list FileAttributes) (kl : string * loc) : Prop :=
  is_Some (h !! snd kl ≫= checksum).

(** The dictionary [bind_loaded] builds when the first new object gets
    identity [n]: the keys in order, bound to consecutive identities. *)
Fixpoint bound_from (n : nat) (loaded : list (string * FileAttributes))
  : list (string * loc) :=
  match loaded with
  | [] => []
  | (k, _) :: rest => (k, n) :: bound_from (S n) rest
  end.

(** The character does not occur in the string. *)
Definition lacks (c : ascii) (s : string) : Prop :=
  forall i, String.get i s <> Some c.

(** The value of [cur_key] after the elements [cs] have gone by, none of
    them a [dict]: the text of the last [key] among them, if any. *)
Definition last_key (cur_key : pyval) (cs : list Element) : pyval :=
  fold_left (fun k c => if bool_decide (tag c = "key")
                        then text_value (text c) else k) cs cur_key.

(** A track as iTunes exports it: a [dict] whose children are leaves, none
    of them a [dict]. *)
Definition flat_track (t : Element) : Prop :=
  tag t = "dict"
  /\ Forall (fun c => children c = [] /\ tag c <> "dict") (children t).

(** What a scan of [files] started in [s0] does to the store, at every
    moment: objects are only added, the keys outside [files] are not
    touched, and nothing changes at all while no checksum can be
    computed. *)
Definition scan_store_inv (E : Env) (files : list string) (s0 : State)
           (ps : Pool * State) : Prop :=
  let s := snd ps in
  (exists ext, heap s = heap s0 ++ ext)
  /\ (forall k, k ∉ files ->
                dict_get k (file_path_dict s) = dict_get k (file_path_dict s0))
  /\ ((forall f c, f ∈ files -> checksum_result E f <> Ret c) ->
      heap s = heap s0 /\ file_path_dict s = file_path_dict s0).

(** The objects a scan of [files] started in [s0] has created, at every
    moment: each is the scanner's record of a file of the walk whose
    checksum was computed.  A failed computation creates nothing. *)
Definition scan_heap_inv (E : Env) (files : list string) (s0 : State)
           (ps : Pool * State) : Prop :=
  exists ext,
    heap (snd ps) = heap s0 ++ ext
    /\ Forall (fun ob => exists g c,
                   g ∈ files /\ checksum_result E g = Ret c
                   /\ ob = scanner_record E g c) ext.

(** The same environment under another thread scheduler. *)
Definition with_scheduler (E : Env) (sch : nat -> nat) : Env :=
  {| check_output := check_output E;
     ntpath_split := ntpath_split E;
     os_walk := os_walk E;
     os_path_join := os_path_join E;
     ET_parse := ET_parse E;
     unquote := unquote E;
     parse_args := parse_args E;
     can_write := can_write E;
     can_dump := can_dump E;
     pickle_load := pickle_load E;
     scheduler := sch |}.

(** The class of a record in the first loop of [generate_reports]:
    0 not in the catalogue, 1 in the catalogue only, 2 in both. *)
Definition record_class (ob : FileAttributes) : nat :=
  match itunes_file_path ob, file_path ob with
  | None, _ => 0
  | Some _, None => 1
  | Some _, Some _ => 2
  end.

(** Stores and documents used to run the model. *)
Module Sample.

(** A record as an older snapshot may hold it: on disk, not in the
    catalogue, without a name. *)
Definition rec_nameless : FileAttributes :=
  {| file_path := Some "/m/x.mp3"; file_name := None; checksum := None;
     itunes_key := PInt (-1); itunes_file_path := None |}.

(** Only catalogue entries: no record has a checksum. *)
Definition store_catalog_only : State :=
  Demo.store_of [("/m/gone.mp3", Demo.rec_gone)].

(** [gone.mp3], then a record without a name, then [a.mp3]. *)
Definition store_nameless : State :=
  Demo.store_of [("/m/gone.mp3", Demo.rec_gone); ("/m/x.mp3", rec_nameless);
                 ("/m/a.mp3", Demo.rec_a)].

(** A track element with a location and no name. *)
Definition track_unnamed : Element :=
  Elem "dict" None
       [Elem "key" (Some "Location") [];
        Elem "string" (Some "file:///m/a.mp3") []].

(** The environment of [Demo] with a walk that finds [raw.mp3] and
    [raw2.mp3], for which [cksum]'s output comes as [bytes]. *)
Definition env_raw : Env :=
  {| check_output := fun argv =>
       match argv with
       | [_; f] => Ret (PBytes ("17 3 " +:+ f))
       | _ => Raise (Exn CalledProcessError "usage")
       end;
     ntpath_split := ntpath_split Demo.env;
     os_walk := fun _ => [("/m", ["raw.mp3"; "raw2.mp3"])];
     os_path_join := os_path_join Demo.env;
     ET_parse := ET_parse Demo.env;
     unquote := unquote Demo.env;
     parse_args := parse_args Demo.env;
     can_write := can_write Demo.env;
     can_dump := can_dump Demo.env;
     pickle_load := pickle_load Demo.env;
     scheduler := fun n => 2 * n |}.

(** The environment of [Demo] with a snapshot [old.pkl] that holds
    [a.mp3] and [gone.mp3]. *)
Definition env_cached : Env :=
  {| check_output := check_output Demo.env;
     ntpath_split := ntpath_split Demo.env;
     os_walk := os_walk Demo.env;
     os_path_join := os_path_join Demo.env;
     ET_parse := ET_parse Demo.env;
     unquote := unquote Demo.env;
     parse_args := parse_args Demo.env;
     can_write := can_write Demo.env;
     can_dump := can_dump Demo.env;
     pickle_load := fun f =>
       if decide (f = "old.pkl")
       then Ret [("/m/a.mp3", Demo.rec_a); ("/m/gone.mp3", Demo.rec_gone)]
       else Raise (Exn OSError "No such file or directory");
     scheduler := scheduler Demo.env |}.

End Sample.

(** * Properties *)

(** ** The monad *)

Lemma bind_ret_run {A B} (m : M A) (f : A -> M B) (s s' : State) (a : A) :
  m s = (Ret a, s') -> bind m f s = f a s'.
Proof. intros H. unfold bind. now rewrite H. Qed.

Lemma bind_raise_run {A B} (m : M A) (f : A -> M B) (s s' : State) (e : exn) :
  m s = (Raise e, s') -> bind m f s = (Raise e, s').
Proof. intros H. unfold bind. now rewrite H. Qed.

Lemma for_each_app {A} (xs ys : list A) (body : A -> M unit) (s : State) :
  for_each (xs ++ ys) body s
  = (for_each xs body ;; for_each ys body) s.
Proof.
  revert s. induction xs as [|x xs IH]; intros s; simpl.
  - unfold bind, ret. reflexivity.
  - unfold bind in *. destruct (body x s) as [[[]|e] s1].
    + apply IH.
    + reflexivity.
Qed.

(** ** Dictionaries *)

Section DictFacts.
Context {K V : Type} `{EqDecision K}.
Implicit Types (d : list (K * V)) (k : K) (v : V).

Lemma dict_get_set_eq d k v : dict_get k (dict_set k v d) = Some v.
Proof.
  induction d as [|[k' v'] d IH]; simpl.
  - destruct (decide (k = k)); congruence.
  - destruct (decide (k = k')) as [->|Hne]; simpl.
    + destruct (decide (k' = k')); congruence.
    + destruct (decide (k = k')); [congruence | exact IH].
Qed.

Lemma dict_get_set_ne d k k' v :
  k' <> k -> dict_get k' (dict_set k v d) = dict_get k' d.
Proof.
  intros Hne. induction d as [|[k0 v0] d IH]; simpl.
  - destruct (decide (k' = k)); congruence.
  - destruct (decide (k = k0)) as [->|Hk]; simpl.
    + destruct (decide (k' = k0)); congruence.
    + destruct (decide (k' = k0)); [reflexivity | exact IH].
Qed.

Lemma dict_set_Forall (P : K * V -> Prop) d k v :
  Forall P d -> P (k, v) -> Forall P (dict_set k v d).
Proof.
  intros Hd Hkv. induction Hd as [|[k' v'] d Hx Hd IH]; simpl.
  - constructor; [exact Hkv | constructor].
  - destruct (decide (k = k')); constructor; auto.
Qed.

Lemma dict_set_elem d k v kv :
  kv ∈ dict_set k v d -> kv = (k, v) \/ kv ∈ d.
Proof.
  induction d as [|[k' v'] d IH]; simpl; intros Hin.
  - apply list_elem_of_singleton in Hin. now left.
  - destruct (decide (k = k')).
    + apply elem_of_cons in Hin as [->|Hin]; [now left|].
      right. now apply elem_of_cons; right.
    + apply elem_of_cons in Hin as [->|Hin].
      * right. apply elem_of_cons. now left.
      * destruct (IH Hin) as [->|Hd]; [now left|].
        right. apply elem_of_cons. now right.
Qed.

Lemma dict_get_elem d k v : dict_get k d = Some v -> (k, v) ∈ d.
Proof.
  induction d as [|[k' v'] d IH]; simpl; [discriminate|].
  destruct (decide (k = k')) as [->|Hne]; intros Hg.
  - inversion Hg; subst. apply elem_of_cons. now left.
  - apply elem_of_cons. right. auto.
Qed.

Lemma dict_mem_get d k : dict_mem k d = true <-> is_Some (dict_get k d).
Proof.
  unfold dict_mem. destruct (dict_get k d); split; intros Hx;
    try reflexivity; try discriminate; eauto.
  destruct Hx; discriminate.
Qed.

End DictFacts.

(** ** Command-line arguments *)

Lemma good_args_filter (args : list string) :
  good_args args = filter (fun a => commented_out a = false) args.
Proof.
  induction args as [|a args IH]; [reflexivity|].
  simpl. unfold commented_out, filter at 1. simpl. fold (filter (fun a => (PyStr.startswith a "#" || PyStr.startswith a "--#" || PyStr.startswith a "-#") = false) args).
  rewrite IH. unfold commented_out.
  destruct (PyStr.startswith a "#"), (PyStr.startswith a "--#"),
    (PyStr.startswith a "-#"); simpl; reflexivity.
Qed.

Lemma good_args_drop (pre post : list string) (arg : string) :
  commented_out arg = true ->
  good_args (pre ++ arg :: post) = good_args (pre ++ post).
Proof.
  intros Hc. rewrite !good_args_filter, !filter_app, filter_cons.
  destruct (decide (commented_out arg = false)) as [Hf|_]; [congruence|].
  reflexivity.
Qed.

(** C10.  An argument that starts with [#], [--#] or [-#] is removed before
    [parse_args] sees the list: the filtered list, the parsed namespace and
    the whole run are those of the command line without that argument, and
    no such argument is left in what is parsed. *)
Theorem commented_arguments_ignored
        (E : Env) (prog arg : string) (pre post : list string) :
  PyStr.startswith arg "#" = true \/ PyStr.startswith arg "--#" = true
  \/ PyStr.startswith arg "-#" = true ->
  good_args (pre ++ arg :: post) = good_args (pre ++ post)
  /\ Forall (fun a => PyStr.startswith a "#" = false
                      /\ PyStr.startswith a "--#" = false
                      /\ PyStr.startswith a "-#" = false)
            (good_args (pre ++ arg :: post))
  /\ read_args E (prog :: pre ++ arg :: post) = read_args E (prog :: pre ++ post)
  /\ main E (prog :: pre ++ arg :: post) = main E (prog :: pre ++ post).
Proof.
  intros Harg.
  assert (Hc : commented_out arg = true).
  { unfold commented_out. destruct Harg as [H|[H|H]]; rewrite H;
      rewrite ?orb_true_r; reflexivity. }
  assert (Hdrop := good_args_drop pre post arg Hc).
  assert (Hread : read_args E (prog :: pre ++ arg :: post)
                  = read_args E (prog :: pre ++ post)).
  { unfold read_args. simpl. now rewrite Hdrop. }
  repeat split.
  - exact Hdrop.
  - rewrite good_args_filter. apply Forall_forall. intros a Ha.
    apply list_elem_of_filter in Ha as [Ha _]. unfold commented_out in Ha.
    apply orb_false_elim in Ha as [Ha H3].
    apply orb_false_elim in Ha as [H1 H2]. auto.
  - exact Hread.
  - unfold main. now rewrite Hread.
Qed.

Lemma commented_arguments_ignored_witness :
  (PyStr.startswith "#--cache" "#" = true
   \/ PyStr.startswith "#--cache" "--#" = true
   \/ PyStr.startswith "#--cache" "-#" = true)
  /\ main Demo.env ("dupe_checker.py"
                    :: ["--xml"; "/lib/Library copy.xml"] ++ "#--cache" :: ["old.pkl"])
     = main Demo.env ("dupe_checker.py"
                      :: ["--xml"; "/lib/Library copy.xml"] ++ ["old.pkl"]).
Proof.
  split.
  - left. reflexivity.
  - apply (commented_arguments_ignored Demo.env "dupe_checker.py" "#--cache"
             ["--xml"; "/lib/Library copy.xml"] ["old.pkl"]).
    left. reflexivity.
Defined.

(** ** [create_dupes_map] *)

Lemma add_member_get_eq (c : string) (l : loc) (cd : list (string * list loc)) :
  dict_get c (add_member c l cd) = Some (default [] (dict_get c cd) ++ [l]).
Proof.
  unfold add_member, dict_mem.
  destruct (dict_get c cd) as [arr|] eqn:Hg.
  - rewrite Hg. now rewrite dict_get_set_eq.
  - rewrite dict_get_set_eq. now rewrite dict_get_set_eq.
Qed.

Lemma add_member_get_ne (c c' : string) (l : loc) (cd : list (string * list loc)) :
  c' <> c -> dict_get c' (add_member c l cd) = dict_get c' cd.
Proof.
  intros Hne. unfold add_member, dict_mem.
  destruct (dict_get c cd) as [arr|] eqn:Hg.
  - rewrite Hg. now rewrite dict_get_set_ne.
  - rewrite dict_get_set_eq. now rewrite !dict_get_set_ne.
Qed.

Lemma create_dupes_entry_run h d cd f o t (l : loc) (ob : FileAttributes) :
  h !! l = Some ob ->
  create_dupes_entry l (mkState h d cd f o t)
  = (Ret tt,
     mkState h d (match checksum ob with
                  | Some c => add_member c l cd
                  | None => cd
                  end) f o t).
Proof.
  intros Hl. unfold create_dupes_entry, bind, deref. simpl. rewrite Hl.
  destruct (checksum ob) as [c|]; [|reflexivity].
  unfold add_member, gets, set_checksums_dict, ret. simpl.
  destruct (dict_mem c cd) eqn:Hm; simpl.
  - apply dict_mem_get in Hm as [arr Harr]. now rewrite Harr.
  - now rewrite dict_get_set_eq.
Qed.

Lemma create_dupes_loop_run h d0 f o t (d : list (string * loc)) :
  forall cd,
    store_all (fun _ => True) h d ->
    for_each d (fun '(_, file_data) => create_dupes_entry file_data)
             (mkState h d0 cd f o t)
    = (Ret tt, mkState h d0 (dupes_map h d cd) f o t).
Proof.
  induction d as [|[k l] d IH]; intros cd Hall; simpl.
  - reflexivity.
  - apply Forall_cons in Hall as [(ob & Hl & _) Hall]. simpl in Hl.
    erewrite bind_ret_run by (apply create_dupes_entry_run; exact Hl).
    rewrite IH by exact Hall. unfold dupes_map. simpl. rewrite Hl.
    reflexivity.
Qed.

Lemma create_dupes_map_run h d cd f o t :
  store_all (fun _ => True) h d ->
  create_dupes_map (mkState h d cd f o t)
  = (Ret tt, mkState h d (dupes_map h d cd) f o t).
Proof.
  intros Hall. unfold create_dupes_map, try_except.
  erewrite bind_ret_run by reflexivity.
  now rewrite create_dupes_loop_run.
Qed.

(** What [create_dupes_map] leaves under a checksum: what was there
    before, followed by the records of the store with that checksum. *)
Lemma dupes_map_get h (d : list (string * loc)) (c : string) :
  forall cd,
    dict_get c (dupes_map h d cd)
    = match dict_get c cd, members h d c with
      | None, [] => None
      | before, found => Some (default [] before ++ found)
      end.
Proof.
  unfold dupes_map, members.
  induction d as [|[k l] d IH]; intros cd; simpl.
  - destruct (dict_get c cd); simpl; [now rewrite app_nil_r | reflexivity].
  - rewrite IH. rewrite filter_cons. simpl.
    destruct (h !! l) as [ob|] eqn:Hl; simpl.
    + destruct (checksum ob) as [c'|] eqn:Hc; simpl.
      * destruct (decide (Some c' = Some c)) as [Heq|Hne].
        -- inversion Heq; subst c'. rewrite add_member_get_eq.
           destruct (dict_get c cd); simpl; rewrite <- ?app_assoc; simpl;
             destruct (filter _ (map snd d)); reflexivity.
        -- rewrite add_member_get_ne by congruence. reflexivity.
      * destruct (decide (None = Some c)); [discriminate | reflexivity].
    + destruct (decide (None = Some c)); [discriminate | reflexivity].
Qed.

(** ** The classification loop *)

Lemma classify_run (E : Env) h d cd f o t (fh1 fh2 fh3 : nat) (l : loc)
      (ob : FileAttributes) :
  h !! l = Some ob -> record_wf ob ->
  classify E fh1 fh2 fh3 l (mkState h d cd f o t)
  = (Ret tt, mkState h d cd f o (t ++ classify_event E h fh1 fh2 fh3 l)).
Proof.
  intros Hl [Hwf1 Hwf2]. unfold classify, classify_event, bind, deref.
  simpl. rewrite Hl.
  destruct (itunes_file_path ob) as [ip|] eqn:Hip.
  - destruct (file_path ob) as [p|] eqn:Hp; [|reflexivity].
    destruct Hwf2 as [n Hn]; [eauto|]. rewrite Hn. reflexivity.
  - destruct Hwf1 as [p Hp]; [reflexivity|]. rewrite Hp in *.
    destruct Hwf2 as [n Hn]; [eauto|]. rewrite Hn. reflexivity.
Qed.

Lemma classify_loop_run (E : Env) h d0 cd f o (n : nat)
      (d : list (string * loc)) :
  forall t,
    store_all record_wf h d ->
    for_each d (fun '(_, file_data) =>
                  classify E n (S n) (S (S n)) file_data)
             (mkState h d0 cd f o t)
    = (Ret tt, mkState h d0 cd f o (t ++ classification E h d n)).
Proof.
  unfold classification.
  induction d as [|[k l] d IH]; intros t Hall; simpl.
  - now rewrite app_nil_r.
  - apply Forall_cons in Hall as [(ob & Hl & Hwf) Hall]. simpl in Hl.
    erewrite bind_ret_run by (eapply classify_run; eauto).
    rewrite IH by exact Hall. now rewrite <- app_assoc.
Qed.

(** ** The duplicates loop as written *)

Lemma dupes_pass_run h d cd f o t (fh : nat) :
  dupes_pass fh (mkState h d cd f o t)
  = (match cd with
     | [] => Ret tt
     | _ :: _ => Raise (Exn AttributeError "'list' object has no attribute 'len'")
     end, mkState h d cd f o t).
Proof.
  unfold dupes_pass. erewrite bind_ret_run by reflexivity. simpl.
  destruct cd as [|[c arr] cd]; reflexivity.
Qed.

Lemma open_for_writing_run (E : Env) h d cd f o t (path mode : string) :
  can_write E path = true ->
  open_for_writing E path mode (mkState h d cd f o t)
  = (Ret (length o), mkState h d cd (fs_add path f) (o ++ [(path, mode)]) t).
Proof. intros Hw. unfold open_for_writing. rewrite Hw. reflexivity. Qed.

(** The whole of [generate_reports] on a store whose records are those the
    two sources produce. *)
Lemma generate_reports_run (E : Env) (rp : string) h d cd f o t :
  reports_writable E rp f ->
  store_all record_wf h d ->
  generate_reports E rp (mkState h d cd f o t)
  = (dupes_outcome (dupes_map h d cd),
     mkState h d (dupes_map h d cd) (reports_fs rp f) (o ++ report_files rp)
             (t ++ (if bool_decide (rp ∈ f) then [] else [Mkdir rp])
                ++ classification E h d (length o))).
Proof.
  intros [Hdir Hfiles] Hwf.
  assert (Htrue : store_all (fun _ => True) h d).
  { eapply Forall_impl; [exact Hwf|]. intros kl (ob & Hl & _). eauto. }
  unfold report_files in Hfiles.
  apply Forall_cons in Hfiles as [H1 Hfiles].
  apply Forall_cons in Hfiles as [_ Hfiles].
  apply Forall_cons in Hfiles as [H3 Hfiles].
  apply Forall_cons in Hfiles as [H4 _]. simpl in H1, H3, H4.
  unfold generate_reports.
  erewrite bind_ret_run by reflexivity. simpl.
  set (f0 := if bool_decide (rp ∈ f) then f else fs_add rp f).
  set (t0 := t ++ (if bool_decide (rp ∈ f) then [] else [Mkdir rp])).
  assert (Hmk : (if bool_decide (rp ∈ f) then ret tt else os_mkdir E rp)
                  (mkState h d cd f o t)
                = (Ret tt, mkState h d cd f0 o t0)).
  { subst f0 t0. destruct (bool_decide (rp ∈ f)) eqn:Hex.
    - now rewrite app_nil_r.
    - unfold os_mkdir. erewrite bind_ret_run by reflexivity. simpl.
      rewrite Hex. destruct Hdir as [Hin|Hcw].
      + apply bool_decide_eq_false in Hex. contradiction.
      + rewrite Hcw. reflexivity. }
  erewrite bind_ret_run by exact Hmk.
  erewrite bind_ret_run by (apply create_dupes_map_run; exact Htrue).
  erewrite bind_ret_run by (apply open_for_writing_run; exact H1).
  erewrite bind_ret_run by (apply open_for_writing_run; exact H1).
  erewrite bind_ret_run by (apply open_for_writing_run; exact H3).
  erewrite bind_ret_run by (apply open_for_writing_run; exact H4).
  erewrite bind_ret_run.
  2:{ unfold try_except. erewrite bind_ret_run by reflexivity. simpl.
      rewrite !length_app. simpl.
      replace (length o + 1 + 1) with (S (S (length o))) by lia.
      replace (length o + 1) with (S (length o)) by lia.
      rewrite classify_loop_run by exact Hwf. reflexivity. }
  unfold try_except_all. rewrite dupes_pass_run.
  unfold report_files, dupes_outcome, reports_fs. subst t0 f0.
  rewrite <- !app_assoc. simpl.
  destruct (dupes_map h d cd); reflexivity.
Qed.

(** ** Rows and handles *)

Lemma rows_on_app (fd : nat) (a b : list event) :
  rows_on fd (a ++ b) = rows_on fd a ++ rows_on fd b.
Proof. unfold rows_on. apply omap_app. Qed.

(** Every record of a well-formed store is written exactly once, through
    the handle its two path fields select. *)
Lemma classify_event_cases (E : Env) h (fh1 fh2 fh3 : nat) (l : loc)
      (ob : FileAttributes) :
  h !! l = Some ob -> record_wf ob ->
  (itunes_file_path ob = None
   /\ exists n p, file_name ob = Some n /\ file_path ob = Some p
                  /\ classify_event E h fh1 fh2 fh3 l = [Write fh1 (row n p nl)])
  \/ (file_path ob = None
      /\ exists ip, itunes_file_path ob = Some ip
                    /\ classify_event E h fh1 fh2 fh3 l
                       = [Write fh2 (row (path_leaf E ip) ip nl)])
  \/ (exists ip n p, itunes_file_path ob = Some ip /\ file_name ob = Some n
                     /\ file_path ob = Some p
                     /\ classify_event E h fh1 fh2 fh3 l
                        = [Write fh3 (row n p nl)]).
Proof.
  intros Hl [Hwf1 Hwf2]. unfold classify_event. rewrite Hl.
  destruct (itunes_file_path ob) as [ip|] eqn:Hip.
  - destruct (file_path ob) as [p|] eqn:Hp.
    + destruct Hwf2 as [n Hn]; [eauto|]. rewrite Hn.
      right. right. exists ip, n, p. auto.
    + right. left. split; [reflexivity|]. exists ip. auto.
  - destruct Hwf1 as [p Hp]; [reflexivity|]. rewrite Hp in *.
    destruct Hwf2 as [n Hn]; [eauto|]. rewrite Hn.
    left. split; [reflexivity|]. exists n, p. auto.
Qed.

(** The rows of a handle do not depend on the numbers the handles got. *)
Lemma rows_on_classify_event (E : Env) h (n i : nat) (l : loc) :
  rows_on (n + i) (classify_event E h n (S n) (S (S n)) l)
  = rows_on i (classify_event E h 0 1 2 l).
Proof.
  unfold classify_event. destruct (h !! l) as [ob|]; [|reflexivity].
  destruct (itunes_file_path ob), (file_path ob), (file_name ob);
    simpl; try reflexivity;
    repeat match goal with
           | |- context [decide (?a = ?b)] => destruct (decide (a = b))
           end; try reflexivity; lia.
Qed.

Lemma rows_on_classification (E : Env) h (d : list (string * loc)) (n i : nat) :
  rows_on (n + i) (classification E h d n)
  = rows_on i (classification E h d 0).
Proof.
  unfold classification. induction d as [|kl d IH]; [reflexivity|].
  simpl. rewrite !rows_on_app, IH, rows_on_classify_event. reflexivity.
Qed.

(** The first loop never writes through the fourth handle. *)
Lemma rows_on_classification_fourth (E : Env) h (d : list (string * loc))
      (n i : nat) :
  3 <= i -> rows_on (n + i) (classification E h d n) = [].
Proof.
  intros Hi. rewrite rows_on_classification. unfold classification.
  induction d as [|kl d IH]; [reflexivity|].
  simpl. rewrite rows_on_app, IH, app_nil_r. unfold classify_event.
  destruct (h !! snd kl) as [ob|]; [|reflexivity].
  destruct (itunes_file_path ob), (file_path ob), (file_name ob);
    simpl; try reflexivity;
    repeat match goal with
           | |- context [decide (?a = ?b)] => destruct (decide (a = b))
           end; try reflexivity; lia.
Qed.

Lemma rows_on_mkdir (fd : nat) (b : bool) (p : string) :
  rows_on fd (if b then [] else [Mkdir p]) = [].
Proof. now destruct b. Qed.

(** ** The stores of the examples *)

Lemma demo_store_dup_wf :
  store_all record_wf (heap Demo.store_dup) (file_path_dict Demo.store_dup).
Proof.
  unfold store_all. repeat constructor; simpl;
    eexists; (split; [reflexivity|]); split; simpl; intros H;
    solve [eauto | discriminate | destruct H; discriminate].
Qed.

Lemma demo_store_single_wf :
  store_all record_wf (heap Demo.store_single)
            (file_path_dict Demo.store_single).
Proof.
  unfold store_all. repeat constructor; simpl;
    eexists; (split; [reflexivity|]); split; simpl; intros H;
    solve [eauto | discriminate | destruct H; discriminate].
Qed.

Lemma demo_reports_writable (paths : list string) :
  reports_writable Demo.env Demo.report_dir paths.
Proof.
  split; [right; reflexivity|]. repeat constructor.
Qed.

(** ** The report generator *)

(** C1.  The store holds [a.mp3] (in the catalogue), [b.mp3] (same
    checksum, not in the catalogue) and [gone.mp3] (catalogue only).  Each
    record is written once through the handle of its class, and
    [create_dupes_map] puts [a] and [b] in one list; but the duplicates loop
    stops at [file_data_array.len()], its handler reads the unbound
    [details], and the call ends in [UnboundLocalError] with nothing written
    through the fourth handle: [b], a member of a two-record list whose
    other member is the catalogue-linked one, is not in output 4. *)
Theorem duplicate_missing_from_output_4 :
  let run := generate_reports Demo.env Demo.report_dir Demo.store_dup in
  fst run = Raise (Exn UnboundLocalError
                       "local variable 'details' referenced before assignment")
  /\ checksums_dict (snd run) = [("4038471504", [0; 1])]
  /\ dupe_member (checksums_dict (snd run)) 1
  /\ linked (heap (snd run)) 0
  /\ ~ linked (heap (snd run)) 1
  /\ rows_on 3 (trace (snd run)) = []
  /\ rows_on 0 (trace (snd run)) = [row "b.mp3" "/m/b.mp3" nl]
  /\ rows_on 1 (trace (snd run)) = [row "gone.mp3" "/m/gone.mp3" nl]
  /\ rows_on 2 (trace (snd run)) = [row "a.mp3" "/m/a.mp3" nl].
Proof.
  cbv zeta.
  repeat split;
    try (vm_compute; reflexivity);
    apply (bool_decide_unpack _); vm_compute; exact I.
Qed.

(** C4.  The handle of the records without a catalogue path and the handle
    of the records without a path on disk are opened on the same file,
    [not_in_itunes.csv], both in mode [w]: the rows of the two classes go to
    one destination. *)
Theorem outputs_1_and_2_share_a_file
        (E : Env) (rp : string) h d cd f o t :
  reports_writable E rp f ->
  store_all record_wf h d ->
  let s' := snd (generate_reports E rp (mkState h d cd f o t)) in
  opened s' !! length o = Some (rp +:+ "not_in_itunes.csv", "w")
  /\ opened s' !! S (length o) = Some (rp +:+ "not_in_itunes.csv", "w")
  /\ (forall kl ob,
         kl ∈ d -> h !! snd kl = Some ob -> itunes_file_path ob = None ->
         exists data, Write (length o) data ∈ trace s')
  /\ (forall kl ob,
         kl ∈ d -> h !! snd kl = Some ob -> file_path ob = None ->
         exists data, Write (S (length o)) data ∈ trace s').
Proof.
  intros Hw Hwf s'. subst s'. rewrite generate_reports_run by assumption.
  simpl. unfold report_files.
  split; [|split; [|split]].
  - rewrite lookup_app_r by lia. now rewrite Nat.sub_diag.
  - rewrite lookup_app_r by lia.
    replace (S (length o) - length o) with 1 by lia. reflexivity.
  - intros kl ob Hin Hl Hnone.
    assert (Hwf' := proj1 (Forall_forall _ _) Hwf kl Hin).
    destruct Hwf' as (ob' & Hl' & Hrec). rewrite Hl in Hl'.
    inversion Hl'; subst ob'.
    destruct (classify_event_cases E h (length o) (S (length o))
                (S (S (length o))) (snd kl) ob Hl Hrec)
      as [(_ & n & p & _ & _ & Hev)|[(_ & ip & Hip & _)|(ip & n & p & Hip & _)]];
      try congruence.
    exists (row n p nl). rewrite !elem_of_app. right. right.
    unfold classification. apply list_elem_of_In, in_flat_map. exists kl.
    split; [apply list_elem_of_In; exact Hin|]. rewrite Hev. now left.
  - intros kl ob Hin Hl Hnone.
    assert (Hwf' := proj1 (Forall_forall _ _) Hwf kl Hin).
    destruct Hwf' as (ob' & Hl' & Hrec). rewrite Hl in Hl'.
    inversion Hl'; subst ob'.
    destruct (classify_event_cases E h (length o) (S (length o))
                (S (S (length o))) (snd kl) ob Hl Hrec)
      as [(_ & n & p & _ & Hp & _)|[(_ & ip & Hip & Hev)|(ip & n & p & _ & _ & Hp & _)]];
      try congruence.
    exists (row (path_leaf E ip) ip nl). rewrite !elem_of_app. right. right.
    unfold classification. apply list_elem_of_In, in_flat_map. exists kl.
    split; [apply list_elem_of_In; exact Hin|]. rewrite Hev. now left.
Qed.

Lemma outputs_1_and_2_share_a_file_witness :
  reports_writable Demo.env Demo.report_dir []
  /\ store_all record_wf (heap Demo.store_dup) (file_path_dict Demo.store_dup)
  /\ let s' := snd (generate_reports Demo.env Demo.report_dir Demo.store_dup) in
     opened s' !! 0 = Some ("./output_Library_xml/not_in_itunes.csv", "w")
     /\ opened s' !! 1 = Some ("./output_Library_xml/not_in_itunes.csv", "w").
Proof.
  split; [apply demo_reports_writable|].
  split; [apply demo_store_dup_wf|].
  pose proof (outputs_1_and_2_share_a_file Demo.env Demo.report_dir
                (heap Demo.store_dup) (file_path_dict Demo.store_dup)
                [] [] [] [] (demo_reports_writable [])
                demo_store_dup_wf) as H.
  cbv zeta in H. destruct H as (H0 & H1 & _).
  split; [exact H0 | exact H1].
Defined.

Lemma fs_add_elem (p q : string) (paths : list string) :
  p ∈ paths -> p ∈ fs_add q paths.
Proof.
  intros Hin. unfold fs_add. destruct (bool_decide (q ∈ paths)); [exact Hin|].
  apply elem_of_app. now left.
Qed.

Lemma reports_writable_again (E : Env) (rp : string) (paths : list string) :
  reports_writable E rp paths -> reports_writable E rp (reports_fs rp paths).
Proof.
  intros [[Hin|Hcw] Hfiles]; split; auto.
  left. unfold reports_fs. do 4 apply fs_add_elem.
  now rewrite (bool_decide_eq_true_2 _ Hin).
Qed.

(** ** Duplicate groups (lines 153-164) *)

Lemma name_of_some h (l : loc) (ob : FileAttributes) (n : string) :
  h !! l = Some ob -> file_name ob = Some n -> name_of h l = n.
Proof. intros Hl Hn. unfold name_of. rewrite Hl. simpl. now rewrite Hn. Qed.

Lemma path_of_some h (l : loc) (ob : FileAttributes) (p : string) :
  h !! l = Some ob -> file_path ob = Some p -> path_of h l = p.
Proof. intros Hl Hn. unfold path_of. rewrite Hl. simpl. now rewrite Hn. Qed.

Lemma catalog_path_of_some h (l : loc) (ob : FileAttributes) (p : string) :
  h !! l = Some ob -> itunes_file_path ob = Some p -> catalog_path_of h l = p.
Proof.
  intros Hl Hn. unfold catalog_path_of. rewrite Hl. simpl. now rewrite Hn.
Qed.

Lemma linked_iff h (l : loc) (ob : FileAttributes) :
  h !! l = Some ob -> (linked h l <-> is_Some (itunes_file_path ob)).
Proof. intros Hl. unfold linked. rewrite Hl. reflexivity. Qed.

(** The first inner loop, started with [file_in_itunes = prev]. *)
Lemma find_file_in_itunes_run h d cd f o (arr : list loc) :
  forall (prev : option loc) t,
    members_ok h arr ->
    members_ok h (option_list prev) ->
    let chain := option_list prev ++ filter (linked h) arr in
    find_file_in_itunes prev arr (mkState h d cd f o t)
    = (Ret (last chain),
       mkState h d cd f o
               (t ++ map (pair_warning h) (zip chain (tail chain)))).
Proof.
  induction arr as [|cur arr IH]; intros prev t Hok Hprev; simpl.
  - rewrite app_nil_r. destruct prev as [p|]; simpl;
      now rewrite ?app_nil_r.
  - apply Forall_cons in Hok as [(ob & Hl & Hname & Hpath) Hok].
    unfold bind at 1, deref. simpl. rewrite Hl.
    rewrite filter_cons.
    destruct (decide (linked h cur)) as [Hlk|Hnl].
    + apply (linked_iff h cur ob Hl) in Hlk as [ip Hip]. rewrite Hip.
      assert (Hcur : members_ok h (option_list (Some cur))).
      { constructor; [eauto|constructor]. }
      destruct prev as [p|]; simpl.
      * apply Forall_cons in Hprev as [(po & Hp & [n Hn] & _) _].
        unfold bind at 1. unfold bind at 1, deref. simpl. rewrite Hp.
        unfold must_str. rewrite Hn. simpl.
        rewrite (IH (Some cur)) by assumption. simpl.
        rewrite <- app_assoc. simpl. unfold pair_warning at 2. simpl.
        rewrite (name_of_some h p po n Hp Hn).
        rewrite (catalog_path_of_some h cur ob ip Hl Hip).
        destruct (filter (linked h) arr); reflexivity.
      * unfold bind at 1. simpl.
        rewrite (IH (Some cur)) by assumption. reflexivity.
    + assert (Hnone : itunes_file_path ob = None).
      { destruct (itunes_file_path ob) as [ip|] eqn:Hip; [|reflexivity].
        exfalso. apply Hnl. apply (linked_iff h cur ob Hl). eauto. }
      rewrite Hnone. now rewrite IH.
Qed.

Lemma report_members_run h d cd f o (fh : nat) (orig : option loc)
      (arr : list loc) :
  forall t,
    members_ok h arr ->
    for_each arr (report_member fh orig) (mkState h d cd f o t)
    = (Ret tt,
       mkState h d cd f o
               (t ++ match orig with
                     | None => map (no_copy_line h) arr
                     | Some b => map (dupe_row h fh)
                                     (filter (fun l => b <> l) arr)
                     end)).
Proof.
  induction arr as [|cur arr IH]; intros t Hok; simpl.
  - destruct orig; now rewrite app_nil_r.
  - apply Forall_cons in Hok as [(ob & Hl & [n Hn] & [p Hp]) Hok].
    unfold bind at 1. unfold report_member at 1.
    destruct orig as [b|].
    + rewrite filter_cons. destruct (decide (b = cur)) as [->|Hne].
      * destruct (decide (cur <> cur)) as [Hx|_]; [congruence|].
        simpl. now rewrite IH.
      * destruct (decide (b <> cur)) as [_|Hx]; [|contradiction].
        unfold bind, deref, must_str. simpl. rewrite Hl, Hn, Hp. simpl.
        unfold bind in IH. rewrite IH by assumption.
        rewrite <- app_assoc. simpl. unfold dupe_row at 2.
        rewrite (name_of_some h cur ob n Hl Hn).
        rewrite (path_of_some h cur ob p Hl Hp). reflexivity.
    + unfold bind, deref, must_str. simpl. rewrite Hl, Hp. simpl.
      unfold bind in IH. rewrite IH by assumption.
      rewrite <- app_assoc. simpl. unfold no_copy_line at 2.
      rewrite (path_of_some h cur ob p Hl Hp). reflexivity.
Qed.

Lemma dupe_group_run h d cd f o t (fh : nat) (arr : list loc) :
  members_ok h arr ->
  dupe_group fh arr (mkState h d cd f o t)
  = (Ret tt,
     mkState h d cd f o
             (t ++ group_warnings h arr ++ group_reports h fh arr)).
Proof.
  intros Hok. unfold dupe_group.
  erewrite bind_ret_run.
  2:{ apply (find_file_in_itunes_run h d cd f o arr None t Hok).
      constructor. }
  simpl. rewrite report_members_run by assumption.
  unfold group_warnings, group_reports. now rewrite <- app_assoc.
Qed.

Lemma demo_two_linked_members_ok :
  members_ok (heap Demo.store_two_linked) [0; 1].
Proof.
  unfold members_ok. repeat constructor; simpl;
    eexists; (split; [reflexivity|]); split; simpl; eauto.
Qed.

(** C2, as the code has it.  For one list of records (lines 153-164): with
    no catalogue-linked member every member gets the line "is a duplicate,
    but does not have a copy in iTunes DB"; with exactly one, every other
    member is written to the duplicates output; with more than one, a
    warning is printed for every two catalogue-linked members that follow
    one another, the last catalogue-linked member is taken as the original,
    and every other member, catalogue-linked or not, is written to the
    duplicates output. *)
Theorem group_original_is_last_catalogue_member
        h d cd f o t (fh : nat) (arr : list loc) :
  members_ok h arr ->
  let in_catalog := filter (linked h) arr in
  exists delta,
    dupe_group fh arr (mkState h d cd f o t)
    = (Ret tt, mkState h d cd f o (t ++ delta))
    /\ (in_catalog = [] -> delta = map (no_copy_line h) arr)
    /\ (forall b, in_catalog = [b] ->
                  delta = map (dupe_row h fh) (filter (fun l => b <> l) arr))
    /\ (forall a rest b,
           in_catalog = a :: rest ++ [b] ->
           delta = map (pair_warning h) (zip in_catalog (tail in_catalog))
                       ++ map (dupe_row h fh) (filter (fun l => b <> l) arr)
           /\ (a <> b -> dupe_row h fh a ∈ delta)).
Proof.
  intros Hok in_catalog.
  exists (group_warnings h arr ++ group_reports h fh arr).
  split; [now apply dupe_group_run|].
  unfold group_warnings, group_reports. fold in_catalog.
  split; [|split].
  - intros ->. reflexivity.
  - intros b ->. reflexivity.
  - intros a rest b Heq.
    assert (Hlast : last in_catalog = Some b).
    { rewrite Heq. change (a :: rest ++ [b]) with ((a :: rest) ++ [b]).
      apply last_snoc. }
    rewrite Hlast. split; [reflexivity|].
    intros Hne. apply elem_of_app. right.
    apply list_elem_of_fmap. exists a. split; [reflexivity|].
    apply list_elem_of_filter. split; [congruence|].
    assert (Ha : a ∈ in_catalog) by (rewrite Heq; apply elem_of_cons; now left).
    subst in_catalog. now apply list_elem_of_filter in Ha as [_ Ha].
Qed.

Lemma group_original_is_last_catalogue_member_witness :
  members_ok (heap Demo.store_two_linked) [0; 1]
  /\ exists delta,
      dupe_group 3 [0; 1] Demo.store_two_linked
      = (Ret tt,
         mkState (heap Demo.store_two_linked)
                 (file_path_dict Demo.store_two_linked) [] [] []
                 ([] ++ delta)).
Proof.
  split; [apply demo_two_linked_members_ok|].
  destruct (group_original_is_last_catalogue_member
              (heap Demo.store_two_linked)
              (file_path_dict Demo.store_two_linked) [] [] [] [] 3 [0; 1]
              demo_two_linked_members_ok) as (delta & Hrun & _).
  exists delta. exact Hrun.
Defined.

(** C2 as stated fails: [a.mp3] and [b.mp3] have the same checksum and are
    both in the catalogue.  The group code warns once and then writes [a] to
    the duplicates output, [b] being taken as the original; and the call of
    [generate_reports] on this store prints no warning at all, because it
    stops at [file_data_array.len()]. *)
Lemma catalogue_copy_reported_as_duplicate :
  linked (heap Demo.store_two_linked) 0
  /\ linked (heap Demo.store_two_linked) 1
  /\ trace (snd (dupe_group 3 [0; 1] Demo.store_two_linked))
     = [Print "Duplicate files found in the iTunes library: a.mp3 and /m/b.mp3";
        Write 3 (row "a.mp3" "/m/a.mp3" EmptyString)]
  /\ let run := generate_reports Demo.env Demo.report_dir
                                 Demo.store_two_linked in
     checksums_dict (snd run) = [("4038471504", [0; 1])]
     /\ printed (trace (snd run)) = []
     /\ rows_on 3 (trace (snd run)) = []
     /\ exn_cls <$> (match fst run with Raise e => Some e | Ret _ => None end)
        = Some UnboundLocalError.
Proof.
  cbv zeta.
  repeat split;
    try (vm_compute; reflexivity);
    apply (bool_decide_unpack _); vm_compute; exact I.
Qed.

(** ** Two reports in one process *)

Lemma rows_on_group_warnings h (fd : nat) (arr : list loc) :
  rows_on fd (group_warnings h arr) = [].
Proof.
  unfold group_warnings.
  induction (zip (filter (linked h) arr) (tail (filter (linked h) arr)))
    as [|pc l IH]; [reflexivity|exact IH].
Qed.

(** On a list repeated twice the second inner loop writes what it writes
    on the list, twice. *)
Lemma rows_on_group_reports_double h (fh : nat) (arr : list loc) :
  rows_on fh (group_reports h fh (arr ++ arr))
  = rows_on fh (group_reports h fh arr) ++ rows_on fh (group_reports h fh arr).
Proof.
  unfold group_reports. rewrite filter_app, last_app.
  destruct (last (filter (linked h) arr)) as [orig|] eqn:Hl.
  - now rewrite filter_app, map_app, rows_on_app.
  - now rewrite map_app, rows_on_app.
Qed.

Lemma printed_app (a b : list event) :
  printed (a ++ b) = printed a ++ printed b.
Proof. unfold printed. apply omap_app. Qed.

Lemma length_zip_tail {A} (l : list A) :
  length (zip l (tail l)) = length l - 1.
Proof.
  destruct l as [|a l]; [reflexivity|]. simpl.
  revert a. induction l as [|b l IH]; intros a; [reflexivity|].
  simpl. rewrite IH. simpl. lia.
Qed.

Lemma printed_group_warnings h (arr : list loc) :
  length (printed (group_warnings h arr))
  = length (filter (linked h) arr) - 1.
Proof.
  unfold group_warnings. rewrite <- length_zip_tail.
  induction (zip (filter (linked h) arr) (tail (filter (linked h) arr)))
    as [|pc l IH]; [reflexivity|]. simpl. now rewrite IH.
Qed.

Lemma printed_group_reports h (fh : nat) (arr : list loc) :
  length (printed (group_reports h fh arr))
  = match filter (linked h) arr with
    | [] => length arr
    | _ :: _ => 0
    end.
Proof.
  unfold group_reports.
  destruct (filter (linked h) arr) as [|b ic] eqn:Hic.
  - simpl. induction arr as [|l arr IH] in |- *; [reflexivity|].
    simpl. f_equal. exact IH.
  - destruct (last (b :: ic)) as [orig|] eqn:Hl.
    + induction (filter (fun l => orig <> l) arr) as [|l ls IH];
        [reflexivity|exact IH].
    + apply last_None in Hl. discriminate.
Qed.

(** The group code on a list and on the list repeated twice: the rows of
    the second are the rows of the first, twice, and more lines are
    printed. *)
Lemma dupe_group_double h d cd f o t (fh : nat) (arr : list loc) :
  members_ok h arr ->
  exists delta1 delta2,
    dupe_group fh arr (mkState h d cd f o t)
    = (Ret tt, mkState h d cd f o (t ++ delta1))
    /\ dupe_group fh (arr ++ arr) (mkState h d cd f o t)
       = (Ret tt, mkState h d cd f o (t ++ delta2))
    /\ rows_on fh delta2 = rows_on fh delta1 ++ rows_on fh delta1
    /\ (arr <> [] -> length (printed delta1) < length (printed delta2)).
Proof.
  intros Hok.
  exists (group_warnings h arr ++ group_reports h fh arr).
  exists (group_warnings h (arr ++ arr) ++ group_reports h fh (arr ++ arr)).
  split; [now apply dupe_group_run|].
  split; [apply dupe_group_run; apply Forall_app; now split|].
  split.
  - rewrite !rows_on_app, !rows_on_group_warnings. simpl.
    apply rows_on_group_reports_double.
  - intros Hne. rewrite !printed_app, !length_app.
    rewrite !printed_group_warnings, !printed_group_reports.
    rewrite filter_app, !length_app.
    destruct (filter (linked h) arr) as [|b ic]; simpl.
    + destruct arr; [congruence|]. simpl. lia.
    + lia.
Qed.

(** C8, as the code has it.  Two calls of [generate_reports] in one process
    on the same store leave the store as it was and write, through each of
    the three handles of the first loop, the same rows in the same order:
    the rows of the store's records.  But [create_dupes_map] appends to the
    lists of the first call: a checksum that some record has is bound to
    the list of its records after the first call and to that list twice
    over after the second, so that after the second call every record with
    a checksum is in a list of more than one record.  On a list repeated
    twice the group code (lines 153-164) writes the rows it writes on the
    list itself twice over, and prints more lines. *)
Theorem second_report_same_rows_doubled_lists
        (E : Env) (rp : string) h d f o t :
  reports_writable E rp f ->
  store_all record_wf h d ->
  let runs := twice (generate_reports E rp) (mkState h d [] f o t) in
  let s1 := snd (fst runs) in
  let s2 := snd (snd runs) in
  heap s1 = h /\ file_path_dict s1 = d
  /\ heap s2 = h /\ file_path_dict s2 = d
  /\ (exists t1 t2,
         trace s1 = t ++ t1 /\ trace s2 = trace s1 ++ t2
         /\ forall i, i < 3 ->
              rows_on (length o + i) t1 = rows_on i (classification E h d 0)
              /\ rows_on (length o + 4 + i) t2
                 = rows_on i (classification E h d 0))
  /\ (forall c,
         match members h d c with
         | [] => dict_get c (checksums_dict s1) = None
                 /\ dict_get c (checksums_dict s2) = None
         | arr => dict_get c (checksums_dict s1) = Some arr
                  /\ dict_get c (checksums_dict s2) = Some (arr ++ arr)
         end)
  /\ (forall kl ob c,
         kl ∈ d -> h !! snd kl = Some ob -> checksum ob = Some c ->
         snd kl ∈ members h d c
         /\ dupe_member (checksums_dict s2) (snd kl))
  /\ (forall fh arr cd' f' o' t',
         members_ok h arr ->
         exists delta1 delta2,
           dupe_group fh arr (mkState h d cd' f' o' t')
           = (Ret tt, mkState h d cd' f' o' (t' ++ delta1))
           /\ dupe_group fh (arr ++ arr) (mkState h d cd' f' o' t')
              = (Ret tt, mkState h d cd' f' o' (t' ++ delta2))
           /\ rows_on fh delta2 = rows_on fh delta1 ++ rows_on fh delta1
           /\ (arr <> [] -> length (printed delta1) < length (printed delta2))).
Proof.
  intros Hw Hwf runs s1 s2. subst s1 s2 runs. unfold twice.
  rewrite generate_reports_run by assumption. simpl.
  rewrite generate_reports_run
    by (try apply reports_writable_again; assumption).
  simpl.
  assert (Hcd : forall c,
            match members h d c with
            | [] => dict_get c (dupes_map h d []) = None
                    /\ dict_get c (dupes_map h d (dupes_map h d [])) = None
            | arr => dict_get c (dupes_map h d []) = Some arr
                     /\ dict_get c (dupes_map h d (dupes_map h d []))
                        = Some (arr ++ arr)
            end).
  { intros c. rewrite !dupes_map_get. simpl.
    destruct (members h d c); split; reflexivity. }
  assert (Hmem : forall kl ob c,
            kl ∈ d -> h !! snd kl = Some ob -> checksum ob = Some c ->
            snd kl ∈ members h d c).
  { intros kl ob c Hin Hl Hc. unfold members.
    apply list_elem_of_filter. split.
    - rewrite Hl. simpl. exact Hc.
    - apply list_elem_of_In, in_map, list_elem_of_In. exact Hin. }
  repeat (split; [reflexivity|]). split; [|split; [exact Hcd|split]].
  - eexists. eexists. split; [reflexivity|]. split; [reflexivity|].
    intros i Hi. rewrite !rows_on_app, !rows_on_mkdir. simpl.
    rewrite length_app. simpl.
    rewrite rows_on_classification.
    rewrite (rows_on_classification E h d (length o + 4) i).
    split; reflexivity.
  - intros kl ob c Hin Hl Hc. pose proof (Hmem kl ob c Hin Hl Hc) as Hm.
    split; [exact Hm|].
    specialize (Hcd c). destruct (members h d c) as [|l ls] eqn:Hmc.
    { apply elem_of_nil in Hm. contradiction. }
    destruct Hcd as [_ Hget]. apply dict_get_elem in Hget.
    unfold dupe_member. apply Exists_exists.
    exists (c, (l :: ls) ++ l :: ls). split; [exact Hget|].
    cbn [snd]. split.
    + apply elem_of_app. now left.
    + rewrite length_app. simpl. lia.
  - intros fh arr cd' f' o' t' Hok. now apply dupe_group_double.
Qed.

Lemma second_report_same_rows_doubled_lists_witness :
  reports_writable Demo.env Demo.report_dir []
  /\ store_all record_wf (heap Demo.store_dup) (file_path_dict Demo.store_dup)
  /\ let runs := twice (generate_reports Demo.env Demo.report_dir)
                       Demo.store_dup in
     dict_get "4038471504" (checksums_dict (snd (fst runs))) = Some [0; 1]
     /\ dict_get "4038471504" (checksums_dict (snd (snd runs)))
        = Some ([0; 1] ++ [0; 1]).
Proof.
  split; [apply demo_reports_writable|].
  split; [apply demo_store_dup_wf|].
  pose proof (second_report_same_rows_doubled_lists Demo.env Demo.report_dir
                (heap Demo.store_dup) (file_path_dict Demo.store_dup)
                [] [] [] (demo_reports_writable [])
                demo_store_dup_wf) as H.
  cbv zeta in H. destruct H as (_ & _ & _ & _ & _ & H & _).
  exact (H "4038471504").
Defined.

(** C8 as stated fails: the store holds one file with a checksum.  After
    the first call its list has one element, so the record is in no list of
    more than one record; after the second call, on the same store, the list
    is [[0; 0]] and the record passes the test of a duplicate group. *)
Lemma second_report_changes_group_membership :
  let runs := twice (generate_reports Demo.env Demo.report_dir)
                    Demo.store_single in
  let s1 := snd (fst runs) in
  let s2 := snd (snd runs) in
  heap s2 = heap Demo.store_single
  /\ file_path_dict s2 = file_path_dict Demo.store_single
  /\ checksums_dict s1 = [("4038471504", [0])]
  /\ checksums_dict s2 = [("4038471504", [0; 0])]
  /\ ~ dupe_member (checksums_dict s1) 0
  /\ dupe_member (checksums_dict s2) 0.
Proof.
  cbv zeta.
  repeat split;
    try (vm_compute; reflexivity);
    apply (bool_decide_unpack _); vm_compute; exact I.
Qed.

(** ** The two writers of the store *)

Lemma checksum_file_run (E : Env) (filename : string) (s : State) :
  checksum_file E filename s = (checksum_result E filename, s).
Proof.
  unfold checksum_result, checksum_file, bind, lift, split_blank_first, ret,
    raise. simpl.
  destruct (check_output E ["cksum"; filename]) as [[z|str|b|]|e]; reflexivity.
Qed.

(** The object [check_output] returns decides: text is cut at the first
    blank, a [bytes] object makes [split(' ')] raise. *)
Lemma checksum_result_of_str (E : Env) (filename out : string) :
  check_output E ["cksum"; filename] = Ret (PStr out) ->
  checksum_result E filename = Ret (PyStr.split_blank_head out).
Proof.
  intros H. unfold checksum_result, checksum_file, bind, lift. simpl.
  now rewrite H.
Qed.

Lemma checksum_result_of_bytes (E : Env) (filename out : string) :
  check_output E ["cksum"; filename] = Ret (PBytes out) ->
  checksum_result E filename
  = Raise (Exn TypeError "a bytes-like object is required, not 'str'").
Proof.
  intros H. unfold checksum_result, checksum_file, bind, lift. simpl.
  now rewrite H.
Qed.

Lemma checksum_result_of_failure (E : Env) (filename : string) (e : exn) :
  check_output E ["cksum"; filename] = Raise e ->
  checksum_result E filename = Raise e.
Proof.
  intros H. unfold checksum_result, checksum_file, bind, lift. simpl.
  now rewrite H.
Qed.

Lemma process_file_work_run (E : Env) h d cd f o t (file_name : string) :
  process_file_work E file_name (mkState h d cd f o t)
  = match checksum_result E file_name with
    | Ret c =>
        (Ret tt,
         mkState (h ++ [scanner_record E file_name c])
                 (dict_set file_name (length h) d) cd f o t)
    | Raise e => (Raise e, mkState h d cd f o t)
    end.
Proof.
  unfold process_file_work, bind. rewrite checksum_file_run.
  destruct (checksum_result E file_name); reflexivity.
Qed.

Lemma process_file_run (E : Env) h d cd f o t (file_name : string) :
  process_file E file_name (mkState h d cd f o t)
  = process_file_work E file_name
      (mkState h d cd f o (t ++ [Print ("<<<" +:+ file_name +:+ ">>>")])).
Proof. reflexivity. Qed.

Lemma insert_last {A} (l : list A) (x y : A) :
  <[length l := x]> (l ++ [y]) = l ++ [x].
Proof.
  replace (length l) with (length l + 0) by lia. now rewrite insert_app_r.
Qed.

Lemma setattr_at_run h d cd f o t (key : string)
      (upd : FileAttributes -> FileAttributes) :
  setattr_at key upd (mkState h d cd f o t)
  = match dict_get key d with
    | Some l =>
        match h !! l with
        | Some ob => (Ret tt, mkState (<[l := upd ob]> h) d cd f o t)
        | None => (Raise (Exn NameError "dangling reference"),
                   mkState h d cd f o t)
        end
    | None => (Raise (Exn KeyError key), mkState h d cd f o t)
    end.
Proof.
  unfold setattr_at, bind, gets, deref, set_heap, raise. simpl.
  destruct (dict_get key d) as [l|]; [|reflexivity].
  destruct (h !! l) as [ob|] eqn:Hl; simpl; rewrite Hl; reflexivity.
Qed.

(** The statements under the lock in [read_itunes_library]: an existing
    record is updated in place, in its two catalogue fields; a missing one
    is created with these two fields set. *)
Lemma merge_entry_run h d cd f o t (p : string) (k : pyval) :
  merge_entry p k (mkState h d cd f o t)
  = match dict_get p d with
    | Some l =>
        match h !! l with
        | Some ob =>
            (Ret tt,
             mkState (<[l := set_itunes_key k
                               (set_itunes_file_path (Some p) ob)]> h)
                     d cd f o t)
        | None => (Raise (Exn NameError "dangling reference"),
                   mkState h d cd f o t)
        end
    | None =>
        (Ret tt,
         mkState (h ++ [set_itunes_key k
                          (set_itunes_file_path (Some p) FileAttributes_init)])
                 (dict_set p (length h) d) cd f o
                 (t ++ [Print ("WARNING: " +:+ p
                               +:+ " was in iTunes Library, but not in file system")]))
    end.
Proof.
  unfold merge_entry, dict_mem.
  unfold bind at 1. simpl.
  destruct (dict_get p d) as [l|] eqn:Hg.
  - unfold bind at 1. simpl. unfold bind. rewrite setattr_at_run, Hg.
    destruct (h !! l) as [ob|] eqn:Hl; [|reflexivity].
    rewrite setattr_at_run, Hg.
    rewrite list_lookup_insert_eq by (eapply lookup_lt_Some; eauto).
    now rewrite list_insert_insert_eq.
  - unfold bind at 1. simpl. unfold bind. simpl.
    rewrite setattr_at_run, dict_get_set_eq.
    rewrite list_lookup_middle by reflexivity.
    rewrite setattr_at_run, dict_get_set_eq.
    rewrite insert_last.
    rewrite list_lookup_middle by reflexivity.
    now rewrite insert_last.
Qed.

(** C6, as the code has it.  The catalogue merge on a key that has a record
    updates that object in place: [itunes_file_path] and [itunes_key] are
    set, [file_path], [file_name] and [checksum] keep their values, the
    dictionary and every other object are untouched.  The scanner's write
    is an assignment [file_path_dict[file_name] = new_file]: whatever the
    key held, it now refers to a new record whose [itunes_file_path] is
    [None] and whose [itunes_key] is [-1]. *)
Theorem merge_keeps_scanner_fields_scanner_replaces_record
        (E : Env) h d cd f o t (p : string) (k : pyval) (l : loc)
        (ob : FileAttributes) :
  dict_get p d = Some l ->
  h !! l = Some ob ->
  let s := mkState h d cd f o t in
  let s1 := snd (merge_entry p k s) in
  (fst (merge_entry p k s) = Ret tt
   /\ file_path_dict s1 = d
   /\ heap s1 !! l
      = Some {| file_path := file_path ob; file_name := file_name ob;
                checksum := checksum ob; itunes_key := k;
                itunes_file_path := Some p |}
   /\ (forall l', l' <> l -> heap s1 !! l' = h !! l'))
  /\ (forall c,
         checksum_result E p = Ret c ->
         record_at (snd (process_file E p s1)) p
         = Some {| file_path := Some p; file_name := Some (path_leaf E p);
                   checksum := Some c; itunes_key := PInt (-1);
                   itunes_file_path := None |}).
Proof.
  intros Hg Hl s s1. subst s s1. rewrite merge_entry_run, Hg, Hl. simpl.
  split.
  - split; [reflexivity|]. split; [reflexivity|]. split.
    + now rewrite list_lookup_insert_eq by (eapply lookup_lt_Some; eauto).
    + intros l' Hne. now rewrite list_lookup_insert_ne by congruence.
  - intros c Hc. rewrite process_file_run, process_file_work_run, Hc.
    unfold record_at. simpl. rewrite dict_get_set_eq. simpl.
    now rewrite list_lookup_middle by reflexivity.
Qed.

Lemma merge_keeps_scanner_fields_scanner_replaces_record_witness :
  dict_get "/m/b.mp3" (file_path_dict Demo.store_dup) = Some 1
  /\ heap Demo.store_dup !! 1 = Some Demo.rec_b
  /\ heap (snd (merge_entry "/m/b.mp3" (PStr "102") Demo.store_dup)) !! 1
     = Some Demo.rec_b_linked.
Proof.
  split; [reflexivity|]. split; [reflexivity|].
  pose proof (merge_keeps_scanner_fields_scanner_replaces_record
                Demo.env (heap Demo.store_dup) (file_path_dict Demo.store_dup)
                [] [] [] [] "/m/b.mp3" (PStr "102") 1 Demo.rec_b
                eq_refl eq_refl) as H.
  cbv zeta in H. destruct H as ((_ & _ & H & _) & _). exact H.
Defined.

(** C6 as stated fails when the catalogue's write comes first: the merge
    creates the record of [/m/a.mp3] with its catalogue path and key, and
    [process_file] on the same path then leaves a record in which both are
    back to their initial values. *)
Lemma scanner_write_unsets_catalogue_fields :
  let s1 := snd (merge_entry "/m/a.mp3" (PStr "101") initial_state) in
  let s2 := snd (process_file Demo.env "/m/a.mp3" s1) in
  (record_at s1 "/m/a.mp3" ≫= itunes_file_path) = Some "/m/a.mp3"
  /\ (itunes_key <$> record_at s1 "/m/a.mp3") = Some (PStr "101")
  /\ (file_path <$> record_at s2 "/m/a.mp3") = Some (Some "/m/a.mp3")
  /\ (itunes_file_path <$> record_at s2 "/m/a.mp3") = Some None
  /\ (itunes_key <$> record_at s2 "/m/a.mp3") = Some (PInt (-1)).
Proof. cbv zeta. repeat split; vm_compute; reflexivity. Qed.

(** ** The thread pool *)

Lemma find_index_spec (P : string * task_status -> bool)
      (ts : list (string * task_status)) :
  forall i j, find_index P i ts = Some j ->
              i <= j /\ exists t, ts !! (j - i) = Some t /\ P t = true.
Proof.
  induction ts as [|t ts IH]; intros i j Hf; simpl in Hf; [discriminate|].
  destruct (P t) eqn:HP.
  - inversion Hf; subst j. split; [lia|]. exists t.
    rewrite Nat.sub_diag. auto.
  - destruct (IH _ _ Hf) as (Hle & t' & Hl & HP'). split; [lia|].
    exists t'. replace (j - i) with (S (j - S i)) by lia. auto.
Qed.

Lemma find_index_none (P : string * task_status -> bool)
      (ts : list (string * task_status)) :
  forall i, find_index P i ts = None -> Forall (fun t => P t = false) ts.
Proof.
  induction ts as [|t ts IH]; intros i Hf; simpl in Hf; [constructor|].
  destruct (P t) eqn:HP; [discriminate|]. constructor; eauto.
Qed.

Lemma indices_spec (P : string * task_status -> bool)
      (ts : list (string * task_status)) :
  forall i j, j ∈ indices P i ts ->
              i <= j /\ exists t, ts !! (j - i) = Some t /\ P t = true.
Proof.
  induction ts as [|t ts IH]; intros i j Hin; simpl in Hin.
  - inversion Hin.
  - apply elem_of_app in Hin as [Hin|Hin].
    + destruct (P t) eqn:HP; [|inversion Hin].
      apply list_elem_of_singleton in Hin. subst j. split; [lia|].
      exists t. rewrite Nat.sub_diag. auto.
    + destruct (IH _ _ Hin) as (Hle & t' & Hl & HP'). split; [lia|].
      exists t'. replace (j - i) with (S (j - S i)) by lia. auto.
Qed.

Lemma indices_nil (P : string * task_status -> bool)
      (ts : list (string * task_status)) :
  forall i, indices P i ts = [] -> Forall (fun t => P t = false) ts.
Proof.
  induction ts as [|t ts IH]; intros i Hnil; simpl in Hnil; [constructor|].
  destruct (P t) eqn:HP; [discriminate|]. constructor; eauto.
Qed.

Lemma is_queued_status (t : string * task_status) :
  is_queued t = true -> t = (fst t, Queued).
Proof.
  destruct t as [f []]; unfold is_queued; simpl; intros H;
    first [reflexivity | discriminate].
Qed.

Lemma is_running_status (t : string * task_status) :
  is_running t = true -> t = (fst t, Running).
Proof.
  destruct t as [f []]; unfold is_running; simpl; intros H;
    first [reflexivity | discriminate].
Qed.

(** Whatever the scheduler picks can take place. *)
Lemma enabled_valid (p : Pool) (a : action) :
  a ∈ enabled p -> valid_action p a.
Proof.
  unfold enabled. intros Hin.
  apply elem_of_app in Hin as [Hin|Hin].
  { destruct (todo p) eqn:Ht; [inversion Hin|].
    apply list_elem_of_singleton in Hin. subst a. simpl. now rewrite Ht. }
  apply elem_of_app in Hin as [Hin|Hin].
  - destruct (Nat.ltb _ _); [|inversion Hin].
    destruct (find_index is_queued 0 (tasks p)) as [i|] eqn:Hf;
      [|inversion Hin].
    apply list_elem_of_singleton in Hin. subst a.
    apply find_index_spec in Hf as (_ & t & Hl & Hq).
    rewrite Nat.sub_0_r in Hl. apply is_queued_status in Hq.
    simpl. exists (fst t). now rewrite Hl, Hq at 1.
  - apply list_elem_of_fmap in Hin as (i & -> & Hin).
    apply indices_spec in Hin as (_ & t & Hl & Hr).
    rewrite Nat.sub_0_r in Hl. apply is_running_status in Hr.
    simpl. exists (fst t). now rewrite Hl, Hr at 1.
Qed.

Lemma pool_step_cases (E : Env) (k : nat) (ps : Pool * State) :
  (enabled (fst ps) = [] /\ pool_step E k ps = ps)
  \/ (exists a, valid_action (fst ps) a /\ pool_step E k ps = perform E a ps).
Proof.
  unfold pool_step. destruct (enabled (fst ps)) as [|a acts] eqn:Hen.
  - left. auto.
  - right. eexists. split; [|reflexivity].
    apply enabled_valid. rewrite Hen.
    apply list_elem_of_In, nth_In, Nat.mod_upper_bound. simpl. lia.
Qed.

(** A property kept by every action that can take place holds after any
    number of scheduling decisions. *)
Lemma pool_run_invariant (E : Env) (I : Pool * State -> Prop) :
  (forall ps a, I ps -> valid_action (fst ps) a -> I (perform E a ps)) ->
  forall n k ps, I ps -> I (pool_run E n k ps).
Proof.
  intros Hstep. induction n as [|n IH]; intros k ps HI; simpl; [exact HI|].
  apply IH. destruct (pool_step_cases E k ps) as [[_ ->]|(a & Hv & ->)]; auto.
Qed.

Lemma sum_list_with_insert {A} (w : A -> nat) (l : list A) :
  forall i x y,
    l !! i = Some y ->
    sum_list_with w (<[i := x]> l) + w y = sum_list_with w l + w x.
Proof.
  induction l as [|z l IH]; intros i x y Hl; [discriminate|].
  destruct i as [|i]; simpl in *.
  - inversion Hl; subst. lia.
  - specialize (IH i x y Hl). lia.
Qed.

Lemma sum_list_with_zero {A} (w : A -> nat) (l : list A) :
  sum_list_with w l = 0 -> Forall (fun x => w x = 0) l.
Proof.
  induction l as [|z l IH]; simpl; intros H; constructor; [lia|].
  apply IH. lia.
Qed.

Lemma perform_enqueue (E : Env) (p : Pool) (s : State) (f : string)
      (rest : list string) :
  todo p = f :: rest ->
  perform E Enqueue (p, s)
  = ({| todo := rest; tasks := tasks p ++ [(f, Queued)] |}, s).
Proof. intros Ht. simpl. now rewrite Ht. Qed.

Lemma perform_start (E : Env) (p : Pool) h d cd fs o t (i : nat)
      (f : string) (st : task_status) :
  tasks p !! i = Some (f, st) ->
  perform E (Start i) (p, mkState h d cd fs o t)
  = ({| todo := todo p; tasks := <[i := (f, Running)]> (tasks p) |},
     mkState h d cd fs o (t ++ [banner f])).
Proof. intros Hl. simpl. unfold set_status. now rewrite Hl. Qed.

Lemma perform_finish (E : Env) (p : Pool) h d cd fs o t (i : nat)
      (f : string) (st : task_status) :
  tasks p !! i = Some (f, st) ->
  perform E (Finish i) (p, mkState h d cd fs o t)
  = ({| todo := todo p;
        tasks := <[i := (f, Finished (work_outcome E f))]> (tasks p) |},
     match checksum_result E f with
     | Ret c => mkState (h ++ [scanner_record E f c])
                        (dict_set f (length h) d) cd fs o t
     | Raise _ => mkState h d cd fs o t
     end).
Proof.
  intros Hl. unfold perform. rewrite Hl, process_file_work_run.
  unfold set_status, work_outcome. rewrite Hl.
  destruct (checksum_result E f); reflexivity.
Qed.

(** Every action that can take place brings the pool one step nearer to
    the end. *)
Lemma perform_weight (E : Env) (p : Pool) (s : State) (a : action) :
  valid_action p a ->
  pool_weight (fst (perform E a (p, s))) + 1 = pool_weight p.
Proof.
  destruct s as [h d cd fs o t]. unfold pool_weight.
  destruct a as [|i|i]; simpl valid_action.
  - intros Hne. destruct (todo p) as [|f rest] eqn:Ht; [congruence|].
    rewrite (perform_enqueue E p _ f rest Ht). simpl.
    rewrite sum_list_with_app. cbn. lia.
  - intros [f Hl]. rewrite (perform_start E p h d cd fs o t i f _ Hl). simpl.
    pose proof (sum_list_with_insert task_weight (tasks p) i
                  (f, Running) (f, Queued) Hl) as Hs.
    cbn in Hs. lia.
  - intros [f Hl]. rewrite (perform_finish E p h d cd fs o t i f _ Hl). simpl.
    pose proof (sum_list_with_insert task_weight (tasks p) i
                  (f, Finished (work_outcome E f)) (f, Running) Hl) as Hs.
    cbn in Hs. lia.
Qed.

(** With nothing left to do, the walk is over and every task has finished:
    this is when [pool.join()] returns. *)
Lemma enabled_nil (p : Pool) :
  enabled p = [] ->
  todo p = []
  /\ Forall (fun t => exists r, snd t = Finished r) (tasks p).
Proof.
  unfold enabled. intros Hen.
  apply app_eq_nil in Hen as [Htodo Hen].
  apply app_eq_nil in Hen as [Hstart Hfin].
  apply fmap_nil_inv in Hfin. apply indices_nil in Hfin.
  split; [destruct (todo p); [reflexivity|discriminate]|].
  assert (Hnr : filter is_running (tasks p) = []).
  { clear -Hfin. induction Hfin as [|t ts Ht _ IH]; [reflexivity|].
    rewrite filter_cons. destruct (decide (is_running t)) as [Hd|_]; [|exact IH].
    rewrite Ht in Hd. destruct Hd. }
  rewrite Hnr in Hstart. simpl in Hstart.
  destruct (find_index is_queued 0 (tasks p)) eqn:Hf; [discriminate|].
  apply find_index_none in Hf.
  apply Forall_forall. intros [f st] Hin.
  pose proof (proj1 (Forall_forall _ _) Hfin _ Hin) as H1.
  pose proof (proj1 (Forall_forall _ _) Hf _ Hin) as H2.
  destruct st as [| |r]; try discriminate. eauto.
Qed.

Lemma joined_weight (p : Pool) :
  todo p = [] ->
  Forall (fun t => exists r, snd t = Finished r) (tasks p) ->
  pool_weight p = 0.
Proof.
  intros Ht Hall. unfold pool_weight. rewrite Ht. simpl.
  induction Hall as [|[f st] ts [r Hr] _ IH]; [reflexivity|].
  simpl in *. subst st. unfold task_weight at 1. simpl. exact IH.
Qed.

Lemma weight_zero_joined (p : Pool) :
  pool_weight p = 0 ->
  todo p = []
  /\ Forall (fun t => exists r, snd t = Finished r) (tasks p).
Proof.
  unfold pool_weight. intros Hw. split.
  - destruct (todo p); [reflexivity|simpl in Hw; lia].
  - assert (Hs : sum_list_with task_weight (tasks p) = 0) by lia.
    apply sum_list_with_zero in Hs.
    eapply Forall_impl; [exact Hs|]. intros [f st]. unfold task_weight. simpl.
    destruct st; intros H; try discriminate. eauto.
Qed.

Lemma pool_run_weight (E : Env) :
  forall n k ps,
    pool_weight (fst (pool_run E n k ps)) = pool_weight (fst ps) - n.
Proof.
  induction n as [|n IH]; intros k ps; simpl; [lia|].
  rewrite IH.
  destruct (pool_step_cases E k ps) as [[Hen ->]|(a & Hv & ->)].
  - apply enabled_nil in Hen as [Ht Hall].
    rewrite (joined_weight _ Ht Hall). lia.
  - destruct ps as [p s]. pose proof (perform_weight E p s a Hv). simpl in *.
    lia.
Qed.

(** [pool.join()] returns: after three actions per file no file is left to
    hand over and every task has finished. *)
Lemma pool_run_joined (E : Env) (walk_dir : string) (s : State) :
  let p := fst (scan E walk_dir s) in
  todo p = []
  /\ Forall (fun t => exists r, snd t = Finished r) (tasks p).
Proof.
  simpl. apply weight_zero_joined. unfold scan.
  rewrite pool_run_weight. unfold pool_weight. simpl. lia.
Qed.

(** ** What a scan does to the store *)

Lemma record_at_new h d cd fs o t (f : string) (x : FileAttributes) :
  record_at (mkState (h ++ [x]) (dict_set f (length h) d) cd fs o t) f
  = Some x.
Proof.
  unfold record_at. simpl. rewrite dict_get_set_eq. simpl.
  now apply list_lookup_middle.
Qed.

Lemma record_at_other h d cd fs o t (f g : string) (x r : FileAttributes) :
  g <> f ->
  record_at (mkState h d cd fs o t) g = Some r ->
  record_at (mkState (h ++ [x]) (dict_set f (length h) d) cd fs o t) g
  = Some r.
Proof.
  unfold record_at. simpl. intros Hne Hr.
  rewrite dict_get_set_ne by exact Hne.
  destruct (dict_get g d) as [l|]; [|discriminate]. simpl in *.
  now apply lookup_app_l_Some.
Qed.

Lemma tasks_names_insert (ts : list (string * task_status)) (i : nat)
      (f : string) (st st' : task_status) :
  ts !! i = Some (f, st) ->
  map fst (<[i := (f, st')]> ts) = map fst ts.
Proof.
  intros Hl. change (map fst) with (fmap (M:=list) (@fst string task_status)).
  rewrite list_fmap_insert. simpl. apply list_insert_id.
  rewrite list_lookup_fmap, Hl. reflexivity.
Qed.

Lemma scan_inv_step (E : Env) (files : list string) (s0 : State)
      (ps : Pool * State) (a : action) :
  scan_inv E files s0 ps -> valid_action (fst ps) a ->
  scan_inv E files s0 (perform E a ps).
Proof.
  destruct ps as [p [h d cd fs o t]].
  intros (Hfiles & Hfin & Hfail & (tr & Htr & Hban) & Hcd & Hfs & Hop) Hv.
  simpl in Hfiles, Hfin, Hfail, Htr, Hcd, Hfs, Hop, Hv.
  destruct a as [|i|i]; simpl in Hv.
  - (* the walk hands over the next file *)
    destruct (todo p) as [|f rest] eqn:Ht; [congruence|].
    rewrite (perform_enqueue E p _ f rest Ht).
    unfold scan_inv. simpl. repeat split; auto.
    + rewrite map_app, <- app_assoc. exact Hfiles.
    + apply lookup_app_Some in H as [H|[_ H]]; [now apply (Hfin i f0 r)|].
      destruct (i - length (tasks p)); simpl in H; [congruence|discriminate].
    + apply lookup_app_Some in H as [H|[_ H]]; [now apply (Hfin i f0 r)|].
      destruct (i - length (tasks p)); simpl in H; [congruence|discriminate].
    + eauto.
  - (* a worker starts a task *)
    destruct Hv as [f Hl].
    rewrite (perform_start E p h d cd fs o t i f _ Hl).
    unfold scan_inv. simpl.
    assert (Hin : f ∈ files).
    { rewrite <- Hfiles. apply elem_of_app. left.
      apply list_elem_of_In, in_map_iff. exists (f, Queued). split; [reflexivity|].
      apply list_elem_of_In, list_elem_of_lookup. eauto. }
    split; [now rewrite (tasks_names_insert _ _ _ _ _ Hl)|].
    split.
    { intros j g r Hj. destruct (decide (j = i)) as [->|Hne].
      - rewrite list_lookup_insert_eq in Hj by (eapply lookup_lt_Some; eauto).
        congruence.
      - rewrite list_lookup_insert_ne in Hj by congruence.
        destruct (Hfin j g r Hj) as [Hr Hst]. split; [exact Hr|].
        intros c Hc. specialize (Hst c Hc). exact Hst. }
    split; [exact Hfail|].
    split; [|auto].
    exists (tr ++ [banner f]). split; [rewrite Htr; now rewrite app_assoc|].
    apply Forall_app. split; [exact Hban|]. constructor; [eauto|constructor].
  - (* a worker completes a task *)
    destruct Hv as [f Hl].
    rewrite (perform_finish E p h d cd fs o t i f _ Hl).
    unfold scan_inv. simpl.
    split; [now rewrite (tasks_names_insert _ _ _ _ _ Hl)|].
    split.
    { intros j g r Hj. destruct (decide (j = i)) as [->|Hne].
      - rewrite list_lookup_insert_eq in Hj by (eapply lookup_lt_Some; eauto).
        inversion Hj; subst g r. split; [reflexivity|].
        intros c Hc. unfold stored. rewrite Hc. apply record_at_new.
      - rewrite list_lookup_insert_ne in Hj by congruence.
        destruct (Hfin j g r Hj) as [Hr Hst]. split; [exact Hr|].
        intros c Hc. specialize (Hst c Hc). unfold stored in *.
        destruct (checksum_result E f) as [c0|e] eqn:Hcf; [|exact Hst].
        destruct (decide (g = f)) as [->|Hgf].
        + assert (c = c0) by congruence. subst c0. apply record_at_new.
        + now apply record_at_other. }
    split.
    { intros k Hk. destruct (checksum_result E f) as [c0|e] eqn:Hcf.
      - simpl. rewrite dict_get_set_ne; [now apply Hfail|].
        intros ->. exact (Hk c0 Hcf).
      - simpl. now apply Hfail. }
    split.
    { exists tr. destruct (checksum_result E f); simpl; auto. }
    destruct (checksum_result E f); simpl; auto.
Qed.

Lemma scan_inv_holds (E : Env) (walk_dir : string) (s : State) :
  scan_inv E (walk_files E walk_dir) s (scan E walk_dir s).
Proof.
  unfold scan. apply pool_run_invariant.
  - intros ps a. apply scan_inv_step.
  - unfold scan_inv. simpl. repeat split; auto.
    + destruct i; discriminate.
    + destruct i; discriminate.
    + exists []. split; [now rewrite app_nil_r|constructor].
Qed.

(** A property of records that the scanner's records have is kept, for
    every record of the store, by a scan. *)
Lemma scan_store_all (E : Env) (P : FileAttributes -> Prop)
      (walk_dir : string) (s : State) :
  (forall f c, P (scanner_record E f c)) ->
  store_all P (heap s) (file_path_dict s) ->
  store_all P (heap (snd (scan E walk_dir s)))
            (file_path_dict (snd (scan E walk_dir s))).
Proof.
  intros HP Hs. unfold scan.
  apply (pool_run_invariant E
           (fun ps => store_all P (heap (snd ps)) (file_path_dict (snd ps))));
    [|exact Hs].
  clear s Hs. intros [p [h d cd fs o t]] a Hinv Hv. simpl in Hinv, Hv.
  destruct a as [|i|i]; simpl in Hv.
  - destruct (todo p) as [|f rest] eqn:Ht; [congruence|].
    now rewrite (perform_enqueue E p _ f rest Ht).
  - destruct Hv as [f Hl].
    now rewrite (perform_start E p h d cd fs o t i f _ Hl).
  - destruct Hv as [f Hl].
    rewrite (perform_finish E p h d cd fs o t i f _ Hl). simpl.
    destruct (checksum_result E f) as [c|e]; [|exact Hinv]. simpl.
    apply dict_set_Forall.
    + eapply Forall_impl; [exact Hinv|]. intros kl (ob & Hob & HPob).
      exists ob. split; [now apply lookup_app_l_Some|exact HPob].
    + exists (scanner_record E f c). simpl.
      split; [now apply list_lookup_middle|apply HP].
Qed.

Lemma finished_no_queued (ts : list (string * task_status)) :
  Forall (fun t => exists r, snd t = Finished r) ts ->
  forall i, find_index is_queued i ts = None.
Proof.
  induction 1 as [|[f st] ts [r Hr] _ IH]; intros i; [reflexivity|].
  simpl in Hr. subst st. simpl. apply IH.
Qed.

Lemma finished_no_running (ts : list (string * task_status)) :
  Forall (fun t => exists r, snd t = Finished r) ts ->
  forall i, indices is_running i ts = [].
Proof.
  induction 1 as [|[f st] ts [r Hr] _ IH]; intros i; [reflexivity|].
  simpl in Hr. subst st. simpl. apply IH.
Qed.

Lemma joined_enabled (p : Pool) :
  todo p = [] ->
  Forall (fun t => exists r, snd t = Finished r) (tasks p) ->
  enabled p = [].
Proof.
  intros Ht Hall. unfold enabled.
  rewrite Ht, (finished_no_queued _ Hall), (finished_no_running _ Hall).
  simpl. now destruct (Nat.ltb _ _).
Qed.

(** What is known when [pool.join()] has returned. *)
Lemma scan_joined (E : Env) (walk_dir : string) (s : State) :
  let files := walk_files E walk_dir in
  let p := fst (scan E walk_dir s) in
  let s' := snd (scan E walk_dir s) in
  map fst (tasks p) = files
  /\ todo p = []
  /\ (forall f st, (f, st) ∈ tasks p ->
                   st = Finished (work_outcome E f)
                   /\ forall c, checksum_result E f = Ret c -> stored E f c s')
  /\ (forall f, f ∈ files -> (f, Finished (work_outcome E f)) ∈ tasks p).
Proof.
  intros files p s'.
  destruct (pool_run_joined E walk_dir s) as [Htodo Hall]. fold p in Htodo, Hall.
  destruct (scan_inv_holds E walk_dir s) as (Hfiles & Hfin & _).
  fold p in Hfiles, Hfin. fold s' in Hfin. fold files in Hfiles.
  rewrite Htodo, app_nil_r in Hfiles.
  assert (Htask : forall f st, (f, st) ∈ tasks p ->
                    st = Finished (work_outcome E f)
                    /\ forall c, checksum_result E f = Ret c -> stored E f c s').
  { intros f st Hin.
    destruct (proj1 (Forall_forall _ _) Hall _ Hin) as [r Hr]. simpl in Hr.
    subst st. apply list_elem_of_lookup in Hin as [i Hi].
    destruct (Hfin i f r Hi) as [-> Hst]. auto. }
  repeat split; auto.
  - now apply Htask in H.
  - now apply Htask in H.
  - intros f Hin. rewrite <- Hfiles in Hin.
    apply list_elem_of_In, in_map_iff in Hin as ([g st] & Hg & Hin).
    simpl in Hg. subst g. apply list_elem_of_In in Hin.
    now rewrite <- (proj1 (Htask f st Hin)).
Qed.

(** ** The scanner *)

Lemma scan_heap_inv_step (E : Env) (files : list string) (s0 : State)
      (ps : Pool * State) (a : action) :
  scan_inv E files s0 ps -> scan_heap_inv E files s0 ps ->
  valid_action (fst ps) a ->
  scan_heap_inv E files s0 (perform E a ps).
Proof.
  destruct ps as [p [h d cd fs o t]].
  intros (Hfiles & _) (ext & Hext & Hall) Hv.
  simpl in Hfiles, Hext, Hv.
  destruct a as [|i|i]; simpl in Hv.
  - destruct (todo p) as [|f rest] eqn:Ht; [congruence|].
    rewrite (perform_enqueue E p _ f rest Ht).
    exists ext. simpl. auto.
  - destruct Hv as [f Hl].
    rewrite (perform_start E p h d cd fs o t i f _ Hl).
    exists ext. simpl. auto.
  - destruct Hv as [f Hl].
    rewrite (perform_finish E p h d cd fs o t i f _ Hl).
    assert (Hin : f ∈ files).
    { rewrite <- Hfiles. apply elem_of_app. left.
      apply list_elem_of_In, in_map_iff. exists (f, Running).
      split; [reflexivity|].
      apply list_elem_of_In, list_elem_of_lookup. eauto. }
    destruct (checksum_result E f) as [c|e] eqn:Hc.
    + exists (ext ++ [scanner_record E f c]). simpl. split.
      * rewrite Hext. now rewrite app_assoc.
      * apply Forall_app. split; [exact Hall|].
        constructor; [|constructor]. exists f, c. auto.
    + exists ext. simpl. auto.
Qed.

Lemma scan_heap_inv_holds (E : Env) (walk_dir : string) (s : State) :
  scan_heap_inv E (walk_files E walk_dir) s (scan E walk_dir s).
Proof.
  unfold scan.
  apply (pool_run_invariant E
           (fun ps => scan_inv E (walk_files E walk_dir) s ps
                      /\ scan_heap_inv E (walk_files E walk_dir) s ps)).
  - intros ps a [H1 H2] Hv. split.
    + now apply scan_inv_step.
    + now apply scan_heap_inv_step.
  - split.
    + unfold scan_inv. simpl. repeat split; auto.
      * destruct i; discriminate.
      * destruct i; discriminate.
      * exists []. split; [now rewrite app_nil_r|constructor].
    + exists []. simpl. split; [now rewrite app_nil_r|constructor].
Qed.

(** C5, as the code has it.  Whatever the scheduler does,
    [calculate_all_checksums] returns (after [pool.close(); pool.join()],
    that is when no pool action is enabled) with every file of the walk
    handed to the pool and every task finished: no checksum is in flight.
    In the state it returns, a discovered file whose checksum was computed
    has the scanner's record, with the checksum, under its path.  A
    discovered file whose computation raised has neither a value nor a
    recorded failure: the entry of its path is what it was before the scan,
    every object the scan created is the record of a file whose checksum
    was computed, the scan printed its header and banners only, and it
    touched nothing else.  The exception is in the task's result alone,
    which [calculate_all_checksums] does not return. *)
Theorem scanner_joins_and_records_no_failure
        (E : Env) (walk_dir : string) (s : State) :
  let files := walk_files E walk_dir in
  let s1 := snd (print scan_header s) in
  let p := fst (scan E walk_dir s1) in
  let s' := snd (scan E walk_dir s1) in
  calculate_all_checksums E walk_dir s = (Ret tt, s')
  /\ map fst (tasks p) = files
  /\ todo p = []
  /\ enabled p = []
  /\ (forall f st, (f, st) ∈ tasks p -> st = Finished (work_outcome E f))
  /\ (forall f, f ∈ files ->
        match checksum_result E f with
        | Ret c => (f, Finished (Ret tt)) ∈ tasks p /\ stored E f c s'
        | Raise e =>
            (f, Finished (Raise e)) ∈ tasks p
            /\ dict_get f (file_path_dict s') = dict_get f (file_path_dict s)
        end)
  /\ (exists ext,
         heap s' = heap s ++ ext
         /\ Forall (fun ob => exists g c,
                        g ∈ files /\ checksum_result E g = Ret c
                        /\ ob = scanner_record E g c) ext)
  /\ (exists tr,
         trace s' = trace s ++ Print scan_header :: tr
         /\ Forall (fun ev => exists g, g ∈ files /\ ev = banner g) tr)
  /\ checksums_dict s' = checksums_dict s
  /\ fs s' = fs s
  /\ opened s' = opened s.
Proof.
  intros files s1 p s'.
  destruct (scan_joined E walk_dir s1) as (Hnames & Htodo & Htask & Hall).
  fold p in Hnames, Htodo, Htask, Hall. fold s' in Htask.
  destruct (pool_run_joined E walk_dir s1) as [_ Hfin]. fold p in Hfin.
  destruct (scan_inv_holds E walk_dir s1)
    as (_ & _ & Hkeep & (tr & Htr & Hban) & Hcd & Hfs & Hop).
  fold s' in Hkeep, Htr, Hcd, Hfs, Hop.
  destruct (scan_heap_inv_holds E walk_dir s1) as (ext & Hext & Hnew).
  fold s' in Hext.
  split; [reflexivity|]. split; [exact Hnames|]. split; [exact Htodo|].
  split; [now apply joined_enabled|].
  split; [intros f st Hin; now apply Htask in Hin|].
  split.
  { intros f Hin. specialize (Hall f Hin).
    destruct (Htask _ _ Hall) as [_ Hst]. unfold work_outcome in Hall.
    destruct (checksum_result E f) as [c|e] eqn:Hc; [auto|].
    split; [exact Hall|]. rewrite Hkeep; [reflexivity|].
    intros c. congruence. }
  split; [exists ext; split; [exact Hext | exact Hnew]|].
  split.
  { exists tr. split; [|exact Hban]. rewrite Htr. subst s1. simpl.
    now rewrite <- app_assoc. }
  split; [exact Hcd|]. split; [exact Hfs | exact Hop].
Qed.

Lemma demo_walk_files :
  walk_files Demo.env "/m" = ["/m/a.mp3"; "/m/locked.mp3"; "/m/b.mp3"].
Proof. reflexivity. Qed.

Lemma scanner_joins_and_records_no_failure_witness :
  "/m/a.mp3" ∈ walk_files Demo.env "/m"
  /\ stored Demo.env "/m/a.mp3" "4038471504"
            (snd (scan Demo.env "/m" (snd (print scan_header initial_state)))).
Proof.
  assert (Hin : "/m/a.mp3" ∈ walk_files Demo.env "/m").
  { rewrite demo_walk_files. apply elem_of_cons. now left. }
  split; [exact Hin|].
  pose proof (scanner_joins_and_records_no_failure Demo.env "/m"
                initial_state) as H.
  cbv zeta in H. destruct H as (_ & _ & _ & _ & _ & H & _).
  exact (proj2 (H "/m/a.mp3" Hin)).
Defined.

(** C5 as stated fails: [cksum] fails on [/m/locked.mp3], a file of the
    walk.  The scan returns normally, and the state it returns holds the
    records of the two other files (under this scheduler [b.mp3] is stored
    first) and the four printed lines, nothing else: for the failed file
    there is neither a value nor a recorded failure. *)
Lemma failed_file_has_neither_value_nor_failure :
  let run := calculate_all_checksums Demo.env "/m" initial_state in
  "/m/locked.mp3" ∈ walk_files Demo.env "/m"
  /\ checksum_result Demo.env "/m/locked.mp3"
     = Raise (Exn CalledProcessError "Command returned non-zero exit status 1.")
  /\ fst run = Ret tt
  /\ heap (snd run)
     = [scanner_record Demo.env "/m/b.mp3" "4038471504";
        scanner_record Demo.env "/m/a.mp3" "4038471504"]
  /\ file_path_dict (snd run) = [("/m/b.mp3", 0); ("/m/a.mp3", 1)]
  /\ checksums_dict (snd run) = []
  /\ fs (snd run) = []
  /\ opened (snd run) = []
  /\ trace (snd run)
     = [Print scan_header; banner "/m/a.mp3"; banner "/m/locked.mp3";
        banner "/m/b.mp3"].
Proof.
  cbv zeta. split.
  { rewrite demo_walk_files. apply elem_of_cons. right.
    apply elem_of_cons. now left. }
  repeat split; vm_compute; reflexivity.
Qed.

(** C3, as the code has it.  When [checksum_file] raises for a discovered
    file, the exception ends in the task's [AsyncResult]; the store's entry
    for that path is what it was before the scan (no record is created),
    nothing but the banners of [process_file] is printed (no warning), the
    scan returns normally, and every file whose checksum can be computed has
    its record in the store. *)
Theorem failed_checksum_leaves_no_record
        (E : Env) (walk_dir : string) (s : State) (f : string) (e : exn) :
  f ∈ walk_files E walk_dir ->
  checksum_result E f = Raise e ->
  let s1 := snd (print scan_header s) in
  let p := fst (scan E walk_dir s1) in
  let s' := snd (scan E walk_dir s1) in
  calculate_all_checksums E walk_dir s = (Ret tt, s')
  /\ (f, Finished (Raise e)) ∈ tasks p
  /\ dict_get f (file_path_dict s') = dict_get f (file_path_dict s)
  /\ (exists tr,
         trace s' = trace s ++ Print scan_header :: tr
         /\ Forall (fun ev => exists g, g ∈ walk_files E walk_dir
                                        /\ ev = banner g) tr)
  /\ (forall g c, g ∈ walk_files E walk_dir ->
                  checksum_result E g = Ret c -> stored E g c s').
Proof.
  intros Hin Hfail s1 p s'.
  destruct (scan_joined E walk_dir s1) as (_ & _ & Htask & Hall).
  fold p in Htask, Hall. fold s' in Htask.
  destruct (scan_inv_holds E walk_dir s1) as (_ & _ & Hkeep & (tr & Htr & Hban) & _).
  fold s' in Hkeep, Htr.
  split; [reflexivity|]. split.
  { specialize (Hall f Hin). unfold work_outcome in Hall.
    now rewrite Hfail in Hall. }
  split.
  { rewrite Hkeep; [reflexivity|]. intros c Hc. congruence. }
  split.
  { exists tr. split; [|exact Hban]. rewrite Htr. subst s1. simpl.
    now rewrite <- app_assoc. }
  intros g c Hg Hc. specialize (Hall g Hg).
  now apply Htask in Hall as [_ Hst]; apply Hst.
Qed.

Lemma failed_checksum_leaves_no_record_witness :
  "/m/locked.mp3" ∈ walk_files Demo.env "/m"
  /\ checksum_result Demo.env "/m/locked.mp3"
     = Raise (Exn CalledProcessError "Command returned non-zero exit status 1.")
  /\ dict_get "/m/locked.mp3"
       (file_path_dict
          (snd (scan Demo.env "/m" (snd (print scan_header initial_state)))))
     = dict_get "/m/locked.mp3" (file_path_dict initial_state).
Proof.
  assert (Hin : "/m/locked.mp3" ∈ walk_files Demo.env "/m").
  { rewrite demo_walk_files. apply elem_of_cons. right.
    apply elem_of_cons. now left. }
  split; [exact Hin|]. split; [reflexivity|].
  pose proof (failed_checksum_leaves_no_record Demo.env "/m" initial_state
                "/m/locked.mp3" _ Hin eq_refl) as H.
  cbv zeta in H. destruct H as (_ & _ & H & _). exact H.
Defined.

(** C3 as stated fails: [cksum] fails on [/m/locked.mp3].  After the scan
    the store has no record under that path (the claim wants one with a
    null checksum) and standard output holds the header and the three
    banners only (the claim wants a warning). *)
Lemma failed_checksum_no_record_no_warning :
  let s' := snd (calculate_all_checksums Demo.env "/m" initial_state) in
  walk_files Demo.env "/m" = ["/m/a.mp3"; "/m/locked.mp3"; "/m/b.mp3"]
  /\ checksum_result Demo.env "/m/locked.mp3"
     = Raise (Exn CalledProcessError "Command returned non-zero exit status 1.")
  /\ record_at s' "/m/locked.mp3" = None
  /\ printed (trace s')
     = [scan_header; "<<</m/a.mp3>>>"; "<<</m/locked.mp3>>>"; "<<</m/b.mp3>>>"].
Proof. cbv zeta. repeat split; vm_compute; reflexivity. Qed.

(** ** Invariants of the store *)

Section StoreInvariant.
Context (E : Env) (P : FileAttributes -> Prop).
Hypothesis P_scanner : forall f c, P (scanner_record E f c).
Hypothesis P_created :
  forall p k,
    P (set_itunes_key k (set_itunes_file_path (Some p) FileAttributes_init)).
Hypothesis P_updated :
  forall p k ob,
    P ob -> P (set_itunes_key k (set_itunes_file_path (Some p) ob)).

Lemma preserves_ret {A} (a : A) : preserves P (ret a).
Proof. intros s Hs. exact Hs. Qed.

Lemma preserves_raise {A} (e : exn) : preserves P (@raise A e).
Proof. intros s Hs. exact Hs. Qed.

Lemma preserves_lift {A} (r : outcome A) : preserves P (lift r).
Proof. intros s Hs. exact Hs. Qed.

Lemma preserves_print (line : string) : preserves P (print line).
Proof. intros s Hs. exact Hs. Qed.

Lemma preserves_bind {A B} (m : M A) (k : A -> M B) :
  preserves P m -> (forall a, preserves P (k a)) -> preserves P (bind m k).
Proof.
  intros Hm Hk s Hs. unfold bind. specialize (Hm s Hs).
  destruct (m s) as [[a|e] s1]; simpl in *; [now apply Hk|exact Hm].
Qed.

Lemma preserves_try_except {A} (body : M A) (handler : exn -> M A) :
  preserves P body -> (forall e, preserves P (handler e)) ->
  preserves P (try_except body handler).
Proof.
  intros Hb Hh s Hs. unfold try_except. specialize (Hb s Hs).
  destruct (body s) as [[a|e] s1]; simpl in *; [exact Hb|].
  destruct (is_Exception e); [now apply Hh|exact Hb].
Qed.

Lemma preserves_print_exception (e : exn) : preserves P (print_exception e).
Proof. apply preserves_print. Qed.

Lemma store_all_grow h d (f : string) (x : FileAttributes) :
  store_all P h d -> P x ->
  store_all P (h ++ [x]) (dict_set f (length h) d).
Proof.
  intros Hall Hx. apply dict_set_Forall.
  - eapply Forall_impl; [exact Hall|]. intros kl (ob & Hob & HPob).
    exists ob. split; [now apply lookup_app_l_Some|exact HPob].
  - exists x. simpl. split; [now apply list_lookup_middle|exact Hx].
Qed.

Lemma store_all_update h d (l : loc) (ob x : FileAttributes) :
  store_all P h d -> h !! l = Some ob -> (P ob -> P x) ->
  (exists k, (k, l) ∈ d) ->
  store_all P (<[l := x]> h) d.
Proof.
  intros Hall Hl Hx [k Hk].
  assert (HPob : P ob).
  { destruct (proj1 (Forall_forall _ _) Hall _ Hk) as (ob' & Hob' & HP').
    simpl in Hob'. congruence. }
  eapply Forall_impl; [exact Hall|]. intros [k' l'] (ob' & Hob' & HP').
  simpl in *. destruct (decide (l' = l)) as [->|Hne].
  - exists x. split; [|auto].
    apply list_lookup_insert_eq. eapply lookup_lt_Some; eauto.
  - exists ob'. split; [|exact HP'].
    now rewrite list_lookup_insert_ne by congruence.
Qed.

Lemma preserves_process_file (file_name : string) :
  preserves P (process_file E file_name).
Proof.
  intros [h d cd f o t] Hs. unfold store_inv in *.
  rewrite process_file_run, process_file_work_run.
  destruct (checksum_result E file_name) as [c|e]; simpl in *; [|exact Hs].
  apply store_all_grow; auto.
Qed.

Lemma preserves_merge_entry (p : string) (k : pyval) :
  preserves P (merge_entry p k).
Proof.
  intros [h d cd f o t] Hs. unfold store_inv in *. rewrite merge_entry_run.
  simpl in Hs.
  destruct (dict_get p d) as [l|] eqn:Hg.
  - destruct (h !! l) as [ob|] eqn:Hl; simpl; [|exact Hs].
    eapply store_all_update; eauto.
    exists p. now apply dict_get_elem.
  - simpl. apply store_all_grow; auto.
Qed.

Lemma preserves_catalog_entry (cur_key : pyval) (data : Element) :
  preserves P (catalog_entry E cur_key data).
Proof.
  unfold catalog_entry. apply preserves_try_except;
    [|apply preserves_print_exception].
  apply preserves_bind.
  { unfold this_dict_item. destruct (dict_get _ _);
      [apply preserves_ret|apply preserves_raise]. }
  intros location. apply preserves_bind.
  { unfold unquote_value. destruct location;
      [apply preserves_ret|apply preserves_raise]. }
  intros unquoted. apply preserves_bind.
  { unfold this_dict_item. destruct (dict_get _ _);
      [apply preserves_ret|apply preserves_raise]. }
  intros name. apply preserves_bind.
  { unfold this_dict_item. destruct (dict_get _ _);
      [apply preserves_ret|apply preserves_raise]. }
  intros location'. apply preserves_bind; [apply preserves_print|].
  intros _. apply preserves_try_except;
    [apply preserves_merge_entry|apply preserves_print_exception].
Qed.

Lemma preserves_catalog_nodes (datas : list Element) :
  forall cur_key, preserves P (catalog_nodes E cur_key datas).
Proof.
  induction datas as [|data rest IH]; intros cur_key; simpl.
  - apply preserves_ret.
  - destruct (bool_decide (tag data = "key")); [apply IH|].
    destruct (bool_decide (tag data = "dict")); [|apply IH].
    apply preserves_bind; [apply preserves_catalog_entry|].
    intros _. apply IH.
Qed.

Lemma preserves_read_itunes_library (xml : string) :
  preserves P (read_itunes_library E xml).
Proof.
  unfold read_itunes_library. apply preserves_try_except;
    [|apply preserves_print_exception].
  apply preserves_bind; [apply preserves_lift|].
  intros root. apply preserves_catalog_nodes.
Qed.

Lemma preserves_calculate_all_checksums (walk_dir : string) :
  preserves P (calculate_all_checksums E walk_dir).
Proof.
  unfold calculate_all_checksums. apply preserves_bind;
    [apply preserves_print|].
  intros _ s Hs. simpl. unfold store_inv in *.
  now apply scan_store_all.
Qed.

End StoreInvariant.

Lemma has_path_scanner (E : Env) (f c : string) :
  has_path (scanner_record E f c).
Proof. left. discriminate. Qed.

Lemma has_path_merged (p : string) (k : pyval) (ob : FileAttributes) :
  has_path (set_itunes_key k (set_itunes_file_path (Some p) ob)).
Proof. right. discriminate. Qed.

Lemma record_wf_scanner (E : Env) (f c : string) :
  record_wf (scanner_record E f c).
Proof. split; simpl; eauto. Qed.

Lemma record_wf_created (p : string) (k : pyval) :
  record_wf (set_itunes_key k (set_itunes_file_path (Some p) FileAttributes_init)).
Proof.
  split; simpl; [discriminate|]. intros [x Hx]. discriminate.
Qed.

Lemma record_wf_updated (p : string) (k : pyval) (ob : FileAttributes) :
  record_wf ob ->
  record_wf (set_itunes_key k (set_itunes_file_path (Some p) ob)).
Proof. intros [H1 H2]. split; simpl; [discriminate|exact H2]. Qed.

(** The stores a fresh run hands to [generate_reports] are well formed: the
    first loop never meets a [None] where it needs a string. *)
Lemma fresh_run_store_wf (E : Env) (walk_dir xml : string) :
  store_inv record_wf
            (snd ((calculate_all_checksums E walk_dir ;;
                   read_itunes_library E xml) initial_state)).
Proof.
  apply preserves_bind.
  - apply preserves_calculate_all_checksums. apply record_wf_scanner.
  - intros _. apply preserves_read_itunes_library.
    + apply record_wf_created.
    + apply record_wf_updated.
  - constructor.
Qed.

(** C7.  At least one of [file_path] and [itunes_file_path] is set in every
    record of the store: both writers establish it ([process_file] stores a
    record with [file_path = file_name], the catalogue merge leaves the
    record of the path with [itunes_file_path] set to it), and it is kept
    by [process_file], by the catalogue merge, by the whole scan under any
    scheduling, by the whole catalogue pass, and by the two in sequence. *)
Theorem every_record_has_a_path (E : Env) (s : State) :
  store_inv has_path s ->
  (forall f, store_inv has_path (snd (process_file E f s)))
  /\ (forall f c, checksum_result E f = Ret c ->
                  record_at (snd (process_file E f s)) f ≫= file_path = Some f)
  /\ (forall p k, store_inv has_path (snd (merge_entry p k s)))
  /\ (forall p k, fst (merge_entry p k s) = Ret tt
                  /\ record_at (snd (merge_entry p k s)) p ≫= itunes_file_path
                     = Some p)
  /\ (forall walk_dir,
         store_inv has_path (snd (calculate_all_checksums E walk_dir s)))
  /\ (forall xml, store_inv has_path (snd (read_itunes_library E xml s)))
  /\ (forall walk_dir xml,
         store_inv has_path
                   (snd ((calculate_all_checksums E walk_dir ;;
                          read_itunes_library E xml) s))).
Proof.
  intros Hs.
  assert (Hc : forall p k,
             has_path (set_itunes_key k
                         (set_itunes_file_path (Some p) FileAttributes_init)))
    by (intros; apply has_path_merged).
  assert (Hu : forall p k ob,
             has_path ob ->
             has_path (set_itunes_key k (set_itunes_file_path (Some p) ob)))
    by (intros; apply has_path_merged).
  split; [intros f; apply preserves_process_file; auto using has_path_scanner|].
  split.
  { intros f c Hc'. destruct s as [h d cd fs o t].
    rewrite process_file_run, process_file_work_run, Hc'. simpl.
    now rewrite record_at_new. }
  split; [intros p k; apply preserves_merge_entry; auto|].
  split.
  { intros p k. destruct s as [h d cd fs o t]. rewrite merge_entry_run.
    unfold store_inv in Hs. simpl in Hs.
    destruct (dict_get p d) as [l|] eqn:Hg.
    - apply dict_get_elem in Hg as Hin.
      destruct (proj1 (Forall_forall _ _) Hs _ Hin) as (ob & Hob & _).
      simpl in Hob. rewrite Hob. simpl. split; [reflexivity|].
      unfold record_at. simpl. rewrite Hg. simpl.
      rewrite list_lookup_insert_eq by (eapply lookup_lt_Some; eauto).
      reflexivity.
    - simpl. split; [reflexivity|]. now rewrite record_at_new. }
  split.
  { intros walk_dir. apply preserves_calculate_all_checksums;
      auto using has_path_scanner. }
  split.
  { intros xml. apply preserves_read_itunes_library; auto. }
  intros walk_dir xml. apply preserves_bind; auto.
  - apply preserves_calculate_all_checksums. apply has_path_scanner.
  - intros _. apply preserves_read_itunes_library; auto.
Qed.

Lemma every_record_has_a_path_witness :
  store_inv has_path initial_state
  /\ store_inv has_path
               (snd ((calculate_all_checksums Demo.env "/m" ;;
                      read_itunes_library Demo.env "/lib/Library copy.xml")
                       initial_state)).
Proof.
  assert (H0 : store_inv has_path initial_state) by constructor.
  split; [exact H0|].
  destruct (every_record_has_a_path Demo.env initial_state H0)
    as (_ & _ & _ & _ & _ & _ & H).
  apply H.
Defined.

(** ** Which calls return *)














(** ** The snapshot *)

Lemma save_snapshot_run (E : Env) (xml : string) h d cd f o t :
  let p := snapshot_path xml in
  let s := mkState h d cd f o t in
  save_snapshot E xml s
  = (Ret tt,
     if can_write E p
     then mkState h d cd (fs_add p f) (o ++ [(p, "wb")])
                  (t ++ Print ("Saving cached data to " +:+ p)
                     :: (if can_dump E p
                         then [Dump (length o) (store_snapshot s);
                               Close (length o)]
                         else [Print ("Exception: cannot write " +:+ p)]))
     else mkState h d cd f o
                  (t ++ [Print ("Saving cached data to " +:+ p);
                         Print ("Exception: cannot open " +:+ p)])).
Proof.
  intros p s. subst s. unfold save_snapshot, try_except. fold p.
  unfold bind at 1. simpl.
  unfold open_for_writing. destruct (can_write E p) eqn:Hw.
  - unfold bind. simpl. destruct (can_dump E p) eqn:Hd; simpl.
    + unfold store_snapshot. simpl. rewrite <- !app_assoc. reflexivity.
    + unfold print_exception, print, emit. simpl.
      rewrite <- ?app_assoc. reflexivity.
  - unfold bind, print_exception, print, emit. simpl.
    rewrite <- ?app_assoc. reflexivity.
Qed.


Lemma prefix_cons (a b : ascii) (s1 s2 : string) :
  String.prefix (String a s1) (String b s2)
  = if Ascii.ascii_dec a b then String.prefix s1 s2 else false.
Proof. reflexivity. Qed.

Lemma prefix_nil (s : string) : String.prefix EmptyString s = true.
Proof. destruct s; reflexivity. Qed.

Lemma replace_from_cons (old new : string) (c : ascii) (r : string) :
  PyStr.replace_from 0 old new (String c r)
  = if String.prefix old (String c r)
    then new +:+ PyStr.replace_from (String.length old - 1) old new r
    else String c (PyStr.replace_from 0 old new r).
Proof. reflexivity. Qed.







Lemma read_args_run (E : Env) (argv : list string) (args : Args) (s : State) :
  parse_args E (good_args (tail argv)) = Ret args ->
  read_args E argv s = (Ret (Some args), s).
Proof.
  intros Hp. unfold read_args, try_except, bind, lift. now rewrite Hp.
Qed.




(** * Further properties of the code *)

(** ** What the report generator does in every case *)

Lemma dict_get_nil_all {V} (d : list (string * V)) :
  (forall c, dict_get c d = None) -> d = [].
Proof.
  destruct d as [|[c v] d]; [reflexivity|]. intros H. specialize (H c).
  simpl in H. destruct (decide (c = c)); congruence.
Qed.

Lemma members_nil_iff h (d : list (string * loc)) :
  (forall c, members h d c = [])
  <-> Forall (fun kl => h !! snd kl ≫= checksum = None) d.
Proof.
  unfold members. split.
  - intros Hm. apply Forall_forall. intros [k l] Hin. simpl.
    destruct (h !! l ≫= checksum) as [c|] eqn:Hc; [|reflexivity].
    exfalso. specialize (Hm c).
    assert (Hl : l ∈ filter (fun l => h !! l ≫= checksum = Some c) (map snd d)).
    { apply list_elem_of_filter. split; [exact Hc|].
      apply list_elem_of_In, in_map_iff. exists (k, l). split; [reflexivity|].
      now apply list_elem_of_In. }
    rewrite Hm in Hl. inversion Hl.
  - intros Hall c. induction Hall as [|[k l] d Hk _ IH]; [reflexivity|].
    simpl in *. rewrite filter_cons. rewrite Hk.
    destruct (decide (None = Some c)); [discriminate|exact IH].
Qed.

Lemma dupes_map_nil_iff h (d : list (string * loc)) :
  dupes_map h d [] = []
  <-> Forall (fun kl => h !! snd kl ≫= checksum = None) d.
Proof.
  rewrite <- members_nil_iff. split.
  - intros Hnil c. pose proof (dupes_map_get h d c []) as Hg.
    rewrite Hnil in Hg. simpl in Hg.
    destruct (members h d c); [reflexivity|discriminate].
  - intros Hm. apply dict_get_nil_all. intros c.
    rewrite dupes_map_get, Hm. reflexivity.
Qed.

Lemma sample_catalog_only_wf :
  store_all record_wf (heap Sample.store_catalog_only)
            (file_path_dict Sample.store_catalog_only).
Proof.
  unfold store_all. repeat constructor; simpl;
    eexists; (split; [reflexivity|]); split; simpl; intros H;
    solve [eauto | discriminate | destruct H; discriminate].
Qed.

(** X1.  With a writable report directory and a store as the two sources
    leave it, [generate_reports] returns normally exactly when no record of
    the store has a checksum; as soon as one has, the call ends in
    [UnboundLocalError] (raised by the handler of the duplicates loop). *)
Theorem report_returns_iff_no_checksum
        (E : Env) (rp : string) h d f o t :
  reports_writable E rp f ->
  store_all record_wf h d ->
  let r := fst (generate_reports E rp (mkState h d [] f o t)) in
  (r = Ret tt <-> Forall (fun kl => h !! snd kl ≫= checksum = None) d)
  /\ (r <> Ret tt ->
      exists msg, r = Raise (Exn UnboundLocalError msg)).
Proof.
  intros Hw Hwf r. subst r. rewrite generate_reports_run by assumption.
  simpl. rewrite <- dupes_map_nil_iff. unfold dupes_outcome.
  destruct (dupes_map h d []) as [|x cd]; split.
  - split; reflexivity.
  - intros H. congruence.
  - split; intros H; discriminate.
  - intros _. eauto.
Qed.

Lemma report_returns_iff_no_checksum_witness :
  reports_writable Demo.env Demo.report_dir []
  /\ store_all record_wf (heap Sample.store_catalog_only)
               (file_path_dict Sample.store_catalog_only)
  /\ fst (generate_reports Demo.env Demo.report_dir Sample.store_catalog_only)
     = Ret tt.
Proof.
  split; [apply demo_reports_writable|].
  split; [apply sample_catalog_only_wf|].
  destruct (report_returns_iff_no_checksum Demo.env Demo.report_dir
              (heap Sample.store_catalog_only)
              (file_path_dict Sample.store_catalog_only) [] [] []
              (demo_reports_writable []) sample_catalog_only_wf) as [H _].
  apply H. repeat constructor.
Defined.

Lemma members_have_checksum h (d : list (string * loc)) (c : string) :
  Forall (fun l => h !! l ≫= checksum = Some c) (members h d c).
Proof.
  unfold members. apply Forall_forall. intros l Hl.
  now apply list_elem_of_filter in Hl as [Hl _].
Qed.

(** X2.  Starting from an empty [checksums_dict], [create_dupes_map]
    returns and groups the store by checksum: the list under a checksum is
    made of the records of the store that have this checksum, once each, in
    store order; it is never empty; records without a checksum are in no
    list; the store itself is untouched. *)
Theorem dupes_map_groups_by_checksum h d f o t :
  store_all (fun _ => True) h d ->
  let run := create_dupes_map (mkState h d [] f o t) in
  fst run = Ret tt
  /\ heap (snd run) = h
  /\ file_path_dict (snd run) = d
  /\ (forall c arr,
         dict_get c (checksums_dict (snd run)) = Some arr ->
         arr = members h d c /\ arr <> []
         /\ Forall (fun l => h !! l ≫= checksum = Some c) arr)
  /\ (forall k l c,
         (k, l) ∈ d -> h !! l ≫= checksum = Some c ->
         exists arr, dict_get c (checksums_dict (snd run)) = Some arr
                     /\ l ∈ arr).
Proof.
  intros Hall run. subst run. rewrite create_dupes_map_run by assumption.
  simpl. repeat split.
  - rewrite dupes_map_get in H. simpl in H.
    destruct (members h d c); [discriminate|]. now inversion H.
  - rewrite dupes_map_get in H. simpl in H.
    destruct (members h d c); [discriminate|]. inversion H. discriminate.
  - rewrite dupes_map_get in H. simpl in H.
    pose proof (members_have_checksum h d c) as Hm.
    destruct (members h d c); [discriminate|]. now inversion H; subst.
  - intros k l c Hin Hc. rewrite dupes_map_get. simpl.
    assert (Hl : l ∈ members h d c).
    { unfold members. apply list_elem_of_filter. split; [exact Hc|].
      apply list_elem_of_In, in_map_iff. exists (k, l). split; [reflexivity|].
      now apply list_elem_of_In. }
    destruct (members h d c) as [|x xs]; [inversion Hl|]. eauto.
Qed.

Lemma dupes_map_groups_by_checksum_witness :
  store_all (fun _ => True) (heap Demo.store_dup) (file_path_dict Demo.store_dup)
  /\ [0; 1] = members (heap Demo.store_dup) (file_path_dict Demo.store_dup)
                      "4038471504".
Proof.
  assert (Hall : store_all (fun _ => True) (heap Demo.store_dup)
                           (file_path_dict Demo.store_dup)).
  { eapply Forall_impl; [apply demo_store_dup_wf|].
    intros kl (ob & Hl & _). eauto. }
  split; [exact Hall|].
  destruct (dupes_map_groups_by_checksum (heap Demo.store_dup)
              (file_path_dict Demo.store_dup) [] [] [] Hall)
    as (_ & _ & _ & H & _).
  refine (proj1 (H "4038471504" [0; 1] _)). vm_compute. reflexivity.
Defined.

(** *** The report generator only reads the store *)

Lemma keeps_bind {A B} (m : M A) (k : A -> M B) :
  keeps_store m -> (forall a, keeps_store (k a)) -> keeps_store (bind m k).
Proof.
  intros Hm Hk s. unfold bind. destruct (Hm s) as [H1 H2].
  destruct (m s) as [[a|e] s1]; simpl in *; [|auto].
  destruct (Hk a s1) as [H3 H4]. split; congruence.
Qed.

Lemma keeps_try_except {A} (body : M A) (handler : exn -> M A) :
  keeps_store body -> (forall e, keeps_store (handler e)) ->
  keeps_store (try_except body handler).
Proof.
  intros Hb Hh s. unfold try_except. destruct (Hb s) as [H1 H2].
  destruct (body s) as [[a|e] s1]; simpl in *; [auto|].
  destruct (is_Exception e); simpl; [|auto].
  destruct (Hh e s1) as [H3 H4]. split; congruence.
Qed.

Lemma keeps_try_except_all {A} (body handler : M A) :
  keeps_store body -> keeps_store handler ->
  keeps_store (try_except_all body handler).
Proof.
  intros Hb Hh s. unfold try_except_all. destruct (Hb s) as [H1 H2].
  destruct (body s) as [[a|e] s1]; simpl in *; [auto|].
  destruct (Hh s1) as [H3 H4]. split; congruence.
Qed.

Lemma keeps_for_each {A} (xs : list A) (body : A -> M unit) :
  (forall x, keeps_store (body x)) -> keeps_store (for_each xs body).
Proof.
  intros Hb. induction xs as [|x xs IH]; simpl.
  - intros s. split; reflexivity.
  - apply keeps_bind; auto.
Qed.

Lemma keeps_ret {A} (a : A) : keeps_store (ret a).
Proof. intros s. split; reflexivity. Qed.

Lemma keeps_raise {A} (e : exn) : keeps_store (@raise A e).
Proof. intros s. split; reflexivity. Qed.

Lemma keeps_gets {A} (g : State -> A) : keeps_store (gets g).
Proof. intros s. split; reflexivity. Qed.

Lemma keeps_emit (e : event) : keeps_store (emit e).
Proof. intros s. split; reflexivity. Qed.

Lemma keeps_deref (l : loc) : keeps_store (deref l).
Proof. intros s. unfold deref. destruct (heap s !! l); split; reflexivity. Qed.

Lemma keeps_must_str (v : option string) : keeps_store (must_str v).
Proof. destruct v; [apply keeps_ret|apply keeps_raise]. Qed.

Lemma keeps_set_checksums_dict (cd : list (string * list loc)) :
  keeps_store (set_checksums_dict cd).
Proof. intros s. split; reflexivity. Qed.

Lemma keeps_add_fs (p : string) : keeps_store (add_fs p).
Proof. intros s. split; reflexivity. Qed.

Lemma keeps_add_opened (p mode : string) : keeps_store (add_opened p mode).
Proof. intros s. split; reflexivity. Qed.

Lemma keeps_os_mkdir (E : Env) (p : string) : keeps_store (os_mkdir E p).
Proof.
  unfold os_mkdir. apply keeps_bind; [apply keeps_gets|]. intros [|].
  - apply keeps_raise.
  - destruct (can_write E p); [|apply keeps_raise].
    apply keeps_bind; [apply keeps_emit|]. intros _. apply keeps_add_fs.
Qed.

Lemma keeps_open_for_writing (E : Env) (p mode : string) :
  keeps_store (open_for_writing E p mode).
Proof.
  unfold open_for_writing. destruct (can_write E p); [|apply keeps_raise].
  apply keeps_bind; [apply keeps_add_fs|]. intros _. apply keeps_add_opened.
Qed.

Lemma keeps_exn_handler (details : exn) :
  keeps_store (bind (exn_message details)
                    (fun m => print ("Exception: " +:+ m))).
Proof.
  apply keeps_bind; [apply keeps_raise|]. intros m. apply keeps_emit.
Qed.

Lemma keeps_create_dupes_map : keeps_store create_dupes_map.
Proof.
  unfold create_dupes_map. apply keeps_try_except; [|apply keeps_exn_handler].
  apply keeps_bind; [apply keeps_gets|]. intros d.
  apply keeps_for_each. intros [k l]. unfold create_dupes_entry.
  apply keeps_bind; [apply keeps_deref|]. intros ob.
  destruct (checksum ob) as [c|]; [|apply keeps_ret].
  apply keeps_bind; [apply keeps_gets|]. intros cd.
  apply keeps_bind.
  { destruct (dict_mem c cd); [apply keeps_ret|apply keeps_set_checksums_dict]. }
  intros _. apply keeps_bind; [apply keeps_gets|]. intros cd'.
  destruct (dict_get c cd'); [apply keeps_set_checksums_dict|apply keeps_raise].
Qed.

Lemma keeps_classify (E : Env) (fh1 fh2 fh3 : nat) (l : loc) :
  keeps_store (classify E fh1 fh2 fh3 l).
Proof.
  unfold classify. apply keeps_bind; [apply keeps_deref|]. intros ob.
  destruct (itunes_file_path ob) as [ip|].
  - destruct (file_path ob) as [p|]; [|apply keeps_emit].
    apply keeps_bind; [apply keeps_must_str|]. intros n. apply keeps_emit.
  - apply keeps_bind; [apply keeps_must_str|]. intros n.
    apply keeps_bind; [apply keeps_must_str|]. intros p. apply keeps_emit.
Qed.

Lemma keeps_find_file_in_itunes (arr : list loc) :
  forall prev, keeps_store (find_file_in_itunes prev arr).
Proof.
  induction arr as [|cur arr IH]; intros prev; simpl; [apply keeps_ret|].
  apply keeps_bind; [apply keeps_deref|]. intros ob.
  destruct (itunes_file_path ob) as [ip|]; [|apply IH].
  apply keeps_bind; [|intros _; apply IH].
  destruct prev as [p|]; [|apply keeps_ret].
  apply keeps_bind; [apply keeps_deref|]. intros po.
  apply keeps_bind; [apply keeps_must_str|]. intros n. apply keeps_emit.
Qed.

Lemma keeps_dupe_group (fh : nat) (arr : list loc) :
  keeps_store (dupe_group fh arr).
Proof.
  unfold dupe_group. apply keeps_bind; [apply keeps_find_file_in_itunes|].
  intros orig. apply keeps_for_each. intros cur. unfold report_member.
  destruct orig as [b|].
  - destruct (decide (b = cur)) as [|Hne]; [apply keeps_ret|].
    apply keeps_bind; [apply keeps_deref|]. intros ob.
    apply keeps_bind; [apply keeps_must_str|]. intros n.
    apply keeps_bind; [apply keeps_must_str|]. intros p. apply keeps_emit.
  - apply keeps_bind; [apply keeps_deref|]. intros ob.
    apply keeps_bind; [apply keeps_must_str|]. intros p. apply keeps_emit.
Qed.

Lemma keeps_dupes_pass (fh : nat) : keeps_store (dupes_pass fh).
Proof.
  unfold dupes_pass. apply keeps_bind; [apply keeps_gets|]. intros cd.
  apply keeps_for_each. intros [c arr].
  apply keeps_bind; [apply keeps_raise|]. intros n.
  destruct (Nat.ltb 1 n); [apply keeps_dupe_group|apply keeps_ret].
Qed.

(** X3.  [generate_reports] never changes the store: whatever the state,
    the report directory and the file system, and however the call ends (a
    normal return or any exception), the objects and [file_path_dict] are
    afterwards what they were before. *)
Theorem report_never_changes_store (E : Env) (rp : string) (s : State) :
  heap (snd (generate_reports E rp s)) = heap s
  /\ file_path_dict (snd (generate_reports E rp s)) = file_path_dict s.
Proof.
  revert s. change (keeps_store (generate_reports E rp)).
  unfold generate_reports.
  apply keeps_bind; [apply keeps_gets|]. intros ex.
  apply keeps_bind.
  { destruct ex; [apply keeps_ret|apply keeps_os_mkdir]. }
  intros _. apply keeps_bind; [apply keeps_create_dupes_map|]. intros _.
  apply keeps_bind; [apply keeps_open_for_writing|]. intros fh1.
  apply keeps_bind; [apply keeps_open_for_writing|]. intros fh2.
  apply keeps_bind; [apply keeps_open_for_writing|]. intros fh3.
  apply keeps_bind; [apply keeps_open_for_writing|]. intros fh4.
  apply keeps_bind.
  { apply keeps_try_except; [|apply keeps_exn_handler].
    apply keeps_bind; [apply keeps_gets|]. intros d.
    apply keeps_for_each. intros [k l]. apply keeps_classify. }
  intros _. apply keeps_try_except_all; [apply keeps_dupes_pass|].
  apply keeps_bind; [apply keeps_raise|]. intros m. apply keeps_emit.
Qed.

Lemma classify_nameless (E : Env) h d cd f o t (fh1 fh2 fh3 : nat) (l : loc)
      (ob : FileAttributes) :
  h !! l = Some ob ->
  file_name ob = None ->
  itunes_file_path ob = None \/ is_Some (file_path ob) ->
  classify E fh1 fh2 fh3 l (mkState h d cd f o t)
  = (Raise (Exn TypeError "can only concatenate str (not NoneType) to str"),
     mkState h d cd f o t).
Proof.
  intros Hl Hn Hcase. unfold classify, bind, deref. simpl. rewrite Hl, Hn.
  destruct (itunes_file_path ob) as [ip|] eqn:Hip.
  - destruct Hcase as [|[p Hp]]; [discriminate|]. rewrite Hp. reflexivity.
  - reflexivity.
Qed.

(** X4.  A record without a name that is on disk or not in the catalogue
    (a snapshot can hold one) stops the report: the rows of the records
    before it in the store are written, then the concatenation raises, the
    handler of the first loop raises in turn on [details.message], and
    [generate_reports] ends in [AttributeError]; the records after it are
    not written and the duplicates loop is not run. *)
Theorem nameless_record_aborts_report
        (E : Env) (rp : string) h d1 d2 (k : string) (l : loc)
        (ob : FileAttributes) cd f o t :
  reports_writable E rp f ->
  store_all (fun _ => True) h (d1 ++ (k, l) :: d2) ->
  store_all record_wf h d1 ->
  h !! l = Some ob ->
  file_name ob = None ->
  itunes_file_path ob = None \/ is_Some (file_path ob) ->
  let run := generate_reports E rp (mkState h (d1 ++ (k, l) :: d2) cd f o t) in
  (exists msg, fst run = Raise (Exn AttributeError msg))
  /\ trace (snd run)
     = t ++ (if bool_decide (rp ∈ f) then [] else [Mkdir rp])
         ++ classification E h d1 (length o).
Proof.
  intros [Hdir Hfiles] Htrue Hwf Hl Hn Hcase run. subst run.
  unfold report_files in Hfiles.
  apply Forall_cons in Hfiles as [H1 Hfiles].
  apply Forall_cons in Hfiles as [_ Hfiles].
  apply Forall_cons in Hfiles as [H3 Hfiles].
  apply Forall_cons in Hfiles as [H4 _]. simpl in H1, H3, H4.
  unfold generate_reports.
  erewrite bind_ret_run by reflexivity. simpl.
  set (d := d1 ++ (k, l) :: d2) in *.
  set (f0 := if bool_decide (rp ∈ f) then f else fs_add rp f).
  set (t0 := t ++ (if bool_decide (rp ∈ f) then [] else [Mkdir rp])).
  assert (Hmk : (if bool_decide (rp ∈ f) then ret tt else os_mkdir E rp)
                  (mkState h d cd f o t)
                = (Ret tt, mkState h d cd f0 o t0)).
  { subst f0 t0. destruct (bool_decide (rp ∈ f)) eqn:Hex.
    - now rewrite app_nil_r.
    - unfold os_mkdir. erewrite bind_ret_run by reflexivity. simpl.
      rewrite Hex. destruct Hdir as [Hin|Hcw].
      + apply bool_decide_eq_false in Hex. contradiction.
      + rewrite Hcw. reflexivity. }
  erewrite bind_ret_run by exact Hmk.
  erewrite bind_ret_run by (apply create_dupes_map_run; exact Htrue).
  erewrite bind_ret_run by (apply open_for_writing_run; exact H1).
  erewrite bind_ret_run by (apply open_for_writing_run; exact H1).
  erewrite bind_ret_run by (apply open_for_writing_run; exact H3).
  erewrite bind_ret_run by (apply open_for_writing_run; exact H4).
  erewrite bind_raise_run.
  2:{ unfold try_except. erewrite bind_ret_run by reflexivity. simpl.
      rewrite !length_app. simpl.
      replace (length o + 1 + 1) with (S (S (length o))) by lia.
      replace (length o + 1) with (S (length o)) by lia.
      subst d. rewrite for_each_app.
      erewrite bind_ret_run by (apply classify_loop_run; exact Hwf).
      simpl. erewrite bind_raise_run by (eapply classify_nameless; eauto).
      simpl. reflexivity. }
  simpl. split; [eauto|]. subst t0. now rewrite <- app_assoc.
Qed.

Lemma nameless_record_aborts_report_witness :
  reports_writable Demo.env Demo.report_dir []
  /\ heap Sample.store_nameless !! 1 = Some Sample.rec_nameless
  /\ printed (trace (snd (generate_reports Demo.env Demo.report_dir
                                           Sample.store_nameless))) = []
  /\ trace (snd (generate_reports Demo.env Demo.report_dir
                                  Sample.store_nameless))
     = [] ++ [Mkdir Demo.report_dir]
          ++ classification Demo.env (heap Sample.store_nameless)
                            [("/m/gone.mp3", 0)] 0.
Proof.
  split; [apply demo_reports_writable|]. split; [reflexivity|].
  split; [vm_compute; reflexivity|].
  refine (proj2 (nameless_record_aborts_report Demo.env Demo.report_dir
                   (heap Sample.store_nameless) [("/m/gone.mp3", 0)]
                   [("/m/a.mp3", 2)] "/m/x.mp3" 1 Sample.rec_nameless
                   [] [] [] [] (demo_reports_writable []) _ _ eq_refl eq_refl
                   (or_introl eq_refl))).
  - repeat constructor; simpl; eexists; split; reflexivity || exact I.
  - repeat constructor; simpl; eexists; (split; [reflexivity|]);
      split; simpl; intros H;
      solve [eauto | discriminate | destruct H; discriminate].
Defined.

(** ** The script body *)

(** X5.  A run with [--cache] whose snapshot cannot be loaded stops before
    any report: the script prints its two header lines, the loading line and
    the failure, and exits with status -1; nothing is scanned, no catalogue
    is read, no directory or file is created. *)
Theorem unreadable_cache_exits
        (E : Env) (argv : list string) (args : Args) (e : exn) :
  parse_args E (good_args (tail argv)) = Ret args ->
  cache_file args <> EmptyString ->
  pickle_load E (cache_file args) = Raise e ->
  is_Exception e = true ->
  main E argv initial_state
  = (Raise (Exn SystemExit "-1"),
     mkState [] [] [] [] []
       [Print ("iTunes Library root directory: " +:+ fst (fst (selection args)));
        Print ("XML Library file: " +:+ snd (fst (selection args)));
        Print ("Loading cached data from: " +:+ cache_file args);
        Print ("Exception while loading cached data from " +:+ cache_file args
               +:+ " " +:+ exn_msg e)]).
Proof.
  intros Hparse Hcache Hload He.
  unfold main. erewrite bind_ret_run by (apply read_args_run; exact Hparse).
  unfold selection. simpl.
  erewrite bind_ret_run by reflexivity.
  erewrite bind_ret_run by reflexivity.
  destruct (decide (cache_file args = EmptyString)) as [Heq|_]; [contradiction|].
  erewrite bind_raise_run; [reflexivity|].
  unfold load_snapshot, try_except.
  erewrite bind_ret_run by reflexivity.
  erewrite bind_raise_run by (unfold lift; rewrite Hload; reflexivity).
  rewrite He. reflexivity.
Qed.

Lemma unreadable_cache_exits_witness :
  parse_args Demo.env (good_args (tail ["dupe_checker.py"; "--cache"; "old.pkl"]))
  = Ret (mkArgs EmptyString EmptyString "old.pkl")
  /\ fst (main Demo.env ["dupe_checker.py"; "--cache"; "old.pkl"] initial_state)
     = Raise (Exn SystemExit "-1").
Proof.
  split; [reflexivity|].
  now rewrite (unreadable_cache_exits Demo.env
                 ["dupe_checker.py"; "--cache"; "old.pkl"]
                 (mkArgs EmptyString EmptyString "old.pkl")
                 (Exn OSError "No such file or directory")
                 eq_refl ltac:(discriminate) eq_refl eq_refl).
Defined.

Lemma dict_set_fresh {V} (d : list (string * V)) (k : string) (v : V) :
  k ∉ map fst d -> dict_set k v d = d ++ [(k, v)].
Proof.
  induction d as [|[k' v'] d IH]; simpl; intros Hk; [reflexivity|].
  destruct (decide (k = k')) as [->|Hne].
  - exfalso. apply Hk. apply elem_of_cons. now left.
  - f_equal. apply IH. intros Hin. apply Hk. apply elem_of_cons. now right.
Qed.

Lemma bound_from_keys (loaded : list (string * FileAttributes)) :
  forall n, map fst (bound_from n loaded) = map fst loaded.
Proof.
  induction loaded as [|[k ob] rest IH]; intros n; simpl; [reflexivity|].
  now rewrite IH.
Qed.

Lemma bind_loaded_loop cd f o t (loaded : list (string * FileAttributes)) :
  forall d0 h,
    NoDup (map fst d0 ++ map fst loaded) ->
    for_each loaded (fun '(k, ob) =>
                       l <- new_object ob ;;
                       d <- gets file_path_dict ;;
                       set_file_path_dict (dict_set k l d))
             (mkState h d0 cd f o t)
    = (Ret tt,
       mkState (h ++ map snd loaded)
               (d0 ++ bound_from (length h) loaded) cd f o t).
Proof.
  induction loaded as [|[k ob] rest IH]; intros d0 h Hnd; simpl.
  - now rewrite !app_nil_r.
  - assert (Hk : k ∉ map fst d0).
    { apply NoDup_app in Hnd as (_ & Hdisj & _). intros Hin.
      apply (Hdisj k Hin). apply elem_of_cons. now left. }
    erewrite bind_ret_run.
    2:{ instantiate (1 := mkState (h ++ [ob]) (d0 ++ [(k, length h)])
                                  cd f o t).
        unfold bind, new_object, gets, set_file_path_dict. simpl.
        now rewrite (dict_set_fresh d0 k _ Hk). }
    rewrite (IH (d0 ++ [(k, length h)]) (h ++ [ob])).
    + rewrite length_app. simpl. rewrite <- !app_assoc. simpl.
      replace (length h + 1) with (S (length h)) by lia. reflexivity.
    + rewrite map_app. simpl. rewrite <- app_assoc. exact Hnd.
Qed.

Lemma bind_loaded_run h d cd f o t (loaded : list (string * FileAttributes)) :
  NoDup (map fst loaded) ->
  bind_loaded loaded (mkState h d cd f o t)
  = (Ret tt,
     mkState (h ++ map snd loaded) (bound_from (length h) loaded) cd f o t).
Proof.
  intros Hnd. unfold bind_loaded. unfold bind at 1. simpl.
  exact (bind_loaded_loop cd f o t loaded [] h Hnd).
Qed.

Lemma snapshot_of_bound (loaded : list (string * FileAttributes)) :
  forall h cd f o t,
    store_snapshot (mkState (h ++ map snd loaded)
                            (bound_from (length h) loaded) cd f o t)
    = loaded.
Proof.
  unfold store_snapshot. simpl.
  induction loaded as [|[k ob] rest IH]; intros h cd f o t; [reflexivity|].
  simpl. rewrite list_lookup_middle by reflexivity. simpl. f_equal.
  specialize (IH (h ++ [ob]) cd f o t).
  rewrite length_app, <- app_assoc in IH. simpl in IH.
  replace (length h + 1) with (S (length h)) in IH by lia. exact IH.
Qed.

Lemma bound_from_ge (loaded : list (string * FileAttributes)) :
  forall n m, n <= m -> Forall (fun kl => n <= snd kl) (bound_from m loaded).
Proof.
  induction loaded as [|[k ob] rest IH]; intros n m Hle; simpl;
    constructor; [exact Hle|]. apply IH. lia.
Qed.

(** X6.  Loading a snapshot binds [file_path_dict] to a dictionary with the
    keys of the snapshot, in the same order, each referring to a new object
    equal to the saved record: dumping the store that results gives the
    snapshot back.  The objects that existed before are left alone and no
    key refers to them. *)
Theorem loaded_snapshot_round_trip
        (loaded : list (string * FileAttributes)) (s : State) :
  NoDup (map fst loaded) ->
  let run := bind_loaded loaded s in
  fst run = Ret tt
  /\ store_snapshot (snd run) = loaded
  /\ map fst (file_path_dict (snd run)) = map fst loaded
  /\ heap (snd run) = heap s ++ map snd loaded
  /\ Forall (fun kl => length (heap s) <= snd kl) (file_path_dict (snd run)).
Proof.
  intros Hnd run. subst run. destruct s as [h d cd f o t].
  rewrite bind_loaded_run by exact Hnd. simpl.
  split; [reflexivity|]. split; [apply snapshot_of_bound|].
  split; [apply bound_from_keys|]. split; [reflexivity|].
  now apply bound_from_ge.
Qed.

Lemma loaded_snapshot_round_trip_witness :
  NoDup (map fst [("/m/a.mp3", Demo.rec_a); ("/m/b.mp3", Demo.rec_b)])
  /\ store_snapshot
       (snd (bind_loaded [("/m/a.mp3", Demo.rec_a); ("/m/b.mp3", Demo.rec_b)]
                         Demo.store_dup))
     = [("/m/a.mp3", Demo.rec_a); ("/m/b.mp3", Demo.rec_b)].
Proof.
  assert (Hnd : NoDup (map fst [("/m/a.mp3", Demo.rec_a);
                                ("/m/b.mp3", Demo.rec_b)])).
  { apply (bool_decide_unpack _). vm_compute. exact I. }
  split; [exact Hnd|].
  apply (loaded_snapshot_round_trip _ Demo.store_dup Hnd).
Defined.

Lemma lacks_cons (c a : ascii) (s : string) :
  lacks c (String a s) -> a <> c /\ lacks c s.
Proof.
  intros H. split.
  - intros ->. apply (H 0). reflexivity.
  - intros i. apply (H (S i)).
Qed.

(** [replace] leaves a string alone in which the first character of the
    pattern does not occur. *)
Lemma replace_lacks (c : ascii) (old' new s : string) :
  lacks c s -> PyStr.replace s (String c old') new = s.
Proof.
  unfold PyStr.replace. induction s as [|a s IH]; intros H; [reflexivity|].
  apply lacks_cons in H as [Hne Hs].
  rewrite replace_from_cons, prefix_cons.
  destruct (Ascii.ascii_dec c a) as [->|_]; [congruence|].
  f_equal. now apply IH.
Qed.

(** X7.  When the name of the catalogue file contains no dot and no blank,
    the snapshot path is the name of the catalogue file itself: a fresh run
    opens the catalogue export for writing and dumps the store over it. *)
Theorem snapshot_overwrites_plain_xml_name
        (E : Env) (xml : string) (s : State) :
  lacks "."%char xml ->
  lacks " "%char xml ->
  snapshot_path xml = xml
  /\ (can_write E xml = true ->
      opened (snd (save_snapshot E xml s)) = opened s ++ [(xml, "wb")]).
Proof.
  intros Hdot Hblank.
  assert (Hp : snapshot_path xml = xml).
  { unfold snapshot_path.
    rewrite (replace_lacks "." "xml" ".pkl" xml Hdot).
    apply (replace_lacks " " EmptyString "_" xml Hblank). }
  split; [exact Hp|]. intros Hw. destruct s as [h d cd f o t].
  pose proof (save_snapshot_run E xml h d cd f o t) as Hrun.
  cbv zeta in Hrun. rewrite Hrun, Hp, Hw. reflexivity.
Qed.

Lemma snapshot_overwrites_plain_xml_name_witness :
  lacks "."%char "Library" /\ lacks " "%char "Library"
  /\ snapshot_path "Library" = "Library".
Proof.
  assert (H1 : lacks "."%char "Library").
  { intros i. do 8 (destruct i as [|i]; [discriminate|]). discriminate. }
  assert (H2 : lacks " "%char "Library").
  { intros i. do 8 (destruct i as [|i]; [discriminate|]). discriminate. }
  split; [exact H1|]. split; [exact H2|].
  exact (proj1 (snapshot_overwrites_plain_xml_name Demo.env "Library"
                  initial_state H1 H2)).
Defined.

Lemma read_args_exception_run (E : Env) (argv : list string) (e : exn)
      h d cd f o t :
  parse_args E (good_args (tail argv)) = Raise e ->
  is_Exception e = true ->
  read_args E argv (mkState h d cd f o t)
  = (Ret None,
     mkState h d cd f o
       (t ++ [Print ("Exception: " +:+ exn_msg e);
              Print "usage: dupe_checker.py [-h] [--xml XML_FILE] [--dir ITUNES_DIR] [--cache CACHE_FILE]"])).
Proof.
  intros Hparse He. unfold read_args, try_except.
  erewrite bind_raise_run by (unfold lift; rewrite Hparse; reflexivity).
  rewrite He. unfold bind, print_exception, print, emit, ret. simpl.
  now rewrite <- app_assoc.
Qed.

(** X8.  When [parse_args] raises, no default is applied and nothing is
    scanned: a [SystemExit] (argparse's usage error) leaves the script at
    once; any other exception is printed with the usage line, after which
    the script stops with [NameError] because [walk_dir] was never bound. *)
Theorem failed_argument_parsing
        (E : Env) (argv : list string) (e : exn) (s : State) :
  parse_args E (good_args (tail argv)) = Raise e ->
  (is_Exception e = false -> main E argv s = (Raise e, s))
  /\ (is_Exception e = true ->
      exists msg,
        fst (main E argv s) = Raise (Exn NameError msg)
        /\ heap (snd (main E argv s)) = heap s
        /\ file_path_dict (snd (main E argv s)) = file_path_dict s
        /\ opened (snd (main E argv s)) = opened s
        /\ exists usage,
            trace (snd (main E argv s))
            = trace s ++ [Print ("Exception: " +:+ exn_msg e); Print usage]).
Proof.
  intros Hparse. split; intros He.
  - unfold main. erewrite bind_raise_run; [reflexivity|].
    unfold read_args, try_except.
    erewrite bind_raise_run by (unfold lift; rewrite Hparse; reflexivity).
    now rewrite He.
  - destruct s as [h d cd f o t]. unfold main.
    erewrite bind_ret_run by (apply read_args_exception_run; eassumption).
    simpl. eexists. repeat split. eexists. reflexivity.
Qed.

Lemma failed_argument_parsing_witness :
  parse_args Demo.env (good_args (tail ["dupe_checker.py"; "--bogus"]))
  = Raise (Exn SystemExit "2")
  /\ main Demo.env ["dupe_checker.py"; "--bogus"] initial_state
     = (Raise (Exn SystemExit "2"), initial_state).
Proof.
  split; [reflexivity|].
  apply (failed_argument_parsing Demo.env ["dupe_checker.py"; "--bogus"]
           (Exn SystemExit "2") initial_state eq_refl).
  reflexivity.
Defined.

Lemma append_empty_r (s : string) : s +:+ EmptyString = s.
Proof.
  induction s as [|c s IH]; [reflexivity|].
  change (String c (s +:+ EmptyString) = String c s). now rewrite IH.
Qed.

Lemma append_snoc (cur : string) (a : ascii) (n : string) :
  (cur +:+ String a EmptyString) +:+ n = cur +:+ String a n.
Proof.
  induction cur as [|c cur IH]; [reflexivity|].
  change (String c ((cur +:+ String a EmptyString) +:+ n)
          = String c (cur +:+ String a n)).
  now rewrite IH.
Qed.

Lemma basename_from_lacks (n : string) :
  lacks "/"%char n -> forall cur, PyStr.basename_from cur n = cur +:+ n.
Proof.
  induction n as [|a n IH]; intros H cur; simpl.
  - now rewrite append_empty_r.
  - apply lacks_cons in H as [Hne Hn].
    destruct (Ascii.eqb a "/") eqn:Ha.
    + apply Ascii.eqb_eq in Ha. contradiction.
    + rewrite IH by exact Hn. apply append_snoc.
Qed.

Lemma basename_from_slash (dir n : string) :
  forall cur,
    PyStr.basename_from cur (dir +:+ String "/" n)
    = PyStr.basename_from EmptyString n.
Proof.
  induction dir as [|a dir IH]; intros cur; simpl.
  - reflexivity.
  - destruct (Ascii.eqb a "/"); apply IH.
Qed.

(** X9.  The report directory depends on the last component of the
    catalogue path only: two exports with the same file name in different
    directories report into the same [./output_.../] directory. *)
Theorem report_directory_of_base_name (dir name : string) :
  lacks "/"%char name ->
  PyStr.basename (dir +:+ String "/" name) = name
  /\ report_directory (dir +:+ String "/" name) = report_directory name.
Proof.
  intros Hname.
  assert (Hb : PyStr.basename (dir +:+ String "/" name) = name).
  { unfold PyStr.basename. rewrite basename_from_slash.
    now rewrite basename_from_lacks. }
  assert (Hn : PyStr.basename name = name).
  { unfold PyStr.basename. now rewrite basename_from_lacks. }
  split; [exact Hb|]. unfold report_directory. now rewrite Hb, Hn.
Qed.

Lemma report_directory_of_base_name_witness :
  lacks "/"%char "Lib.xml"
  /\ report_directory ("/Volumes/Raid" +:+ String "/" "Lib.xml")
     = report_directory "Lib.xml".
Proof.
  assert (H : lacks "/"%char "Lib.xml").
  { intros i. do 8 (destruct i as [|i]; [discriminate|]). discriminate. }
  split; [exact H|].
  exact (proj2 (report_directory_of_base_name "/Volumes/Raid" "Lib.xml" H)).
Defined.

(** ** The catalogue pass *)

Lemma iter_unfold (tg : string) (tx : option string) (cs : list Element) :
  iter (Elem tg tx cs) = Elem tg tx cs :: flat_map iter cs.
Proof.
  reflexivity.
Qed.

Lemma flat_map_iter_leaves (cs : list Element) :
  Forall (fun c => children c = [] /\ tag c <> "dict") cs ->
  flat_map iter cs = cs.
Proof.
  induction 1 as [|[tg tx gs] cs [Hleaf _] _ IH]; [reflexivity|].
  simpl in Hleaf. subst gs. simpl. now rewrite IH.
Qed.

Lemma catalog_nodes_leaves (E : Env) (cs rest : list Element) :
  Forall (fun c => children c = [] /\ tag c <> "dict") cs ->
  forall cur_key,
    catalog_nodes E cur_key (cs ++ rest)
    = catalog_nodes E (last_key cur_key cs) rest.
Proof.
  induction 1 as [|c cs [_ Hnd] _ IH]; intros cur_key; [reflexivity|].
  simpl. unfold last_key. simpl.
  destruct (bool_decide (tag c = "key")); [apply IH|].
  rewrite (bool_decide_eq_false_2 _ Hnd). apply IH.
Qed.

(** X10.  For tracks laid out as iTunes exports them, the key stored with
    a track is not read from that track: the track is merged with the value
    [cur_key] has when the track's element is met, and the keys inside it
    take effect afterwards.  The first track of the document is therefore
    merged with [-1], and every later one with the text of the last [key]
    element of the track before it. *)
Theorem track_key_comes_from_previous_track
        (E : Env) (t : Element) (rest : list Element) (cur_key : pyval) :
  flat_track t ->
  catalog_nodes E cur_key (flat_map iter (t :: rest))
  = (catalog_entry E cur_key t ;;
     catalog_nodes E (last_key cur_key (children t)) (flat_map iter rest)).
Proof.
  intros [Htag Hleaves]. destruct t as [tg tx cs]. simpl in Htag, Hleaves.
  subst tg. change (flat_map iter (Elem "dict" tx cs :: rest))
    with (iter (Elem "dict" tx cs) ++ flat_map iter rest).
  rewrite iter_unfold, (flat_map_iter_leaves cs Hleaves).
  change ((Elem "dict" tx cs :: cs) ++ flat_map iter rest)
    with (Elem "dict" tx cs :: (cs ++ flat_map iter rest)).
  cbn [catalog_nodes tag].
  rewrite (bool_decide_eq_false_2 ("dict" = "key")) by discriminate.
  rewrite (bool_decide_eq_true_2 ("dict" = "dict")) by reflexivity.
  now rewrite (catalog_nodes_leaves E cs _ Hleaves).
Qed.

Lemma demo_track_flat (name location : string) :
  flat_track (Demo.track name location).
Proof.
  split; [reflexivity|]. repeat constructor; simpl; discriminate.
Qed.

Lemma track_key_comes_from_previous_track_witness :
  flat_track (Demo.track "One" "file:///m/a.mp3")
  /\ last_key (PInt (-1)) (children (Demo.track "One" "file:///m/a.mp3"))
     = PStr "Location"
  /\ catalog_nodes Demo.env (PInt (-1))
       (flat_map iter [Demo.track "One" "file:///m/a.mp3";
                       Demo.track "Gone" "file:///m/gone.mp3"])
     = (catalog_entry Demo.env (PInt (-1)) (Demo.track "One" "file:///m/a.mp3") ;;
        catalog_nodes Demo.env
          (last_key (PInt (-1)) (children (Demo.track "One" "file:///m/a.mp3")))
          (flat_map iter [Demo.track "Gone" "file:///m/gone.mp3"])).
Proof.
  split; [apply demo_track_flat|]. split; [reflexivity|].
  apply (track_key_comes_from_previous_track Demo.env).
  apply demo_track_flat.
Defined.

Lemma prefix_append (a p : string) : String.prefix a (a +:+ p) = true.
Proof.
  induction a as [|c a IH]; [apply prefix_nil|].
  change (String c a +:+ p) with (String c (a +:+ p)).
  rewrite prefix_cons. destruct (Ascii.ascii_dec c c); [exact IH|congruence].
Qed.

(** X11.  [.replace('file://','')] removes the marker wherever it stands,
    not only in front: a leading [file://] is dropped and the rest is
    treated in the same way, and a [file://] that follows a part without
    the letter f is dropped as well. *)
Theorem file_marker_removed_everywhere (a p : string) :
  PyStr.replace ("file://" +:+ p) "file://" EmptyString
  = PyStr.replace p "file://" EmptyString
  /\ (lacks "f"%char a ->
      PyStr.replace (a +:+ "file://" +:+ p) "file://" EmptyString
      = a +:+ PyStr.replace p "file://" EmptyString).
Proof.
  assert (Hfront : forall q,
             PyStr.replace ("file://" +:+ q) "file://" EmptyString
             = PyStr.replace q "file://" EmptyString).
  { intros q. unfold PyStr.replace.
    change ("file://" +:+ q) with (String "f" ("ile://" +:+ q)).
    rewrite replace_from_cons.
    change (String "f" ("ile://" +:+ q)) with ("file://" +:+ q).
    rewrite prefix_append. reflexivity. }
  split; [apply Hfront|].
  intros Ha. induction a as [|c a IH]; [apply Hfront|].
  apply lacks_cons in Ha as [Hne Ha].
  change (String c a +:+ "file://" +:+ p)
    with (String c (a +:+ "file://" +:+ p)).
  unfold PyStr.replace in *. rewrite replace_from_cons, prefix_cons.
  destruct (Ascii.ascii_dec "f" c) as [Heq|_];
    [symmetry in Heq; contradiction|].
  change (String c a +:+ PyStr.replace_from 0 "file://" EmptyString p)
    with (String c (a +:+ PyStr.replace_from 0 "file://" EmptyString p)).
  f_equal. now apply IH.
Qed.

Lemma file_marker_removed_everywhere_witness :
  lacks "f"%char "/m/"
  /\ PyStr.replace ("/m/" +:+ "file://" +:+ "a.mp3") "file://" EmptyString
     = "/m/" +:+ PyStr.replace "a.mp3" "file://" EmptyString.
Proof.
  assert (H : lacks "f"%char "/m/").
  { intros i. do 4 (destruct i as [|i]; [discriminate|]). discriminate. }
  split; [exact H|].
  exact (proj2 (file_marker_removed_everywhere "/m/" "a.mp3") H).
Defined.

(** X12.  A catalogue entry is merged only if it has both a [Location] and
    a [Name]: without [Location], with an empty [Location] element, or with
    a location but without [Name], the entry is skipped, one line
    [Exception: ...] is printed, the store is left as it is and the pass
    goes on. *)
Theorem entry_without_location_or_name_skipped
        (E : Env) (cur_key : pyval) (data : Element) h d cd f o t :
  let this_dict := fill_this_dict data in
  let skipped msg :=
    catalog_entry E cur_key data (mkState h d cd f o t)
    = (Ret tt, mkState h d cd f o (t ++ [Print ("Exception: " +:+ msg)])) in
  (dict_get (Some "Location") this_dict = None -> skipped "'Location'")
  /\ (dict_get (Some "Location") this_dict = Some None ->
      skipped "argument of type 'NoneType' is not iterable")
  /\ (forall location,
         dict_get (Some "Location") this_dict = Some (Some location) ->
         dict_get (Some "Name") this_dict = None ->
         skipped "'Name'").
Proof.
  intros this_dict skipped. subst skipped. cbv beta.
  unfold catalog_entry, try_except, this_dict_item. fold this_dict.
  split; [|split].
  - intros Hl. unfold bind at 1. now rewrite Hl.
  - intros Hl. unfold bind at 1. rewrite Hl. simpl. reflexivity.
  - intros location Hl Hn. unfold bind. rewrite Hl. simpl. rewrite Hn.
    reflexivity.
Qed.

Lemma entry_without_location_or_name_skipped_witness :
  dict_get (Some "Location") (fill_this_dict Sample.track_unnamed)
  = Some (Some "file:///m/a.mp3")
  /\ dict_get (Some "Name") (fill_this_dict Sample.track_unnamed) = None
  /\ catalog_entry Demo.env (PInt (-1)) Sample.track_unnamed
                   (mkState [] [] [] [] [] [])
     = (Ret tt, mkState [] [] [] [] [] ([] ++ [Print ("Exception: " +:+ "'Name'")])).
Proof.
  split; [reflexivity|]. split; [reflexivity|].
  destruct (entry_without_location_or_name_skipped Demo.env (PInt (-1))
              Sample.track_unnamed [] [] [] [] [] []) as (_ & _ & H).
  exact (H "file:///m/a.mp3" eq_refl eq_refl).
Defined.

(** X13.  A catalogue document that cannot be parsed is reported in one
    line and changes nothing else; a document without any element at
    [./dict/dict/dict] changes nothing at all.  In both cases
    [read_itunes_library] returns. *)
Theorem unreadable_or_empty_catalog
        (E : Env) (xml : string) h d cd f o t :
  (forall e, ET_parse E xml = Raise e -> is_Exception e = true ->
             read_itunes_library E xml (mkState h d cd f o t)
             = (Ret tt,
                mkState h d cd f o (t ++ [Print ("Exception: " +:+ exn_msg e)])))
  /\ (forall root, ET_parse E xml = Ret root -> findall_dict3 root = [] ->
                   read_itunes_library E xml (mkState h d cd f o t)
                   = (Ret tt, mkState h d cd f o t)).
Proof.
  split.
  - intros e Hp He. unfold read_itunes_library, try_except.
    erewrite bind_raise_run by (unfold lift; rewrite Hp; reflexivity).
    now rewrite He.
  - intros root Hp Hnone. unfold read_itunes_library, try_except.
    erewrite bind_ret_run by (unfold lift; rewrite Hp; reflexivity).
    now rewrite Hnone.
Qed.

Lemma unreadable_or_empty_catalog_witness :
  ET_parse Demo.env "missing.xml" = Raise (Exn ParseError "no element found")
  /\ read_itunes_library Demo.env "missing.xml" (mkState [] [] [] [] [] [])
     = (Ret tt,
        mkState [] [] [] [] []
                ([] ++ [Print ("Exception: " +:+ "no element found")])).
Proof.
  split; [reflexivity|].
  exact (proj1 (unreadable_or_empty_catalog Demo.env "missing.xml"
                  [] [] [] [] [] [])
               (Exn ParseError "no element found") eq_refl eq_refl).
Defined.

(** X14.  Two catalogue entries with the same path make one record: the
    second merge finds the record of the first, creates nothing, prints no
    warning, and replaces the stored key by its own. *)
Theorem second_merge_overwrites_key
        (p : string) (k1 k2 : pyval) (s : State) :
  store_inv (fun _ => True) s ->
  let s1 := snd (merge_entry p k1 s) in
  let s2 := snd (merge_entry p k2 s1) in
  fst (merge_entry p k2 s1) = Ret tt
  /\ file_path_dict s2 = file_path_dict s1
  /\ length (heap s2) = length (heap s1)
  /\ trace s2 = trace s1
  /\ record_at s2 p = set_itunes_key k2 <$> record_at s1 p
  /\ itunes_key <$> record_at s2 p = Some k2.
Proof.
  intros Hinv s1 s2. subst s1 s2. destruct s as [h d cd f o t].
  unfold store_inv in Hinv. simpl in Hinv.
  rewrite merge_entry_run. destruct (dict_get p d) as [l|] eqn:Hg.
  - apply dict_get_elem in Hg as Hin.
    destruct (proj1 (Forall_forall _ _) Hinv _ Hin) as (ob & Hob & _).
    simpl in Hob. rewrite Hob. simpl. rewrite merge_entry_run, Hg.
    assert (Hlt : l < length h) by (eapply lookup_lt_Some; eauto).
    rewrite list_lookup_insert_eq by exact Hlt. simpl.
    unfold record_at. simpl. rewrite Hg. simpl.
    rewrite list_insert_insert_eq, !length_insert.
    rewrite !list_lookup_insert_eq by exact Hlt. simpl.
    repeat split; reflexivity.
  - simpl. rewrite merge_entry_run, dict_get_set_eq.
    rewrite list_lookup_middle by reflexivity. simpl.
    unfold record_at. simpl. rewrite dict_get_set_eq. simpl.
    rewrite insert_last, !length_app.
    rewrite !list_lookup_middle by reflexivity. simpl.
    repeat split; reflexivity.
Qed.

Lemma second_merge_overwrites_key_witness :
  store_inv (fun _ => True) initial_state
  /\ itunes_key
       <$> record_at (snd (merge_entry "/m/a.mp3" (PStr "102")
                             (snd (merge_entry "/m/a.mp3" (PStr "101")
                                               initial_state))))
                     "/m/a.mp3"
     = Some (PStr "102").
Proof.
  assert (H0 : store_inv (fun _ => True) initial_state) by constructor.
  split; [exact H0|].
  destruct (second_merge_overwrites_key "/m/a.mp3" (PStr "101") (PStr "102")
              initial_state H0) as (_ & _ & _ & _ & _ & H).
  exact H.
Defined.

(** X15.  A file found on disk and named by the catalogue under the same
    path ends as one record under one key: the merge keeps what the scanner
    stored and adds the catalogue path and key, no key is added, and the
    first loop of the report writes that record to [file_in_itunes.csv]. *)
Theorem file_on_disk_and_in_catalog_is_one_record
        (E : Env) (f c : string) (k : pyval) (s : State) (fh1 fh2 fh3 : nat) :
  checksum_result E f = Ret c ->
  let s1 := snd (process_file E f s) in
  let s2 := snd (merge_entry f k s1) in
  record_at s2 f
  = Some {| file_path := Some f; file_name := Some (path_leaf E f);
            checksum := Some c; itunes_key := k;
            itunes_file_path := Some f |}
  /\ file_path_dict s2 = file_path_dict s1
  /\ trace s2 = trace s ++ [banner f]
  /\ (forall l, dict_get f (file_path_dict s2) = Some l ->
                classify_event E (heap s2) fh1 fh2 fh3 l
                = [Write fh3 (row (path_leaf E f) f nl)]).
Proof.
  intros Hc s1 s2. subst s1 s2. destruct s as [h d cd fs o t].
  rewrite process_file_run, process_file_work_run, Hc. simpl.
  rewrite merge_entry_run, dict_get_set_eq.
  rewrite list_lookup_middle by reflexivity. simpl.
  rewrite insert_last. unfold record_at. simpl. rewrite dict_get_set_eq.
  simpl. rewrite list_lookup_middle by reflexivity.
  repeat split.
  intros l Hl. inversion Hl; subst l. unfold classify_event.
  rewrite list_lookup_middle by reflexivity. reflexivity.
Qed.

Lemma file_on_disk_and_in_catalog_is_one_record_witness :
  checksum_result Demo.env "/m/a.mp3" = Ret "4038471504"
  /\ itunes_file_path
       <$> record_at (snd (merge_entry "/m/a.mp3" (PStr "101")
                             (snd (process_file Demo.env "/m/a.mp3"
                                                initial_state))))
                     "/m/a.mp3"
     = Some (Some "/m/a.mp3").
Proof.
  split; [reflexivity|].
  destruct (file_on_disk_and_in_catalog_is_one_record Demo.env "/m/a.mp3"
              "4038471504" (PStr "101") initial_state 0 1 2 eq_refl)
    as (H & _).
  cbv zeta in H. now rewrite H.
Defined.

(** ** The scan, whatever the scheduling *)

Lemma scan_store_inv_step (E : Env) (files : list string) (s0 : State)
      (ps : Pool * State) (a : action) :
  scan_inv E files s0 ps -> scan_store_inv E files s0 ps ->
  valid_action (fst ps) a ->
  scan_store_inv E files s0 (perform E a ps).
Proof.
  destruct ps as [p [h d cd fs o t]].
  intros (Hfiles & _) ((ext & Hext) & Hout & Hnone) Hv.
  simpl in Hfiles, Hext, Hout, Hnone, Hv.
  destruct a as [|i|i]; simpl in Hv.
  - destruct (todo p) as [|f rest] eqn:Ht; [congruence|].
    rewrite (perform_enqueue E p _ f rest Ht).
    unfold scan_store_inv. simpl. eauto.
  - destruct Hv as [f Hl].
    rewrite (perform_start E p h d cd fs o t i f _ Hl).
    unfold scan_store_inv. simpl. eauto.
  - destruct Hv as [f Hl].
    rewrite (perform_finish E p h d cd fs o t i f _ Hl).
    assert (Hin : f ∈ files).
    { rewrite <- Hfiles. apply elem_of_app. left.
      apply list_elem_of_In, in_map_iff. exists (f, Running).
      split; [reflexivity|].
      apply list_elem_of_In, list_elem_of_lookup. eauto. }
    unfold scan_store_inv. simpl.
    destruct (checksum_result E f) as [c|e] eqn:Hc; simpl; [|eauto].
    split; [|split].
    + exists (ext ++ [scanner_record E f c]). rewrite Hext.
      now rewrite app_assoc.
    + intros k Hk. rewrite dict_get_set_ne; [now apply Hout|].
      intros ->. contradiction.
    + intros Hfail. exfalso. exact (Hfail f c Hin Hc).
Qed.

Lemma scan_store_inv_holds (E : Env) (walk_dir : string) (s : State) :
  scan_store_inv E (walk_files E walk_dir) s (scan E walk_dir s).
Proof.
  unfold scan.
  apply (pool_run_invariant E
           (fun ps => scan_inv E (walk_files E walk_dir) s ps
                      /\ scan_store_inv E (walk_files E walk_dir) s ps)).
  - intros ps a [H1 H2] Hv. split.
    + now apply scan_inv_step.
    + now apply scan_store_inv_step.
  - split.
    + unfold scan_inv. simpl. repeat split; auto.
      * destruct i; discriminate.
      * destruct i; discriminate.
      * exists []. split; [now rewrite app_nil_r|constructor].
    + unfold scan_store_inv. simpl. repeat split; auto.
      exists []. now rewrite app_nil_r.
Qed.

Lemma record_at_grow (s s' : State) (k : string) (ext : list FileAttributes) :
  store_inv (fun _ => True) s ->
  heap s' = heap s ++ ext ->
  dict_get k (file_path_dict s') = dict_get k (file_path_dict s) ->
  record_at s' k = record_at s k.
Proof.
  intros Hinv Hh Hd. unfold record_at. rewrite Hd, Hh.
  destruct (dict_get k (file_path_dict s)) as [l|] eqn:Hg; [|reflexivity].
  simpl. apply dict_get_elem in Hg.
  destruct (proj1 (Forall_forall _ _) Hinv _ Hg) as (ob & Hob & _).
  simpl in Hob. rewrite Hob. now apply lookup_app_l_Some.
Qed.

Lemma scan_record_at (E : Env) (walk_dir : string) (s : State) (k : string) :
  store_inv (fun _ => True) s ->
  record_at (snd (scan E walk_dir s)) k
  = match checksum_result E k with
    | Ret c => if bool_decide (k ∈ walk_files E walk_dir)
               then Some (scanner_record E k c)
               else record_at s k
    | Raise _ => record_at s k
    end.
Proof.
  intros Hinv.
  destruct (scan_store_inv_holds E walk_dir s) as ((ext & Hext) & Hout & _).
  destruct (scan_inv_holds E walk_dir s) as (_ & _ & Hfail & _).
  destruct (scan_joined E walk_dir s) as (_ & _ & Htask & Hall).
  destruct (checksum_result E k) as [c|e] eqn:Hc.
  - destruct (bool_decide (k ∈ walk_files E walk_dir)) eqn:Hk.
    + apply bool_decide_eq_true in Hk. specialize (Hall k Hk).
      destruct (Htask _ _ Hall) as [_ Hst]. exact (Hst c Hc).
    + apply bool_decide_eq_false in Hk.
      eapply record_at_grow; eauto.
  - eapply record_at_grow; eauto. apply Hfail. intros c. congruence.
Qed.

(** X16.  What a scan leaves in the store does not depend on how the pool
    interleaves the tasks: under every scheduler, each walked file whose
    checksum can be computed has the scanner's record under its path, and
    every other key has the record it had before.  (Only the order of the
    keys and the identities of the new objects depend on the schedule.) *)
Theorem scan_result_independent_of_scheduling
        (E : Env) (sch : nat -> nat) (walk_dir : string) (s : State) (k : string) :
  store_inv (fun _ => True) s ->
  record_at (snd (scan E walk_dir s)) k
  = match checksum_result E k with
    | Ret c => if bool_decide (k ∈ walk_files E walk_dir)
               then Some (scanner_record E k c)
               else record_at s k
    | Raise _ => record_at s k
    end
  /\ record_at (snd (scan (with_scheduler E sch) walk_dir s)) k
     = record_at (snd (scan E walk_dir s)) k.
Proof.
  intros Hinv. split; [now apply scan_record_at|].
  rewrite !scan_record_at by exact Hinv. reflexivity.
Qed.

Lemma scan_result_independent_of_scheduling_witness :
  store_inv (fun _ => True) initial_state
  /\ record_at (snd (scan (with_scheduler Demo.env (fun n => 7 * n + 3))
                          "/m" initial_state)) "/m/b.mp3"
     = record_at (snd (scan Demo.env "/m" initial_state)) "/m/b.mp3".
Proof.
  assert (H0 : store_inv (fun _ => True) initial_state) by constructor.
  split; [exact H0|].
  exact (proj2 (scan_result_independent_of_scheduling Demo.env
                  (fun n => 7 * n + 3) "/m" initial_state "/m/b.mp3" H0)).
Defined.

Lemma split_blank_head_field (crc rest : string) :
  lacks " "%char crc ->
  PyStr.split_blank_head (crc +:+ String " " rest) = crc
  /\ PyStr.split_blank_head crc = crc.
Proof.
  induction crc as [|a crc IH]; intros H; [split; reflexivity|].
  apply lacks_cons in H as [Hne Hcrc]. destruct (IH Hcrc) as [IH1 IH2].
  simpl. destruct (Ascii.eqb a " ") eqn:Ha.
  - apply Ascii.eqb_eq in Ha. contradiction.
  - now rewrite IH1, IH2.
Qed.

(** X17.  When [cksum]'s output is text, the checksum kept for a file is
    the output up to its first blank (the CRC field of "CRC SIZE NAME"), and
    the whole output when it has no blank. *)
Theorem checksum_is_first_field (E : Env) (f crc rest : string) :
  lacks " "%char crc ->
  (check_output E ["cksum"; f] = Ret (PStr (crc +:+ String " " rest)) ->
   checksum_result E f = Ret crc)
  /\ (check_output E ["cksum"; f] = Ret (PStr crc) ->
      checksum_result E f = Ret crc).
Proof.
  intros Hcrc. destruct (split_blank_head_field crc rest Hcrc) as [H1 H2].
  split; intros Hout; rewrite (checksum_result_of_str E f _ Hout);
    congruence.
Qed.

Lemma checksum_is_first_field_witness :
  lacks " "%char "4038471504"
  /\ checksum_result Demo.env "/m/a.mp3" = Ret "4038471504".
Proof.
  assert (H : lacks " "%char "4038471504").
  { intros i. do 11 (destruct i as [|i]; [discriminate|]). discriminate. }
  split; [exact H|].
  exact (proj1 (checksum_is_first_field Demo.env "/m/a.mp3" "4038471504"
                  "75 /m/a.mp3" H) eq_refl).
Defined.

(** X18.  When [check_output] returns [bytes] for every walked file, as
    [subprocess.check_output] does without a text mode, no checksum is ever
    computed: every task ends with the [TypeError] of [split(' ')], and the
    scan leaves the objects and [file_path_dict] exactly as they were. *)
Theorem bytes_output_stores_nothing
        (E : Env) (walk_dir : string) (s : State) :
  (forall f, f ∈ walk_files E walk_dir ->
             exists b, check_output E ["cksum"; f] = Ret (PBytes b)) ->
  let p := fst (scan E walk_dir s) in
  let s' := snd (scan E walk_dir s) in
  heap s' = heap s
  /\ file_path_dict s' = file_path_dict s
  /\ map fst (tasks p) = walk_files E walk_dir
  /\ (forall f st, (f, st) ∈ tasks p ->
        st = Finished
               (Raise (Exn TypeError "a bytes-like object is required, not 'str'"))).
Proof.
  intros Hbytes p s'.
  assert (Hres : forall f, f ∈ walk_files E walk_dir ->
            checksum_result E f
            = Raise (Exn TypeError "a bytes-like object is required, not 'str'")).
  { intros f Hf. destruct (Hbytes f Hf) as [b Hb].
    exact (checksum_result_of_bytes E f b Hb). }
  destruct (scan_store_inv_holds E walk_dir s) as (_ & _ & Hnone).
  destruct (scan_joined E walk_dir s) as (Hnames & _ & Htask & _).
  fold p in Hnames, Htask.
  destruct Hnone as [Hh Hd].
  { intros f c Hf. rewrite (Hres f Hf). discriminate. }
  split; [exact Hh|]. split; [exact Hd|]. split; [exact Hnames|].
  intros f st Hin.
  assert (Hf : f ∈ walk_files E walk_dir).
  { rewrite <- Hnames. apply list_elem_of_In, in_map_iff.
    exists (f, st). split; [reflexivity|]. now apply list_elem_of_In. }
  destruct (Htask f st Hin) as [-> _].
  unfold work_outcome. now rewrite (Hres f Hf).
Qed.

Lemma bytes_output_stores_nothing_witness :
  (forall f, f ∈ walk_files Sample.env_raw "/m" ->
             exists b, check_output Sample.env_raw ["cksum"; f] = Ret (PBytes b))
  /\ file_path_dict (snd (scan Sample.env_raw "/m" Demo.store_single))
     = file_path_dict Demo.store_single.
Proof.
  assert (H : forall f, f ∈ walk_files Sample.env_raw "/m" ->
              exists b, check_output Sample.env_raw ["cksum"; f]
                        = Ret (PBytes b)).
  { intros f _. eexists. reflexivity. }
  split; [exact H|].
  destruct (bytes_output_stores_nothing Sample.env_raw "/m"
              Demo.store_single H) as (_ & Hd & _).
  exact Hd.
Defined.

(** ** Whole runs *)

Lemma classify_event_class (E : Env) h (n : nat) (l : loc) (ob : FileAttributes) :
  h !! l = Some ob -> record_wf ob ->
  exists data,
    classify_event E h n (S n) (S (S n)) l = [Write (n + record_class ob) data].
Proof.
  intros Hl Hwf. unfold record_class.
  destruct (classify_event_cases E h n (S n) (S (S n)) l ob Hl Hwf)
    as [(Hi & nm & p & _ & _ & Hev)
       |[(Hp & ip & Hi & Hev)|(ip & nm & p & Hi & _ & Hp & Hev)]];
    rewrite Hev, Hi; try rewrite Hp; eexists; f_equal; f_equal; lia.
Qed.

(** X19.  On a fresh run, after the scan and the catalogue pass and with
    writable report files, the first loop of [generate_reports] raises
    nothing and writes exactly one row for every record of the store, in
    store order, through the handle of the record's class: the first handle
    for a file that is not in the catalogue, the second for a catalogue
    entry without a file, the third for a file that is in both. *)
Theorem fresh_run_rows_partition
        (E : Env) (walk_dir xml rp : string) :
  let s := snd ((calculate_all_checksums E walk_dir ;;
                 read_itunes_library E xml) initial_state) in
  reports_writable E rp (fs s) ->
  let s' := snd (generate_reports E rp s) in
  let n := length (opened s) in
  trace s' = trace s ++ (if bool_decide (rp ∈ fs s) then [] else [Mkdir rp])
                     ++ classification E (heap s) (file_path_dict s) n
  /\ Forall (fun kl =>
               exists ob data,
                 heap s !! snd kl = Some ob
                 /\ classify_event E (heap s) n (S n) (S (S n)) (snd kl)
                    = [Write (n + record_class ob) data])
            (file_path_dict s).
Proof.
  intros s Hw s' n. subst s' n.
  pose proof (fresh_run_store_wf E walk_dir xml) as Hwf. fold s in Hwf.
  unfold store_inv in Hwf. destruct s as [h d cd f o t]. simpl in *.
  rewrite generate_reports_run by assumption. simpl.
  split; [reflexivity|].
  eapply Forall_impl; [exact Hwf|]. intros kl (ob & Hob & Hrec).
  destruct (classify_event_class E h (length o) (snd kl) ob Hob Hrec)
    as [data Hev]. eauto.
Qed.

Lemma fresh_run_rows_partition_witness :
  let s := snd ((calculate_all_checksums Demo.env "/m" ;;
                 read_itunes_library Demo.env "/lib/Library copy.xml")
                  initial_state) in
  reports_writable Demo.env Demo.report_dir (fs s)
  /\ Forall (fun kl =>
               exists ob data,
                 heap s !! snd kl = Some ob
                 /\ classify_event Demo.env (heap s) (length (opened s))
                      (S (length (opened s))) (S (S (length (opened s))))
                      (snd kl)
                    = [Write (length (opened s) + record_class ob) data])
            (file_path_dict s).
Proof.
  intros s. split; [apply demo_reports_writable|].
  exact (proj2 (fresh_run_rows_partition Demo.env "/m"
                  "/lib/Library copy.xml" Demo.report_dir
                  (demo_reports_writable _))).
Defined.

(** X20.  A run with [--cache] whose snapshot loads does not scan and does
    not read the catalogue: after its two header lines and the loading line
    it calls [generate_reports] on a store that holds exactly the records
    of the snapshot, under the snapshot's keys, in the snapshot's order. *)
Theorem cached_run_reports_loaded_snapshot
        (E : Env) (argv : list string) (args : Args)
        (loaded : list (string * FileAttributes)) :
  parse_args E (good_args (tail argv)) = Ret args ->
  cache_file args <> EmptyString ->
  pickle_load E (cache_file args) = Ret loaded ->
  NoDup (map fst loaded) ->
  let s := mkState (map snd loaded) (bound_from 0 loaded) [] [] []
             [Print ("iTunes Library root directory: "
                     +:+ fst (fst (selection args)));
              Print ("XML Library file: " +:+ snd (fst (selection args)));
              Print ("Loading cached data from: " +:+ cache_file args)] in
  main E argv initial_state
  = generate_reports E (report_directory (snd (fst (selection args)))) s
  /\ store_snapshot s = loaded.
Proof.
  intros Hparse Hcache Hload Hnd s. split.
  - unfold main. erewrite bind_ret_run by (apply read_args_run; exact Hparse).
    unfold selection. simpl.
    erewrite bind_ret_run by reflexivity.
    erewrite bind_ret_run by reflexivity.
    destruct (decide (cache_file args = EmptyString)) as [Heq|_];
      [contradiction|].
    erewrite bind_ret_run; [reflexivity|].
    unfold load_snapshot, try_except.
    erewrite bind_ret_run by reflexivity.
    erewrite bind_ret_run by (unfold lift; rewrite Hload; reflexivity).
    simpl. rewrite bind_loaded_run by exact Hnd. reflexivity.
  - subst s. exact (snapshot_of_bound loaded [] [] [] [] _).
Qed.

Lemma cached_run_reports_loaded_snapshot_witness :
  parse_args Sample.env_cached
             (good_args (tail ["dupe_checker.py"; "--cache"; "old.pkl"]))
  = Ret (mkArgs EmptyString EmptyString "old.pkl")
  /\ NoDup (map fst [("/m/a.mp3", Demo.rec_a); ("/m/gone.mp3", Demo.rec_gone)])
  /\ main Sample.env_cached ["dupe_checker.py"; "--cache"; "old.pkl"]
          initial_state
     = generate_reports Sample.env_cached
         (report_directory default_xml_file)
         (mkState [Demo.rec_a; Demo.rec_gone]
                  [("/m/a.mp3", 0); ("/m/gone.mp3", 1)] [] [] []
                  [Print ("iTunes Library root directory: " +:+ default_walk_dir);
                   Print ("XML Library file: " +:+ default_xml_file);
                   Print "Loading cached data from: old.pkl"]).
Proof.
  assert (Hnd : NoDup (map fst [("/m/a.mp3", Demo.rec_a);
                                ("/m/gone.mp3", Demo.rec_gone)])).
  { apply (bool_decide_unpack _). vm_compute. exact I. }
  split; [reflexivity|]. split; [exact Hnd|].
  exact (proj1 (cached_run_reports_loaded_snapshot Sample.env_cached
                  ["dupe_checker.py"; "--cache"; "old.pkl"]
                  (mkArgs EmptyString EmptyString "old.pkl")
                  [("/m/a.mp3", Demo.rec_a); ("/m/gone.mp3", Demo.rec_gone)]
                  eq_refl ltac:(discriminate) eq_refl Hnd)).
Defined.
